(** * NomanAI: policy gate, config-line engine, dispatcher, retry loop, pool

    A shallow embedding of the parts of the [nomanai] package that the
    specification makes claims about:

    - [file_ops.py]   : [set_config_line], [verify_config_line],
                        [read_file], [write_file_atomic];
    - [tools.py]      : [ALLOWED_CMD_PATTERNS], [cmd_allowed],
                        [tool_run_safe], [tool_run_command],
                        [tool_set_config_kv], [dispatch_tool];
    - [multi_agent.py]: [multi_agent_system];
    - [ssh_client.py] : [SSHConnectionPool.get_connection] and
                        [SSHConnectionPool.return_connection].

    and of the code around them:

    - [ssh_client.py] : [SSHConnectionPool.close_all], [get_stats],
                        [SSHClientManager.get_client];
    - [tools.py]      : [tool_read_file], [tool_write_file];
    - [fixes.py]      : [FIXES], [resolve_fixes], [apply_fixes],
                        [verify_fixes];
    - [docker_utils.py]: [sh], [docker], [docker_running], [docker_exec],
                        [down];
    - [multi_agent.py]: the verdict at the end of [verifier_agent].

    Modelling conventions.

    - Python [str] values are lists of 8-bit characters, read as the code
      points U+0000..U+00FF; the character classes below ([isspace], word
      characters, lower-casing, line boundaries) are Python's on that range.
    - The regular expressions of the source are written as terms of a small
      regex syntax and run by a backtracking matcher; only the truth value of
      [re.match] / [re.search] is used by the source, so only that is modelled.
    - Calls that leave the process (the backend executor, [docker_exec], the
      clock, the language model) are oracles threaded through an explicit
      world; every call is also recorded in a trace.  The executor and
      [docker_exec] return their triple or raise.
    - The connection pool is a value passed from call to call; each call is
      atomic (the source holds the endpoint's lock throughout) and receives
      the answers of the liveness probe and of the connection attempt.
    - A Python exception is a value of [exc]; [try ... except Exception] is
      [try_except]. *)

From Stdlib Require Import ZArith Lia List String Ascii Bool NArith DecimalString.
From stdpp Require Import base gmap strings list.
Import ListNotations.

Set Default Proof Using "Type".
Set Warnings "-register-all".
Open Scope Z_scope.
Open Scope list_scope.

(* ================================================================== *)
(** * Text *)
(* ================================================================== *)

Module Text.

(** Runtime text.  Literals are written [txt "..."]. *)
Definition str := list ascii.

Definition txt (s : string) : str := list_ascii_of_string s.

Definition code (c : ascii) : N := N_of_ascii c.

Definition in_range (lo hi : N) (c : ascii) : bool :=
  ((lo <=? code c) && (code c <=? hi))%N.

Definition chr (n : N) : ascii := ascii_of_N n.

Definition LF : ascii := chr 10.
Definition CR : ascii := chr 13.
Definition SP : ascii := chr 32.
Definition DQUOTE : ascii := chr 34.
Definition SQUOTE : ascii := chr 39.

Definition ascii_eqb (a b : ascii) : bool := Ascii.eqb a b.

(** [ch.isspace()], which is also [\s] in a [str] pattern. *)
Definition is_space (c : ascii) : bool :=
  in_range 9 13 c || in_range 28 32 c || (code c =? 133)%N || (code c =? 160)%N.

(** Alphanumeric in the sense of [Py_UNICODE_ISALNUM]. *)
Definition is_alnum (c : ascii) : bool :=
  in_range 48 57 c || in_range 65 90 c || in_range 97 122 c
  || (code c =? 170)%N || (code c =? 178)%N || (code c =? 179)%N
  || (code c =? 181)%N || (code c =? 185)%N || (code c =? 186)%N
  || in_range 188 190 c
  || in_range 192 214 c || in_range 216 246 c || in_range 248 255 c.

(** [\w] in a [str] pattern. *)
Definition is_word (c : ascii) : bool := is_alnum c || (code c =? 95)%N.

(** Line boundaries of [str.splitlines]. *)
Definition is_linebreak (c : ascii) : bool :=
  in_range 10 13 c || in_range 28 30 c || (code c =? 133)%N.

(** [ch.lower()] (on this range also the simple case folding of [re.I]). *)
Definition lower_char (c : ascii) : ascii :=
  if in_range 65 90 c || in_range 192 214 c || in_range 216 222 c
  then chr (code c + 32) else c.

Definition lower (s : str) : str := map lower_char s.

(** [str(n)] for an integer, as in an f-string. *)
Definition str_of_int (n : Z) : str := txt (NilZero.string_of_int (Z.to_int n)).

Fixpoint str_eqb (a b : str) : bool :=
  match a, b with
  | [], [] => true
  | x :: a', y :: b' => ascii_eqb x y && str_eqb a' b'
  | _, _ => false
  end.

(** [s.startswith(p)] *)
Fixpoint startswith (p s : str) : bool :=
  match p, s with
  | [], _ => true
  | x :: p', y :: s' => ascii_eqb x y && startswith p' s'
  | _ :: _, [] => false
  end.

(** [s.endswith(p)] *)
Definition endswith (s p : str) : bool := startswith (rev p) (rev s).

(** [sep.join(parts)] *)
Fixpoint join (sep : str) (parts : list str) : str :=
  match parts with
  | [] => []
  | [p] => p
  | p :: rest => p ++ sep ++ join sep rest
  end.

Fixpoint lstrip (s : str) : str :=
  match s with
  | c :: s' => if is_space c then lstrip s' else s
  | [] => []
  end.

Definition rstrip (s : str) : str := rev (lstrip (rev s)).

(** [s.strip()] *)
Definition strip (s : str) : str := rstrip (lstrip s).

(** [needle in s] *)
Fixpoint contains (needle s : str) : bool :=
  startswith needle s ||
  match s with
  | [] => false
  | _ :: s' => contains needle s'
  end.

(** [s.split(sep)] for a non-empty separator: occurrences are found left to
    right and do not overlap.  [skip] counts the characters of a separator
    still to be passed over, [cur] is the current piece, reversed. *)
Fixpoint split_go (sep : str) (skip : nat) (cur : str) (s : str) : list str :=
  match s with
  | [] => [rev cur]
  | c :: s' =>
      match skip with
      | S n => split_go sep n cur s'
      | O =>
          if startswith sep s
          then rev cur :: split_go sep (Nat.pred (List.length sep)) [] s'
          else split_go sep O (c :: cur) s'
      end
  end.

Definition split (sep : str) (s : str) : list str := split_go sep O [] s.

(** [s.splitlines()]: a line ends at a line boundary ([\r\n] counts once);
    boundaries are dropped and a final boundary opens no further line. *)
Fixpoint splitlines_go (cur : str) (s : str) : list str :=
  match s with
  | [] => match cur with [] => [] | _ => [rev cur] end
  | c :: s' =>
      if is_linebreak c then
        if ascii_eqb c CR then
          match s' with
          | d :: s'' =>
              if ascii_eqb d LF
              then rev cur :: splitlines_go [] s''
              else rev cur :: splitlines_go [] s'
          | [] => rev cur :: splitlines_go [] s'
          end
        else rev cur :: splitlines_go [] s'
      else splitlines_go (c :: cur) s'
  end.

Definition splitlines (s : str) : list str := splitlines_go [] s.

Global Arguments ascii_eqb : simpl never.
Global Arguments is_space : simpl never.
Global Arguments is_word : simpl never.
Global Arguments is_linebreak : simpl never.
Global Arguments lower_char : simpl never.

End Text.
Export Text.

(* ================================================================== *)
(** * Regular expressions *)
(* ================================================================== *)

Module Regex.

(** An item of a bracket expression [[...]]. *)
Inductive citem : Type :=
| One (c : ascii)
| Range (lo hi : ascii).

(** The fragment of Python's [re] syntax that the source uses.  Flags are
    folded into the constructors: [ChrI] is a literal under [re.I], [BolM]
    is [^] under [re.M]. *)
Inductive regex : Type :=
| Eps
| Dot                       (* [.]  : any character but a newline *)
| Space                     (* [\s] *)
| Set_ (items : list citem) (* [[...]] *)
| Chr (c : ascii)           (* a literal character *)
| ChrI (c : ascii)          (* a literal character, ignoring case *)
| Seq (a b : regex)
| Alt (a b : regex)
| Star (a : regex)
| Bol                       (* [^] *)
| BolM                      (* [^] with [re.M] *)
| Eol                       (* [$] *)
| WordB.                    (* [\b] *)

Definition Plus (a : regex) : regex := Seq a (Star a).
Definition Opt (a : regex) : regex := Alt a Eps.

Fixpoint seq (rs : list regex) : regex :=
  match rs with
  | [] => Eps
  | r :: rs' => Seq r (seq rs')
  end.

Fixpoint alts (rs : list regex) : regex :=
  match rs with
  | [] => Set_ []
  | [r] => r
  | r :: rs' => Alt r (alts rs')
  end.

(** A literal string; [lit_i] is the same under [re.I].  [re.escape] turns
    its argument into exactly such a literal. *)
Definition lit_s (s : str) : regex := seq (map Chr s).
Definition lit_i (s : str) : regex := seq (map ChrI s).
Definition lit (s : string) : regex := lit_s (txt s).

(** [(w1|w2|...)] *)
Definition words (ws : list string) : regex := alts (map lit ws).

Definition citem_matches (c : ascii) (i : citem) : bool :=
  match i with
  | One x => ascii_eqb c x
  | Range lo hi => in_range (code lo) (code hi) c
  end.

(** The matcher is written with continuations: [k prev rest] is asked
    whether the remainder of the pattern matches, where [prev] is the
    character just before the current position and [rest] the text from
    the current position on. *)
Definition cont : Type := option ascii -> str -> bool.

Definition word_opt (o : option ascii) : bool :=
  match o with Some c => is_word c | None => false end.

Definition next_char (s : str) : option ascii :=
  match s with c :: _ => Some c | [] => None end.

Definition one_char (p : ascii -> bool) (k : cont) : cont :=
  fun _ s =>
    match s with
    | c :: s' => p c && k (Some c) s'
    | [] => false
    end.

(** Iteration: every round of the body must consume input, so [fuel] equal
    to the length of the text is never exhausted ([star_fuel_enough]). *)
Fixpoint star_go (fuel : nat) (body : cont -> cont) (k : cont) : cont :=
  fun prev s =>
    k prev s ||
    match fuel with
    | O => false
    | S f =>
        body (fun prev' s' =>
                (List.length s' <? List.length s)%nat && star_go f body k prev' s')
             prev s
    end.

Fixpoint rmatch (r : regex) (k : cont) : cont :=
  match r with
  | Eps => k
  | Dot => one_char (fun c => negb (ascii_eqb c LF)) k
  | Space => one_char is_space k
  | Set_ items => one_char (fun c => existsb (citem_matches c) items) k
  | Chr x => one_char (fun c => ascii_eqb c x) k
  | ChrI x => one_char (fun c => ascii_eqb (lower_char c) (lower_char x)) k
  | Seq a b => rmatch a (rmatch b k)
  | Alt a b => fun prev s => rmatch a k prev s || rmatch b k prev s
  | Star a => fun prev s => star_go (S (List.length s)) (rmatch a) k prev s
  | Bol => fun prev s => match prev with None => k prev s | Some _ => false end
  | BolM => fun prev s =>
      match prev with
      | None => k prev s
      | Some c => ascii_eqb c LF && k prev s
      end
  | Eol => fun prev s =>
      match s with
      | [] => k prev s
      | [c] => ascii_eqb c LF && k prev s
      | _ => false
      end
  | WordB => fun prev s =>
      xorb (word_opt prev) (word_opt (next_char s)) && k prev s
  end.

Definition accept : cont := fun _ _ => true.

(** [bool(re.match(r, s))] *)
Definition re_match (r : regex) (s : str) : bool := rmatch r accept None s.

(** [bool(re.search(r, s))]: a match starting at some position. *)
Fixpoint search_go (r : regex) (prev : option ascii) (s : str) : bool :=
  rmatch r accept prev s ||
  match s with
  | [] => false
  | c :: s' => search_go r (Some c) s'
  end.

Definition re_search (r : regex) (s : str) : bool := search_go r None s.

(** ** Notions used to reason about matches *)

(** Patterns without anchors and word boundaries. *)
Fixpoint plain (r : regex) : bool :=
  match r with
  | Eps | Dot | Space | Set_ _ | Chr _ | ChrI _ => true
  | Seq a b | Alt a b => plain a && plain b
  | Star a => plain a
  | Bol | BolM | Eol | WordB => false
  end.

(** [k'] accepts, with [rest] appended to the text, whatever [k] accepts,
    for previous characters related by [R]. *)
Definition extends (rest : str) (R : option ascii -> option ascii -> Prop)
    (k k' : cont) : Prop :=
  forall prev prev' s,
    R prev prev' -> k prev s = true -> k' prev' (s ++ rest) = true.

(** Frequently used pieces. *)
Definition ws1 : regex := Plus Space.                (* [\s+] *)
Definition ws0 : regex := Star Space.                (* [\s*] *)
Definition any0 : regex := Star Dot.                 (* [.*]  *)
Definition any1 : regex := Plus Dot.                 (* [.+]  *)

Definition az : citem := Range "a" "z".
Definition AZ : citem := Range "A" "Z".
Definition d09 : citem := Range "0" "9".

End Regex.
Export Regex.

(* ================================================================== *)
(** * Values, exceptions and the world *)
(* ================================================================== *)

Module Py.

(** The Python values that flow through tool arguments and results (what
    [json.loads] can produce, without nested objects, which no modelled
    path inspects). *)
Inductive value : Type :=
| VNone
| VBool (b : bool)
| VInt (z : Z)
| VStr (s : str)
| VList (l : list value).

(** A Python [dict] with string keys. *)
Abbreviation dict := (gmap string value).

(** The outcome of a computation: a value, or an exception of class
    [Exception] whose [str(e)] is [msg]. *)
Inductive exc (A : Type) : Type :=
| Ret (a : A)
| Raise (msg : str).
Arguments Ret {A} a.
Arguments Raise {A} msg.

(** What leaves the process. *)
Inductive event : Type :=
| EvExecute (cmd : str)        (* [get_executor().execute(cmd)] *)
| EvDockerExec (cmd : str).    (* [docker_exec(cmd)] *)

Section World.

Context {W : Type}.

(** [env] is the state of everything outside the process, [trace] the
    calls made so far, [ALLOW_INSECURE] the module attribute of
    [config.py]. *)
Record world : Type := World {
  env : W;
  trace : list event;
  ALLOW_INSECURE : bool
}.

Definition M (A : Type) : Type := world -> exc A * world.

Definition ret {A} (a : A) : M A := fun w => (Ret a, w).

Definition raise {A} (msg : str) : M A := fun w => (Raise msg, w).

Definition bind {A B} (m : M A) (k : A -> M B) : M B :=
  fun w =>
    match m w with
    | (Ret a, w') => k a w'
    | (Raise e, w') => (Raise e, w')
    end.

(** [try: m  except Exception as e: h e] *)
Definition try_except {A} (m : M A) (h : str -> M A) : M A :=
  fun w =>
    match m w with
    | (Ret a, w') => (Ret a, w')
    | (Raise e, w') => h e w'
    end.

Definition get_allow_insecure : M bool :=
  fun w => (Ret (ALLOW_INSECURE w), w).

Definition set_allow_insecure (b : bool) : M unit :=
  fun w => (Ret tt, World (env w) (trace w) b).

Definition emit (e : event) : M unit :=
  fun w => (Ret tt, World (env w) (trace w ++ [e]) (ALLOW_INSECURE w)).

(** Consult an oracle on the outside state. *)
Definition ask {A} (f : W -> exc A * W) : M A :=
  fun w =>
    let '(r, e') := f (env w) in
    (r, World e' (trace w) (ALLOW_INSECURE w)).

End World.

Arguments world : clear implicits.
Arguments M : clear implicits.

End Py.
Export Py.

Notation "x <- m ;; k" := (bind m (fun x => k))
  (at level 100, m at next level, right associativity).

(* ================================================================== *)
(** * tools.py: the command allow-list *)
(* ================================================================== *)

Module Policy.

(** [[a-zA-Z0-9_.-]] *)
Definition name_cs : regex :=
  Set_ [az; AZ; d09; One "_"; One "."; One "-"].
(** [[a-zA-Z0-9._/\-]] *)
Definition path_cs : regex :=
  Set_ [az; AZ; d09; One "."; One "_"; One "/"; One "-"].
(** [[a-zA-Z]] *)
Definition alpha_cs : regex := Set_ [az; AZ].

Definition svc_actions : list string :=
  ["reload"; "restart"; "stop"; "start"; "status"].

(** [ALLOWED_CMD_PATTERNS], in the order of the source. *)
Definition ALLOWED_CMD_PATTERNS : list regex := [
  seq [Bol; lit "systemctl"; ws1;
       words ["reload"; "restart"; "stop"; "start"; "status"; "enable";
              "disable"; "list-units"; "is-active"; "is-enabled";
              "list-unit-files"];
       ws1; any0; Eol];
  seq [Bol; lit "service"; ws1; Plus name_cs; ws1; words svc_actions; Eol];
  seq [Bol; lit "update-rc.d"; ws1; Plus name_cs; ws1;
       words ["enable"; "disable"]; any0; Eol];
  seq [Bol; lit "chkconfig"; ws1; Plus name_cs; ws1;
       words ["on"; "off"]; any0; Eol];
  seq [Bol; lit "nohup"; ws1; any0; Eol];
  seq [Bol; lit "grep"; ws1; lit "-"; Star alpha_cs;
       Opt (Set_ [One "n"; One "E"]); ws1; any1; Eol];
  seq [Bol; lit "sed"; ws1; lit "-"; Star alpha_cs;
       Opt (Set_ [One "i"; One "n"]); ws1;
       Chr SQUOTE; any1; Chr SQUOTE; ws1; Plus path_cs; Eol];
  seq [Bol; lit "cat"; ws1; lit "/"; Plus path_cs; Eol];
  seq [Bol; lit "ls"; ws1; lit "-"; Star alpha_cs; ws0; Star path_cs; Eol];
  seq [Bol; lit "test"; ws1; lit "-"; Plus alpha_cs; ws1; Plus path_cs; Eol];
  seq [Bol; lit "apt-get"; ws1;
       words ["update"; "install"; "remove"; "purge"; "upgrade"; "autoremove"];
       ws1; any0; Eol];
  seq [Bol; lit "apt"; ws1;
       words ["update"; "install"; "remove"; "purge"; "upgrade"; "autoremove";
              "search"; "list"; "cache"];
       ws1; any0; Eol];
  seq [Bol; lit "apt-cache"; ws1; words ["search"; "show"; "policy"];
       ws1; any0; Eol];
  seq [Bol; lit "dpkg"; ws1; lit "-"; Plus alpha_cs; ws1; any0; Eol];
  seq [Bol; lit "dpkg"; ws1; lit "-l"; ws0; any0; Eol];
  seq [Bol; lit "ps"; ws1; lit "au"; Opt (lit "x"); Eol];
  seq [Bol; lit "pgrep"; ws1; lit "-f"; ws1; any0; Eol];
  seq [Bol; lit "netstat"; ws1; lit "-"; Star alpha_cs;
       Star (Set_ [One "t"; One "u"; One "l"; One "p"; One "n"]); Eol];
  seq [Bol; lit "ss"; ws1; lit "-"; Star alpha_cs;
       Star (Set_ [One "t"; One "u"; One "l"; One "p"; One "n"]); Eol];
  seq [Bol; lit "which"; ws1; Plus name_cs; Eol];
  seq [Bol; lit "command"; ws1; lit "-v"; ws1; Plus name_cs; Eol];
  seq [Bol; lit "mkdir"; ws1; lit "-"; Star alpha_cs;
       Opt (Set_ [One "p"]); ws1; any0; Eol];
  seq [Bol; lit "chmod"; ws1;
       Plus (Set_ [d09; az; AZ; One "+"; One "="; One "-"]); ws1;
       lit "/"; Plus path_cs; Eol];
  seq [Bol; lit "chown"; ws1; Plus name_cs;
       Opt (Seq (lit ":") (Plus name_cs)); ws1;
       lit "/"; Plus path_cs; Eol];
  seq [Bol; lit "find"; ws1; lit "/"; Plus path_cs; ws1; any0; Eol];
  seq [Bol; lit "sleep"; ws1; Plus (Set_ [d09]); Eol];
  seq [Bol; lit "openssl"; ws1; any0; Eol];
  seq [Bol; lit "ssh-keygen"; ws1; any0; Eol];
  seq [Bol; lit "cd"; ws1; Plus path_cs; Eol];
  seq [Bol; lit "pwd"; Eol];
  seq [Bol; lit "touch"; ws1; Plus path_cs; Eol]
].

(** [re.sub(r'\s+', ' ', s)]: every run of whitespace becomes one space.
    [in_ws] tells that the previous character was whitespace. *)
Fixpoint collapse_ws (in_ws : bool) (s : str) : str :=
  match s with
  | [] => []
  | c :: s' =>
      if is_space c
      then (if in_ws then collapse_ws true s' else SP :: collapse_ws true s')
      else c :: collapse_ws false s'
  end.

Definition cmd_allowed (cmd : str) : bool :=
  let cmd_clean := collapse_ws false (strip cmd) in
  existsb (fun p => re_match p cmd_clean) ALLOWED_CMD_PATTERNS.

End Policy.
Export Policy.

(* ================================================================== *)
(** * file_ops.py: the configuration-line engine *)
(* ================================================================== *)

Module FileOps.

(** [re.compile(rf"^\s*#?\s*{re.escape(key)}\b", re.I)] *)
Definition config_pat (key : str) : regex :=
  seq [Bol; ws0; Opt (Chr "#"); ws0; lit_i key; WordB].

(** [f"{key} {value}"] *)
Definition kv_line (key value : str) : str := key ++ [SP] ++ value.

(** The loop over [lines]: the rewritten lines and the final [found]. *)
Fixpoint rewrite_lines (pat : regex) (kv : str) (lines : list str)
  : list str * bool :=
  match lines with
  | [] => ([], false)
  | line :: rest =>
      let '(out, found) := rewrite_lines pat kv rest in
      if re_match pat line then (kv :: out, true) else (line :: out, found)
  end.

Definition nonempty {A} (l : list A) : bool :=
  match l with [] => false | _ => true end.

Definition set_config_line (current key value : str) : str * bool :=
  let lines := splitlines current in
  let pat := config_pat key in
  let '(out0, found) := rewrite_lines pat (kv_line key value) lines in
  let out := if found then out0 else out0 ++ [kv_line key value] in
  let new :=
    join [LF] out ++
    (if negb (nonempty out && endswith (List.last out []) [LF])
     then [LF] else []) in
  let changed :=
    negb (str_eqb new
            (if endswith current [LF] then current
             else current ++ (if nonempty current then [LF] else []))) in
  (new, changed).

(** [rf"^\s*{re.escape(key)}\s+{re.escape(value)}\b"] with [re.M] *)
Definition verify_pat (key value : str) : regex :=
  seq [BolM; ws0; lit_s key; ws1; lit_s value; WordB].

Definition verify_config_line (content key value : str) : bool :=
  re_search (verify_pat key value) content.

(** ** Notions used to state the properties of the engine *)

(** [s] holds no line boundary. *)
Definition no_break (s : str) : Prop :=
  Forall (fun c => is_linebreak c = false) s.

(** [s] ends with one newline and not with two. *)
Definition one_trailing_newline (s : str) : Prop :=
  endswith s [LF] = true /\ endswith s [LF; LF] = false.

(** Trailing-newline normalisation of a document: a non-empty document
    that does not end with a newline gets one. *)
Definition normalize_newline (doc : str) : str :=
  match doc with
  | [] => []
  | _ => if endswith doc [LF] then doc else doc ++ [LF]
  end.

(** The last line of the document is blank. *)
Definition ends_with_blank_line (doc : str) : bool :=
  match rev (splitlines doc) with
  | [] :: _ => true
  | _ => false
  end.

(** The lines of a document in the sense of [re.M]: the text between
    newlines. *)
Definition text_lines (doc : str) : list str := split [LF] doc.

(** A single line holds the setting: the pattern of [verify_config_line]
    matches at the start of that line. *)
Definition line_has_setting (key value line : str) : bool :=
  re_match (verify_pat key value) line.

Definition some_line_has_setting (doc key value : str) : bool :=
  existsb (line_has_setting key value) (text_lines doc).

End FileOps.
Export FileOps.

(* ================================================================== *)
(** * tools.py: the tools that the claims are about *)
(* ================================================================== *)

Module Tools.

(** [{"k1": v1, ...}] *)
Definition mkdict (items : list (string * value)) : dict := list_to_map items.

Definition vtxt (s : string) : value := VStr (txt s).

(** Everything outside the process that the tools rely on. *)
Record outside (W : Type) : Type := Outside {
  (** the current executor's [execute]: it may raise (an SSH backend does,
      for instance when its pool is exhausted) *)
  execute_oracle : str -> W -> exc (Z * str * str) * W;
  (** [docker_exec]: it returns its triple, or raises when
      [subprocess.run] does (a NUL byte in the command, output that cannot
      be decoded) *)
  docker_oracle : str -> W -> exc (Z * str * str) * W;
  (** [int(time.time())] *)
  clock : W -> Z * W;
  (** library functions used to build shell commands: [shlex.quote],
      base64 of the UTF-8 encoding, [os.path.dirname] *)
  shlex_quote : str -> str;
  b64encode : str -> str;
  dirname : str -> str;
  (** a call of a tool with keyword arguments whose body is not modelled below, or
      whose arguments do not fit the signature: it returns a result
      dictionary or raises *)
  unmodelled_call : string -> dict -> W -> exc dict * W
}.
Arguments execute_oracle {W}.
Arguments docker_oracle {W}.
Arguments clock {W}.
Arguments shlex_quote {W}.
Arguments b64encode {W}.
Arguments dirname {W}.
Arguments unmodelled_call {W}.

Section Backend.

Context {W : Type} (O : outside W).

Definition execute (cmd : str) : M W (Z * str * str) :=
  _ <- emit (EvExecute cmd) ;;
  ask (execute_oracle O cmd).

Definition docker_exec (cmd : str) : M W (Z * str * str) :=
  _ <- emit (EvDockerExec cmd) ;;
  ask (docker_oracle O cmd).

(** ** file_ops.py: [read_file], [write_file_atomic] *)

Definition read_file (path : str) : M W str :=
  let q := shlex_quote O path in
  r <- docker_exec (txt "test -f " ++ q ++ txt " && cat " ++ q ++ txt " || true") ;;
  let '(rc, out, _) := r in
  ret (if (rc =? 0) || (rc =? 1) then out else []).

Definition write_file_atomic (path content : str) : M W unit :=
  let b64 := b64encode O content in
  let dirn := if nonempty (dirname O path) then dirname O path else txt "/" in
  ts <- ask (fun e => let '(t, e') := clock O e in (Ret t, e')) ;;
  let q := shlex_quote O path in
  _ <- docker_exec (txt "mkdir -p " ++ shlex_quote O dirn) ;;
  _ <- docker_exec (txt "test -f " ++ q ++ txt " && cp " ++ q ++ txt " "
                      ++ q ++ txt ".bak." ++ str_of_int ts ++ txt " || true") ;;
  _ <- docker_exec (txt "echo " ++ shlex_quote O b64
                      ++ txt " | base64 -d > /tmp/.nomanai.tmp && mv /tmp/.nomanai.tmp "
                      ++ q) ;;
  ret tt.

(** ** [tool_run_safe] *)

(** [cmd.split('&&')], or [cmd.split(';')] when that gave a single part. *)
Definition cmd_parts (cmd : str) : list str :=
  let parts := split (txt "&&") cmd in
  if (List.length parts =? 1)%nat then split (txt ";") cmd else parts.

(** The checking loop: the first part that is rejected, if any. *)
Fixpoint first_denied (parts : list str) : option str :=
  match parts with
  | [] => None
  | p :: rest =>
      let part := strip p in
      if nonempty part && negb (cmd_allowed part)
      then Some part
      else first_denied rest
  end.

Definition denied (part : str) : dict :=
  mkdict [("ok", VBool false);
          ("stderr", VStr (txt "command not allowed by policy: " ++ part))].

Definition tool_run_safe (cmd : str) : M W dict :=
  match first_denied (cmd_parts cmd) with
  | Some part => ret (denied part)
  | None =>
      r <- execute cmd ;;
      let '(rc, out, err) := r in
      ret (mkdict [("ok", VBool (rc =? 0)); ("rc", VInt rc);
                   ("stdout", VStr out); ("stderr", VStr err)])
  end.

(** ** [tool_run_command] *)

Definition tool_run_command (cmd : str) : M W dict := tool_run_safe cmd.

(** ** [tool_set_config_kv] *)

Definition blocked : dict :=
  mkdict [("ok", VBool false);
          ("stderr", vtxt "blocked by policy: insecure sshd setting; rerun with --allow-insecure")].

Definition tool_set_config_kv (path key value : str) : M W dict :=
  allow <- get_allow_insecure ;;
  if negb allow && str_eqb path (txt "/etc/ssh/sshd_config")
     && ((str_eqb key (txt "PermitRootLogin")
          || str_eqb key (txt "PasswordAuthentication"))
         && str_eqb (lower value) (txt "yes"))
  then ret blocked
  else
    current <- read_file path ;;
    let '(new, _) := set_config_line current key value in
    _ <- write_file_atomic path new ;;
    ret (mkdict [("ok", VBool true)]).

End Backend.

(** ** Notions used to state the policy *)

(** The segments of a command line between the sequencing separators
    [&&] and [;], found left to right.  [skip] and [cur] are as in
    [split_go]. *)
Fixpoint segments_go (skip : nat) (cur : str) (s : str) : list str :=
  match s with
  | [] => [rev cur]
  | c :: s' =>
      match skip with
      | S n => segments_go n cur s'
      | O =>
          if startswith (txt "&&") s then rev cur :: segments_go 1 [] s'
          else if startswith (txt ";") s then rev cur :: segments_go 0 [] s'
          else segments_go 0 (c :: cur) s'
      end
  end.

Definition sequencing_segments (cmd : str) : list str := segments_go 0 [] cmd.

(** A segment that holds a command and is refused by the allow-list. *)
Definition offending (segment : str) : bool :=
  nonempty (strip segment) && negb (cmd_allowed (strip segment)).

(** The file guarded by the insecure-value gate. *)
Definition SSHD_CONFIG : str := txt "/etc/ssh/sshd_config".

(** A backend on which every command succeeds with empty output, to run
    the tools on examples. *)
Definition quiet_outside : outside unit := {|
  execute_oracle := fun _ e => (Ret (0, [], []), e);
  docker_oracle := fun _ e => (Ret (0, [], []), e);
  clock := fun e => (0, e);
  shlex_quote := fun s => s;
  b64encode := fun s => s;
  dirname := fun _ => [];
  unmodelled_call := fun _ _ e => (Ret (mkdict [("ok", VBool true)]), e)
|}.

(** A backend on which every call outside the process raises, with the
    same message. *)
Definition failing_outside (msg : str) : outside unit := {|
  execute_oracle := fun _ e => (Raise msg, e);
  docker_oracle := fun _ e => (Raise msg, e);
  clock := fun e => (0, e);
  shlex_quote := fun s => s;
  b64encode := fun s => s;
  dirname := fun _ => [];
  unmodelled_call := fun _ _ e => (Raise msg, e)
|}.

Definition fresh_world (allow_insecure : bool) : world unit :=
  World tt [] allow_insecure.

(** The commands that [read_file] and [write_file_atomic] hand to
    [docker_exec], as the source builds them: the test and [cat] of the
    quoted path; [mkdir -p] of the quoted directory of the path, [/] when
    it has none; the copy to [<path>.bak.<ts>]; the decoding of the
    base64 text into the temporary file that is moved over the path. *)
Definition read_command {W} (O : outside W) (path : str) : str :=
  txt "test -f " ++ shlex_quote O path ++ txt " && cat " ++ shlex_quote O path
  ++ txt " || true".

Definition mkdir_command {W} (O : outside W) (path : str) : str :=
  txt "mkdir -p "
  ++ shlex_quote O (if nonempty (dirname O path) then dirname O path else txt "/").

Definition backup_command {W} (O : outside W) (path : str) (ts : Z) : str :=
  txt "test -f " ++ shlex_quote O path ++ txt " && cp " ++ shlex_quote O path
  ++ txt " " ++ shlex_quote O path ++ txt ".bak." ++ str_of_int ts ++ txt " || true".

Definition store_command {W} (O : outside W) (path content : str) : str :=
  txt "echo " ++ shlex_quote O (b64encode O content)
  ++ txt " | base64 -d > /tmp/.nomanai.tmp && mv /tmp/.nomanai.tmp "
  ++ shlex_quote O path.

(** The calls to the backend executor made between two worlds. *)
Definition executed {W} (w w' : world W) (cmds : list str) : Prop :=
  trace w' = trace w ++ map EvExecute cmds.

End Tools.
Export Tools.

(* ================================================================== *)
(** * tools.py: [dispatch_tool] *)
(* ================================================================== *)

Module Dispatcher.

(** [k in d] *)
Definition has_key (k : string) (d : dict) : bool :=
  match d !! k with Some _ => true | None => false end.

(** [d[new] = d.pop(old)], for a key [old] of [d] *)
Definition pop_into (old new : string) (d : dict) : dict :=
  match d !! old with
  | Some v => <[new := v]> (delete old d)
  | None => d
  end.

(** [if old in d and new not in d: d[new] = d.pop(old)] *)
Definition alias (old new : string) (d : dict) : dict :=
  if has_key old d && negb (has_key new d) then pop_into old new d else d.

(** [type(v).__name__] *)
Definition type_name (v : value) : string :=
  match v with
  | VNone => "NoneType"
  | VBool _ => "bool"
  | VInt _ => "int"
  | VStr _ => "str"
  | VList _ => "list"
  end.

(** The items of a list as strings, or the first item that is not one,
    with its index. *)
Fixpoint str_items (i : Z) (l : list value) : (Z * value) + list str :=
  match l with
  | [] => inr []
  | VStr s :: rest =>
      match str_items (i + 1) rest with
      | inr ss => inr (s :: ss)
      | inl bad => inl bad
      end
  | v :: _ => inl (i, v)
  end.

Definition failure (msg : str) : dict :=
  mkdict [("ok", VBool false); ("stderr", VStr msg)].

Section Dispatch.

Context {W : Type} (O : outside W).

(** [sep.join(l)] on a list of values: a [TypeError] at the first item
    that is not a string. *)
Definition join_values (sep : str) (l : list value) : M W str :=
  match str_items 0 l with
  | inr ss => ret (join sep ss)
  | inl (i, v) =>
      raise (txt "sequence item " ++ str_of_int i
             ++ txt ": expected str instance, " ++ txt (type_name v)
             ++ txt " found")
  end.

(** [pkg_list = d.pop(key)], then [d["package"]] is set to the list joined
    by spaces, or to the value itself when it is not a list. *)
Definition pop_package (key : string) (d : dict) : M W dict :=
  match d !! key with
  | Some (VList l) =>
      s <- join_values (txt " ") l ;;
      ret (<["package" := VStr s]> (delete key d))
  | Some v => ret (<["package" := v]> (delete key d))
  | None => ret d
  end.

(** The normalisation of parameter names at the head of [dispatch_tool]. *)
Definition normalize_args (name : string) (args : dict) : M W dict :=
  let na := args in
  let na := alias "service_name" "name" na in
  let na := alias "file_path" "path" na in
  na <- (if has_key "package_names" na && negb (has_key "package" na)
         then pop_package "package_names" na
         else if has_key "packages" na && negb (has_key "package" na)
         then pop_package "packages" na
         else ret na) ;;
  let na := alias "command" "cmd" na in
  let na := alias "permissions" "mode" na in
  let na := alias "regex_pattern" "regex" na in
  let na :=
    if String.eqb name "search_packages" && has_key "package_name" na
       && negb (has_key "query" na)
    then pop_into "package_name" "query" na
    else if has_key "package_name" na && negb (has_key "package" na)
    then pop_into "package_name" "package" na
    else na in
  ret na.

(** The call [tool_<name>] with the keyword arguments [na].  The two tools
    whose bodies are modelled run here when the arguments fit their
    signature; every other call is left to the oracle. *)
Definition call_tool (name : string) (na : dict) : M W dict :=
  if String.eqb name "run_safe" then
    match na !! "cmd" with
    | Some (VStr cmd) =>
        if (size na =? 1)%nat then tool_run_safe O cmd
        else ask (unmodelled_call O name na)
    | _ => ask (unmodelled_call O name na)
    end
  else if String.eqb name "set_config_kv" then
    match na !! "path", na !! "key", na !! "value" with
    | Some (VStr path), Some (VStr key), Some (VStr value) =>
        if (size na =? 3)%nat then tool_set_config_kv O path key value
        else ask (unmodelled_call O name na)
    | _, _, _ => ask (unmodelled_call O name na)
    end
  else ask (unmodelled_call O name na).

(** One [if name == tool:] block: the check of the required parameters,
    then the call. *)
Definition branch (tool : string) (required : list string) (msg : string)
    (na : dict) : M W dict :=
  if existsb (fun p => negb (has_key p na)) required
  then ret (failure (txt msg))
  else call_tool tool na.

Definition dispatch_body (name : string) (args : dict) : M W dict :=
  na <- normalize_args name args ;;
  if String.eqb name "read_file" then
    branch "read_file" ["path"] "missing required parameter: path" na
  else if String.eqb name "write_file" then
    branch "write_file" ["path"; "content"]
           "missing required parameters: path, content" na
  else if String.eqb name "run_safe" then
    branch "run_safe" ["cmd"] "missing required parameter: cmd" na
  else if String.eqb name "restart_service" then
    branch "restart_service" ["name"] "missing required parameter: name" na
  else if String.eqb name "verify_regex" then
    branch "verify_regex" ["path"; "regex"]
           "missing required parameters: path, regex" na
  else if String.eqb name "set_config_kv" then
    branch "set_config_kv" ["path"; "key"; "value"]
           "missing required parameters: path, key, value" na
  else if String.eqb name "install_package" then
    branch "install_package" ["package"]
           "missing required parameter: package" na
  else if String.eqb name "remove_package" then
    branch "remove_package" ["package"]
           "missing required parameter: package" na
  else if String.eqb name "update_system" then
    branch "update_system" [] "" na
  else if String.eqb name "list_packages" then
    branch "list_packages" [] "" na
  else if String.eqb name "search_packages" then
    branch "search_packages" ["query"] "missing required parameter: query" na
  else if String.eqb name "check_service_status" then
    branch "check_service_status" ["name"]
           "missing required parameter: name" na
  else if String.eqb name "list_services" then
    branch "list_services" [] "" na
  else if String.eqb name "create_directory" then
    branch "create_directory" ["path"] "missing required parameter: path" na
  else if String.eqb name "change_permissions" then
    branch "change_permissions" ["path"; "mode"]
           "missing required parameters: path, mode" na
  else if String.eqb name "change_ownership" then
    branch "change_ownership" ["path"; "user"]
           "missing required parameters: path, user" na
  else ret (failure (txt "unknown tool " ++ txt name)).

Definition dispatch_tool (name : string) (args : dict) : M W dict :=
  try_except (dispatch_body name args)
    (fun e => ret (failure (txt "tool execution error: " ++ e))).

End Dispatch.

(** The operation names that [dispatch_tool] knows, with the parameters it
    requires of each. *)
Definition KNOWN_TOOLS : list (string * list string) := [
  ("read_file", ["path"]);
  ("write_file", ["path"; "content"]);
  ("run_safe", ["cmd"]);
  ("restart_service", ["name"]);
  ("verify_regex", ["path"; "regex"]);
  ("set_config_kv", ["path"; "key"; "value"]);
  ("install_package", ["package"]);
  ("remove_package", ["package"]);
  ("update_system", []);
  ("list_packages", []);
  ("search_packages", ["query"]);
  ("check_service_status", ["name"]);
  ("list_services", []);
  ("create_directory", ["path"]);
  ("change_permissions", ["path"; "mode"]);
  ("change_ownership", ["path"; "user"])
].

End Dispatcher.
Export Dispatcher.

(* ================================================================== *)
(** * multi_agent.py: [multi_agent_system] *)
(* ================================================================== *)

Module MultiAgent.

Section Loop.

(** Plans, execution transcripts and verification reports are produced and
    consumed by the agents only; the loop stores them and reads the
    [success] entry of a report. *)
Context {W Plan Execution Verification : Type}.

Record attempt : Type := Attempt {
  attempt_number : Z;
  a_plan : Plan;
  a_execution : Execution;
  a_verification : Verification
}.

(** The dictionary returned by [multi_agent_system]. *)
Record report : Type := Report {
  goal : str;
  success : bool;
  attempts : list attempt;
  final_attempt : Z;
  plan : Plan;
  execution : Execution;
  verification : Verification
}.

(** The three agents and [ensure_up] consult the language model and the
    container; [verified v] is [v.get('success', False)]. *)
Record agents : Type := Agents {
  ensure_up : M W unit;
  planner_agent : str -> option attempt -> M W Plan;
  executor_agent : Plan -> M W Execution;
  verifier_agent : str -> Execution -> M W Verification;
  verified : Verification -> bool
}.

Variable A : agents.

(** One pass through the body of the [for] loop, up to the stored attempt. *)
Definition run_attempt (goal : str) (attempt_num : Z)
    (previous_attempt : option attempt) : M W attempt :=
  plan <- planner_agent A goal previous_attempt ;;
  execution <- executor_agent A plan ;;
  verification <- verifier_agent A goal execution ;;
  ret (Attempt attempt_num plan execution verification).

(** The [for attempt_num in range(1, max_retries + 1)] loop, with [fuel]
    iterations left.  [inl] is the [return] inside the loop, [inr] the
    attempts gathered when the loop runs to its end. *)
Fixpoint retry_loop (goal : str) (max_retries : Z) (fuel : nat)
    (attempt_num : Z) (attempts : list attempt)
    (previous_attempt : option attempt) : M W (report + list attempt) :=
  match fuel with
  | O => ret (inr attempts)
  | S fuel' =>
      attempt <- run_attempt goal attempt_num previous_attempt ;;
      let attempts := attempts ++ [attempt] in
      if verified A (a_verification attempt) then
        ret (inl (Report goal true attempts attempt_num
                    (a_plan attempt) (a_execution attempt)
                    (a_verification attempt)))
      else
        retry_loop goal max_retries fuel' (attempt_num + 1) attempts
          (if attempt_num <? max_retries then Some attempt
           else previous_attempt)
  end.

Definition multi_agent_system (goal : str) (allow_insecure : bool)
    (max_retries : Z) : M W report :=
  _ <- set_allow_insecure allow_insecure ;;
  _ <- ensure_up A ;;
  r <- retry_loop goal max_retries (Z.to_nat max_retries) 1 [] None ;;
  match r with
  | inl rep => ret rep
  | inr attempts =>
      match List.last (map Some attempts) None with
      | Some last_attempt =>
          ret (Report goal false attempts max_retries
                 (a_plan last_attempt) (a_execution last_attempt)
                 (a_verification last_attempt))
      | None => raise (txt "list index out of range")
      end
  end.

(** ** Notions used to state the behaviour of the loop *)

(** A run of failed attempts: [failed_run goal n prev w l w'] says that
    from world [w], attempt number [n] and previous attempt [prev], the
    attempts [l] are made one after the other, each fails its verification
    and is handed to the next planning phase, and the world is [w']
    afterwards. *)
Inductive failed_run (goal : str) :
  Z -> option attempt -> world W -> list attempt -> world W -> Prop :=
| failed_nil n prev w : failed_run goal n prev w [] w
| failed_cons n prev w a w1 l w2 :
    run_attempt goal n prev w = (Ret a, w1) ->
    verified A (a_verification a) = false ->
    failed_run goal (n + 1) (Some a) w1 l w2 ->
    failed_run goal n prev w (a :: l) w2.

(** The attempt handed to the planner after the attempts [l]. *)
Definition last_attempt (l : list attempt) (prev : option attempt)
  : option attempt :=
  List.last (map Some l) prev.

End Loop.

Arguments attempt : clear implicits.
Arguments report : clear implicits.
Arguments agents : clear implicits.

(** A decision-maker stub for examples: the world counts the verifications
    made so far, and the verification numbered [k] is the first to
    succeed. *)
Definition stub_agents (k : nat) : agents nat unit unit bool := {|
  ensure_up := ret tt;
  planner_agent := fun _ _ => ret tt;
  executor_agent := fun _ => ret tt;
  verifier_agent := fun _ _ w =>
    (Ret (Nat.eqb (S (env w)) k), World (S (env w)) (trace w) (ALLOW_INSECURE w));
  verified := fun v => v
|}.

End MultiAgent.
Export MultiAgent.

(* ================================================================== *)
(** * ssh_client.py: [SSHConnectionPool] *)
(* ================================================================== *)

Module Pool.

(** An [SSHClient] object, by identity. *)
Definition conn := nat.

(** The fields of [SSHConfig] that identify an endpoint. *)
Record SSHConfig : Type := {
  host : str;
  port : Z;
  username : str
}.

(** [_pools] and [_active_connections] are [defaultdict]s: a missing key
    reads as the empty list and as zero.  The per-key locks make every
    operation below atomic. *)
Record SSHConnectionPool : Type := {
  max_connections_per_host : Z;
  _pools : gmap str (list conn);
  _active_connections : gmap str Z
}.

Definition new_pool (max_connections_per_host : Z) : SSHConnectionPool :=
  {| max_connections_per_host := max_connections_per_host;
     _pools := ∅;
     _active_connections := ∅ |}.

Definition idle (p : SSHConnectionPool) (key : str) : list conn :=
  default [] (_pools p !! key).

Definition active (p : SSHConnectionPool) (key : str) : Z :=
  default 0 (_active_connections p !! key).

Definition set_idle (key : str) (l : list conn) (p : SSHConnectionPool) :=
  {| max_connections_per_host := max_connections_per_host p;
     _pools := <[key := l]> (_pools p);
     _active_connections := _active_connections p |}.

Definition set_active (key : str) (n : Z) (p : SSHConnectionPool) :=
  {| max_connections_per_host := max_connections_per_host p;
     _pools := _pools p;
     _active_connections := <[key := n]> (_active_connections p) |}.

(** The [while self._pools[pool_key]] loop on the idle list seen from its
    end: connections are popped until a live one is found. *)
Fixpoint pop_alive (alive : conn -> bool) (stack : list conn)
  : option conn * list conn :=
  match stack with
  | [] => (None, [])
  | c :: rest => if alive c then (Some c, rest) else pop_alive alive rest
  end.

Definition _get_pool_key (config : SSHConfig) : str :=
  username config ++ txt "@" ++ host config ++ txt ":" ++ str_of_int (port config).

Definition exhausted (p : SSHConnectionPool) (key : str) : str :=
  txt "Connection pool exhausted for " ++ key ++ txt ". Max connections: "
  ++ str_of_int (max_connections_per_host p).

(** [alive] is what [_is_connection_alive] answers during this call and
    [created] what [_create_connection] does if it is called. *)
Definition get_connection (alive : conn -> bool) (created : exc conn)
    (config : SSHConfig) (p : SSHConnectionPool) : exc conn * SSHConnectionPool :=
  let pool_key := _get_pool_key config in
  match pop_alive alive (rev (idle p pool_key)) with
  | (Some c, rest) =>
      let p := set_idle pool_key (rev rest) p in
      (Ret c, set_active pool_key (active p pool_key + 1) p)
  | (None, rest) =>
      let p := set_idle pool_key (rev rest) p in
      if active p pool_key <? max_connections_per_host p then
        match created with
        | Ret c => (Ret c, set_active pool_key (active p pool_key + 1) p)
        | Raise e => (Raise e, p)
        end
      else (Raise (exhausted p pool_key), p)
  end.

Definition return_connection (alive : conn -> bool) (config : SSHConfig)
    (c : conn) (p : SSHConnectionPool) : SSHConnectionPool :=
  let pool_key := _get_pool_key config in
  let p := if alive c then set_idle pool_key (idle p pool_key ++ [c]) p else p in
  set_active pool_key (Z.max 0 (active p pool_key - 1)) p.

(** A call on the pool, with the answers of the outside world. *)
Inductive op : Type :=
| Acquire (alive : conn -> bool) (created : exc conn) (config : SSHConfig)
| Release (alive : conn -> bool) (config : SSHConfig) (c : conn).

Definition apply_op (o : op) (p : SSHConnectionPool) : SSHConnectionPool :=
  match o with
  | Acquire alive created config => snd (get_connection alive created config p)
  | Release alive config c => return_connection alive config c p
  end.

(** The pool after a sequence of calls. *)
Definition run_ops (ops : list op) (p : SSHConnectionPool) : SSHConnectionPool :=
  fold_left (fun q o => apply_op o q) ops p.

(** The outcomes of the acquires of a sequence of calls, in order. *)
Fixpoint acquire_results (ops : list op) (p : SSHConnectionPool)
  : list (exc conn) :=
  match ops with
  | [] => []
  | Acquire alive created config :: rest =>
      fst (get_connection alive created config p)
      :: acquire_results rest (snd (get_connection alive created config p))
  | o :: rest => acquire_results rest (apply_op o p)
  end.

(** ** Notions used to state the properties of the pool *)

(** The bound on every endpoint. *)
Definition pool_inv (p : SSHConnectionPool) : Prop :=
  forall key : str,
    Z.of_nat (List.length (idle p key)) + active p key
    <= max_connections_per_host p.

(** A sequence of calls in which a connection is returned to an endpoint
    only while that endpoint counts an active connection. *)
Fixpoint disciplined (ops : list op) (p : SSHConnectionPool) : Prop :=
  match ops with
  | [] => True
  | o :: rest =>
      match o with
      | Release _ config _ => 1 <= active p (_get_pool_key config)
      | Acquire _ _ _ => True
      end /\ disciplined rest (apply_op o p)
  end.

(** An endpoint and an outside answer for examples: every connection is
    alive. *)
Definition example_config : SSHConfig :=
  {| host := txt "10.0.0.5"; port := 22; username := txt "root" |}.

Definition always_alive : conn -> bool := fun _ => true.

End Pool.
Export Pool.

(* ================================================================== *)
(** * The rest of the connection pool and its manager
      (ssh_client.py) *)
(* ================================================================== *)

Module Manager.

(** [SSHConnectionPool.close_all]: a loop over the items of [_pools] that
    empties the idle list of each key and sets its count to zero.  Closing
    a connection changes nothing of the pool. *)
Definition close_all (p : SSHConnectionPool) : SSHConnectionPool :=
  map_fold (fun pool_key _ q => set_active pool_key 0 (set_idle pool_key [] q))
           p (_pools p).

(** One entry of [get_stats]. *)
Record stats : Type := Stats {
  st_pooled : Z;
  st_active : Z;
  st_total : Z
}.

(** [SSHConnectionPool.get_stats]: one entry for each key of [_pools]. *)
Definition get_stats (p : SSHConnectionPool) : gmap str stats :=
  map_imap (fun pool_key conns =>
              Some {| st_pooled := Z.of_nat (List.length conns);
                      st_active := active p pool_key;
                      st_total := Z.of_nat (List.length conns) + active p pool_key |})
           (_pools p).

Section Client.

Context {A : Type}.

(** [parse_ssh_url] rests on [urllib.parse.urlparse]; it is a parameter. *)
Variable parse_ssh_url : str -> SSHConfig.

(** The configuration [get_client] settles on: a non-empty [url] first,
    then the [config] argument, then the default of the manager. *)
Definition chosen_config (_default_config config : option SSHConfig)
    (url : option str) : option SSHConfig :=
  match url with
  | Some (c :: u) => Some (parse_ssh_url (c :: u))
  | _ => match config with
         | Some cfg => Some cfg
         | None => _default_config
         end
  end.

(** [SSHClientManager.get_client] around the body of its [with]
    statement.  [alive] and [created] are the answers of the outside
    world while the connection is fetched, [alive_after] the answer of
    [_is_connection_alive] when it is given back.  The [finally] clause
    runs whether the body returns or raises, and not at all when no
    connection was obtained; a client object is true in [if client:]. *)
Definition get_client (_default_config config : option SSHConfig)
    (url : option str) (alive : conn -> bool) (created : exc conn)
    (alive_after : conn -> bool)
    (body : conn -> SSHConnectionPool -> exc A * SSHConnectionPool)
    (p : SSHConnectionPool) : exc A * SSHConnectionPool :=
  match chosen_config _default_config config url with
  | None => (Raise (txt "No SSH configuration provided"), p)
  | Some cfg =>
      match get_connection alive created cfg p with
      | (Raise e, p) => (Raise e, p)
      | (Ret client, p) =>
          let (r, p) := body client p in
          (r, return_connection alive_after cfg client p)
      end
  end.

End Client.

(** ** Notions used to state the properties *)

(** The endpoint a call works on. *)
Definition op_key (o : op) : str :=
  match o with
  | Acquire _ _ config => _get_pool_key config
  | Release _ config _ => _get_pool_key config
  end.

(** Every endpoint that counts an active connection has an entry in
    [_pools]. *)
Definition tracked (p : SSHConnectionPool) : Prop :=
  forall key : str, active p key <> 0 -> is_Some (_pools p !! key).

End Manager.
Export Manager.

(* ================================================================== *)
(** * The file tools (tools.py) *)
(* ================================================================== *)

Module FileTools.

(** [path.replace('~/', '/root/', 1)] for a path that starts with [~/],
    and [/root] for [~]: the home directory of the container. *)
Definition expand_home (path : str) : option str :=
  if startswith (txt "~/") path then Some (txt "/root/" ++ skipn 2 path)
  else if str_eqb path (txt "~") then Some (txt "/root")
  else None.

(** The path that [tool_write_file] hands to [write_file_atomic]. *)
Definition write_target (path : str) : str :=
  match expand_home path with
  | Some p => p
  | None => if negb (startswith (txt "/") path) then txt "/root/" ++ path else path
  end.

Section Backend.

Context {W : Type} (O : outside W).

Definition found (content : str) : dict :=
  mkdict [("ok", VBool true); ("content", VStr content)].

(** The three places where [tool_read_file] looks for a relative path, one
    after the other, until one gives a non-empty content. *)
Definition read_relative (path : str) : M W dict :=
  content <- read_file O (txt "/root/" ++ path) ;;
  if nonempty content then ret (found content)
  else
    content <- read_file O (txt "/" ++ path) ;;
    if nonempty content then ret (found content)
    else
      content <- read_file O path ;;
      if nonempty content then ret (found content)
      else
        ret (mkdict [("ok", VBool false);
                     ("stderr",
                      VStr (txt "File not found in /root/, /, or current directory: "
                            ++ path))]).

(** In the handler [path] is the path as far as it has been rewritten
    when the exception is raised. *)
Definition tool_read_file (path : str) : M W dict :=
  match expand_home path with
  | Some p =>
      try_except (content <- read_file O p ;; ret (found content))
        (fun e => ret (failure (txt "Error reading file " ++ p ++ txt ": " ++ e)))
  | None =>
      try_except
        (if negb (startswith (txt "/") path) then read_relative path
         else content <- read_file O path ;; ret (found content))
        (fun e => ret (failure (txt "Error reading file " ++ path ++ txt ": " ++ e)))
  end.

Definition tool_write_file (path content : str) : M W dict :=
  let path := write_target path in
  try_except
    (_ <- write_file_atomic O path content ;;
     ret (mkdict [("ok", VBool true)]))
    (fun e => ret (failure (txt "Error writing file " ++ path ++ txt ": " ++ e))).

End Backend.

(** ** Notions used to state the properties *)

(** The calls to [docker_exec] made between two worlds. *)
Definition docker_calls {W} (w w' : world W) (cmds : list str) : Prop :=
  trace w' = trace w ++ map EvDockerExec cmds.

(** [empty_reads O places w w'] says that from world [w] the files at
    [places] are read one after the other with [read_file], that each read
    returns the empty string, and that the world is [w'] afterwards. *)
Inductive empty_reads {W} (O : outside W) :
  list str -> world W -> world W -> Prop :=
| empty_reads_nil w : empty_reads O [] w w
| empty_reads_cons place places w w1 w' :
    read_file O place w = (Ret [], w1) ->
    empty_reads O places w1 w' ->
    empty_reads O (place :: places) w w'.

End FileTools.
Export FileTools.

(* ================================================================== *)
(** * The catalogue of fixes (fixes.py) *)
(* ================================================================== *)

Module Fixes.

(** An entry of [FIXES]: the values under ["title"], ["key"] and
    ["value"]. *)
Record entry : Type := Entry {
  fix_title : str;
  fix_key : str;
  fix_value : str
}.

(** [FIXES], in the order of its items. *)
Definition FIXES : list (str * entry) :=
  [ (txt "ssh_disable_root",
     {| fix_title := txt "Disable root SSH login";
        fix_key := txt "PermitRootLogin";
        fix_value := txt "no" |});
    (txt "ssh_disable_password_auth",
     {| fix_title := txt "Disable SSH password authentication";
        fix_key := txt "PasswordAuthentication";
        fix_value := txt "no" |}) ].

(** [FIXES[fid]], [None] standing for the [KeyError]. *)
Fixpoint lookup_fix (fid : str) (catalogue : list (str * entry)) : option entry :=
  match catalogue with
  | [] => None
  | (k, f) :: rest => if str_eqb fid k then Some f else lookup_fix fid rest
  end.

(** [f in FIXES] *)
Definition known (fid : str) : bool :=
  match lookup_fix fid FIXES with Some _ => true | None => false end.

Definition TARGET_FILE : str := txt "/etc/ssh/sshd_config".

(** A function that returns or ends the process with [sys.exit], after
    printing on the standard error. *)
Inductive outcome (A : Type) : Type :=
| Returned (a : A)
| Exited (stderr : str) (status : Z).
Arguments Returned {A} a.
Arguments Exited {A} stderr status.

Definition resolve_fixes (selected : list str) : outcome (list str) :=
  if negb (nonempty selected) then Returned [txt "ssh_disable_root"]
  else if existsb (str_eqb (txt "all")) selected then Returned (map fst FIXES)
  else
    let bad := List.filter (fun f => negb (known f)) selected in
    if nonempty bad
    then Exited (txt "Unknown fix id(s): " ++ join (txt ", ") bad
                   ++ txt ". Known: " ++ join (txt ", ") (map fst FIXES)) 1
    else Returned selected.

Section Loops.

(** [str(e)] of the [KeyError] for a key: its [repr]. *)
Variable repr : str -> str.

(** The loop of [apply_fixes], from the content and the flag it has
    reached. *)
Fixpoint apply_loop (fix_ids : list str) (content : str) (changed_any : bool)
  : exc (str * bool) :=
  match fix_ids with
  | [] => Ret (content, changed_any)
  | fid :: rest =>
      match lookup_fix fid FIXES with
      | None => Raise (repr fid)
      | Some f =>
          let '(content, changed) :=
            set_config_line content (fix_key f) (fix_value f) in
          apply_loop rest content (changed_any || changed)
      end
  end.

(** The loop of [verify_fixes]: the list [failed]. *)
Fixpoint verify_loop (fix_ids : list str) (content : str) : exc (list str) :=
  match fix_ids with
  | [] => Ret []
  | fid :: rest =>
      match lookup_fix fid FIXES with
      | None => Raise (repr fid)
      | Some f =>
          match verify_loop rest content with
          | Ret failed =>
              Ret (if verify_config_line content (fix_key f) (fix_value f)
                   then failed else fid :: failed)
          | Raise e => Raise e
          end
      end
  end.

Context {W : Type} (O : outside W).

(** [unified_diff_str] rests on [difflib]; it is a parameter. *)
Variable unified_diff_str : str -> str -> str -> str.

Definition lift {A : Type} (r : exc A) : M W A := fun w => (r, w).

Definition reload_command : str :=
  txt "systemctl reload ssh || service ssh reload || true || /bin/true".

Definition apply_fixes (fix_ids : list str) : M W (bool * str) :=
  original <- read_file O TARGET_FILE ;;
  r <- lift (apply_loop fix_ids original false) ;;
  let '(content, changed_any) := r in
  if negb changed_any then ret (false, [])
  else
    let diff := unified_diff_str original content TARGET_FILE in
    _ <- write_file_atomic O TARGET_FILE content ;;
    _ <- docker_exec O reload_command ;;
    ret (true, diff).

Definition verify_fixes (fix_ids : list str) : M W (bool * list str) :=
  content <- read_file O TARGET_FILE ;;
  failed <- lift (verify_loop fix_ids content) ;;
  ret ((List.length failed =? 0)%nat, failed).

End Loops.

(** ** Notions used to state the properties *)

(** The line a fix asks for. *)
Definition canonical_line (f : entry) : str := kv_line (fix_key f) (fix_value f).

(** The fix is in place in a document: its line is there, and every line
    that carries its key is that line. *)
Definition settled (f : entry) (content : str) : Prop :=
  In (canonical_line f) (splitlines content) /\
  Forall (fun l => l = canonical_line f
                   \/ re_match (config_pat (fix_key f)) l = false)
         (splitlines content).

End Fixes.
Export Fixes.

(* ================================================================== *)
(** * The container guard (docker_utils.py) *)
(* ================================================================== *)

Module Docker.

Definition CONTAINER : str := txt "nomanai-sbx".

Section Shell.

Context {W : Type}.

(** [subprocess.run(cmd, shell=True, ...)]: the return code, the standard
    output and the standard error, from the state of the host. *)
Variable run : str -> W -> (Z * str * str) * W.

(** [shlex.quote] *)
Variable quote : str -> str.

(** The state of the host and the commands handed to the shell so far. *)
Definition Sh (A : Type) : Type := W * list str -> A * (W * list str).

Definition sh (cmd : str) : Sh (Z * str * str) :=
  fun s => let '(r, e') := run cmd (fst s) in (r, (e', snd s ++ [cmd])).

Definition docker (args : str) : Sh (Z * str * str) :=
  sh (txt "docker " ++ args).

Definition PS : str :=
  txt "ps --filter name=" ++ CONTAINER ++ txt " --format '{{.ID}}'".

Definition INSPECT_STATUS : str :=
  txt "inspect " ++ CONTAINER ++ txt " --format='{{.State.Status}}'".

Definition docker_running : Sh bool :=
  fun s =>
    let '((rc, out, _), s) := docker PS s in
    if (rc =? 0) && negb (str_eqb (strip out) []) then
      let '((rc_status, status, _), s) := docker INSPECT_STATUS s in
      if rc_status =? 0 then (str_eqb (strip status) (txt "running"), s)
      else (false, s)
    else (false, s).

Definition NOT_RUNNING : str :=
  txt "Container " ++ CONTAINER
  ++ txt " is not running. Use 'nomanai.py up' to start it.".

Definition EXEC (cmd : str) : str :=
  txt "exec -u root " ++ CONTAINER ++ txt " bash -c " ++ quote cmd.

Definition docker_exec (cmd : str) : Sh (Z * str * str) :=
  fun s =>
    let '(running, s) := docker_running s in
    if negb running then ((1, [], NOT_RUNNING), s)
    else docker (EXEC cmd) s.

Definition down : Sh unit :=
  fun s => let '(_, s) := docker (txt "rm -f " ++ CONTAINER) s in (tt, s).

(** The container as the backend of the tools: [docker_exec] and the
    [execute] of the default executor, which is [docker_exec] too, go
    through the guard.  [now] is the clock of the host; [b64], [dir] and
    [call] are as in [outside]. *)
Definition container_backend (now : W -> Z * W) (b64 dir : str -> str)
    (call : string -> dict -> W * list str -> exc dict * (W * list str))
  : outside (W * list str) := {|
  execute_oracle := fun cmd s =>
    let '(r, s') := docker_exec cmd s in (Ret r, s');
  docker_oracle := fun cmd s =>
    let '(r, s') := docker_exec cmd s in (Ret r, s');
  clock := fun s => let '(t, e') := now (fst s) in (t, (e', snd s));
  shlex_quote := quote;
  b64encode := b64;
  dirname := dir;
  unmodelled_call := call
|}.

(** [docker ps] lists the container. *)
Definition listed (e : W) : bool :=
  let '(rc, out, _) := fst (run (txt "docker " ++ PS) e) in
  (rc =? 0) && negb (str_eqb (strip out) []).

End Shell.

End Docker.

(** ** Notions used to state the properties of the normalisation *)

Module DispatcherNotions.

(** The parameter names that [dispatch_tool] renames. *)
Definition ALIASES : list string :=
  ["service_name"; "file_path"; "package_names"; "packages"; "command";
   "permissions"; "regex_pattern"; "package_name"].

End DispatcherNotions.
Export DispatcherNotions.

(* ================================================================== *)
(** * The verdict of the verifier (multi_agent.py) *)
(* ================================================================== *)

Module Verifier.

Definition success_keywords : list str :=
  map txt ["success"; "achieved"; "verified"; "complete"; "correct"; "pass"].

Definition failure_keywords : list str :=
  map txt ["fail"; "error"; "missing"; "incorrect"; "not achieved"; "not met";
           "not created"; "not generated"; "empty"; "no content"].

(** [any(kw in conclusion_lower for kw in success_keywords) and not
    any(kw in conclusion_lower for kw in failure_keywords)] *)
Definition verdict (conclusion : str) : bool :=
  let conclusion_lower := lower conclusion in
  existsb (fun kw => contains kw conclusion_lower) success_keywords
  && negb (existsb (fun kw => contains kw conclusion_lower) failure_keywords).

Section Report.

(** The entries of [failed_steps] and of [verification_results] are
    built and read elsewhere. *)
Context {FailedStep Check : Type}.

(** The dictionary under ["failure_analysis"]. *)
Record failure_analysis : Type := FailureAnalysis {
  fa_conclusion : str;
  failed_steps : list FailedStep;
  verification_checks : list Check
}.

(** The dictionary that [verifier_agent] returns; [None] is Python's
    [None]. *)
Record verifier_result : Type := VerifierResult {
  v_success : bool;
  v_conclusion : str;
  checks : list Check;
  v_failure_analysis : option failure_analysis
}.

(** The branch of [verifier_agent] for a reply without tool calls:
    [content] is [msg.content], [None] or a string. *)
Definition final_verification (content : option str)
    (failed_steps : list FailedStep) (verification_results : list Check)
  : verifier_result :=
  let conclusion :=
    match content with
    | Some (c :: s) => c :: s
    | _ => txt "Verification incomplete"
    end in
  let success := verdict conclusion in
  {| v_success := success;
     v_conclusion := conclusion;
     checks := verification_results;
     v_failure_analysis :=
       if negb success
       then Some (FailureAnalysis conclusion failed_steps verification_results)
       else None |}.

(** What [verifier_agent] returns when its loop runs out. *)
Definition exhausted_verification (failed_steps : list FailedStep)
    (verification_results : list Check) : verifier_result :=
  {| v_success := false;
     v_conclusion := txt "Verification incomplete - max iterations reached";
     checks := verification_results;
     v_failure_analysis :=
       Some (FailureAnalysis
               (txt "Verification incomplete - max iterations reached")
               failed_steps verification_results) |}.

End Report.

Arguments failure_analysis : clear implicits.
Arguments verifier_result : clear implicits.

End Verifier.
Export Verifier.

(* ================================================================== *)
(** * Facts about text *)
(* ================================================================== *)

Module TextFacts.

Lemma ascii_eqb_eq (a b : ascii) : ascii_eqb a b = true <-> a = b.
Proof. apply Ascii.eqb_eq. Qed.

Lemma ascii_eqb_refl (a : ascii) : ascii_eqb a a = true.
Proof. apply Ascii.eqb_refl. Qed.

Lemma ascii_eqb_neq (a b : ascii) : ascii_eqb a b = false <-> a <> b.
Proof. apply Ascii.eqb_neq. Qed.

Lemma str_eqb_eq (a b : str) : str_eqb a b = true <-> a = b.
Proof.
  revert b. induction a as [|x a IH]; intros [|y b]; simpl; split;
    try congruence; try discriminate.
  - intros H. apply andb_true_iff in H as [Hx Hab].
    apply ascii_eqb_eq in Hx. apply IH in Hab. congruence.
  - intros H. injection H as -> ->.
    rewrite ascii_eqb_refl. simpl. now apply IH.
Qed.

Lemma str_eqb_refl (a : str) : str_eqb a a = true.
Proof. now apply str_eqb_eq. Qed.

Lemma str_eqb_neq (a b : str) : str_eqb a b = false <-> a <> b.
Proof.
  split.
  - intros H Hab. apply str_eqb_eq in Hab. congruence.
  - intros H. destruct (str_eqb a b) eqn:E; [|reflexivity].
    apply str_eqb_eq in E. contradiction.
Qed.

Lemma startswith_spec (p s : str) :
  startswith p s = true <-> exists suffix, s = p ++ suffix.
Proof.
  revert s. induction p as [|x p IH]; intros s; simpl.
  - split; [intros _; now exists s | reflexivity].
  - destruct s as [|y s].
    + split; [discriminate | intros [t Ht]; discriminate].
    + rewrite andb_true_iff, ascii_eqb_eq, IH. split.
      * intros [-> [t ->]]. now exists t.
      * intros [t Ht]. injection Ht as -> ->. split; [reflexivity | now exists t].
Qed.

Lemma endswith_spec (s p : str) :
  endswith s p = true <-> exists prefix, s = prefix ++ p.
Proof.
  unfold endswith. rewrite startswith_spec. split.
  - intros [t Ht]. exists (rev t).
    rewrite <- (rev_involutive s), Ht, rev_app_distr, rev_involutive.
    reflexivity.
  - intros [t ->]. exists (rev t). now rewrite rev_app_distr.
Qed.

Lemma endswith_app (pre s p : str) :
  endswith s p = true -> endswith (pre ++ s) p = true.
Proof.
  rewrite !endswith_spec. intros [t ->]. exists (pre ++ t).
  now rewrite app_assoc.
Qed.

Lemma one_trailing_newline_snoc (pre l : str) :
  l <> [] -> endswith l [LF] = false ->
  one_trailing_newline (pre ++ l ++ [LF]).
Proof.
  intros Hne Hl. split.
  - apply endswith_spec. exists (pre ++ l). now rewrite app_assoc.
  - unfold endswith in *. rewrite !rev_app_distr. simpl.
    destruct (rev l) as [|c r] eqn:E.
    + apply (f_equal (@rev ascii)) in E. rewrite rev_involutive in E.
      simpl in E. contradiction.
    + simpl in *. rewrite ?ascii_eqb_refl. simpl.
      destruct (ascii_eqb LF c); [discriminate | reflexivity].
Qed.

Lemma one_trailing_newline_keep (pre y : str) (c : ascii) :
  c <> LF -> one_trailing_newline (pre ++ y ++ [c; LF]).
Proof.
  intros Hc. split.
  - apply endswith_spec. exists (pre ++ y ++ [c]).
    now rewrite <- !app_assoc.
  - unfold endswith. rewrite !rev_app_distr. simpl.
    rewrite ?ascii_eqb_refl. simpl.
    destruct (ascii_eqb LF c) eqn:E; [|reflexivity].
    apply ascii_eqb_eq in E. congruence.
Qed.

Lemma join_last (sep : str) (parts : list str) :
  parts <> [] -> exists pre, join sep parts = pre ++ List.last parts [].
Proof.
  induction parts as [|p rest IH]; [congruence|]. intros _.
  destruct rest as [|q rest].
  - now exists [].
  - destruct IH as [pre Hpre]; [congruence|].
    exists (p ++ sep ++ pre).
    change (join sep (p :: q :: rest)) with (p ++ sep ++ join sep (q :: rest)).
    rewrite Hpre. change (List.last (p :: q :: rest) []) with (List.last (q :: rest) []).
    now rewrite <- !app_assoc.
Qed.

Lemma last_snoc {A} (l : list A) (x d : A) : List.last (l ++ [x]) d = x.
Proof. apply List.last_last. Qed.

Lemma last_default {A} (l : list A) (d d' : A) :
  l <> [] -> List.last l d = List.last l d'.
Proof.
  induction l as [|x l IH]; [congruence|]. intros _.
  destruct l as [|y l]; [reflexivity|]. apply IH. discriminate.
Qed.

(** No line produced by [splitlines] contains a line boundary. *)
Lemma splitlines_go_no_break (cur s : str) :
  Forall (fun c => is_linebreak c = false) cur ->
  Forall (Forall (fun c => is_linebreak c = false)) (splitlines_go cur s).
Proof.
  assert (Hrev : forall l : str,
             Forall (fun c => is_linebreak c = false) l ->
             Forall (fun c => is_linebreak c = false) (rev l))
    by (intros l Hl; now apply List.Forall_rev).
  revert cur.
  induction s as [s IH] using (induction_ltof1 _ (@List.length ascii)).
  unfold ltof in IH. intros cur Hcur.
  destruct s as [|c s']; simpl.
  - destruct cur; constructor; [now apply Hrev | constructor].
  - destruct (is_linebreak c) eqn:Ec.
    + destruct (ascii_eqb c CR).
      * destruct s' as [|d s''].
        -- constructor; [now apply Hrev | constructor].
        -- destruct (ascii_eqb d LF).
           ++ constructor; [now apply Hrev|]. apply IH; [simpl; lia | constructor].
           ++ constructor; [now apply Hrev|]. apply IH; [simpl; lia | constructor].
      * constructor; [now apply Hrev|]. apply IH; [simpl; lia | constructor].
    + apply IH; [simpl; lia|]. now constructor.
Qed.

Lemma splitlines_no_break (s : str) :
  Forall (Forall (fun c => is_linebreak c = false)) (splitlines s).
Proof. apply splitlines_go_no_break. constructor. Qed.

Lemma no_break_not_endswith_LF (l : str) :
  Forall (fun c => is_linebreak c = false) l -> endswith l [LF] = false.
Proof.
  intros Hl. destruct (endswith l [LF]) eqn:E; [|reflexivity].
  apply endswith_spec in E as [pre ->].
  apply Forall_app in Hl as [_ Hl]. inversion Hl as [|? ? Hc _]; subst.
  discriminate Hc.
Qed.

End TextFacts.
Export TextFacts.

(* ================================================================== *)
(** * Facts about the configuration-line engine *)
(* ================================================================== *)

Module FileOpsFacts.

Lemma kv_line_nonempty (key value : str) : kv_line key value <> [].
Proof. unfold kv_line. destruct key; discriminate. Qed.

(** What the loop over the lines leaves behind. *)
Lemma rewrite_lines_shape (pat : regex) (kv : str) (lines : list str) :
  (snd (rewrite_lines pat kv lines) = false ->
   fst (rewrite_lines pat kv lines) = lines) /\
  (snd (rewrite_lines pat kv lines) = true ->
   lines <> [] /\
   fst (rewrite_lines pat kv lines) <> [] /\
   (List.last (fst (rewrite_lines pat kv lines)) [] = kv \/
    List.last (fst (rewrite_lines pat kv lines)) [] = List.last lines [])).
Proof.
  induction lines as [|line rest IH]; simpl.
  - split; [reflexivity | discriminate].
  - destruct (rewrite_lines pat kv rest) as [out found] eqn:E. simpl in IH.
    destruct IH as [IHf IHt].
    destruct (re_match pat line); simpl.
    + split; [discriminate|]. intros _.
      split; [discriminate|]. split; [discriminate|].
      destruct found.
      * destruct (IHt eq_refl) as (Hrest & Hout & Hlast).
        destruct out as [|o out']; [congruence|].
        destruct rest as [|r rest']; [congruence|]. exact Hlast.
      * rewrite (IHf eq_refl). destruct rest as [|r rest']; [now left | now right].
    + split.
      * intros Hf. now rewrite (IHf Hf).
      * intros Ht. split; [discriminate|]. split; [discriminate|].
        destruct (IHt Ht) as (Hrest & Hout & Hlast).
        destruct out as [|o out']; [congruence|].
        destruct rest as [|r rest']; [congruence|]. exact Hlast.
Qed.

(** The lines written out are never empty, and the last of them is the
    canonical line or the last line of the document. *)
Lemma written_lines_last (current key value : str) :
  let r := rewrite_lines (config_pat key) (kv_line key value) (splitlines current) in
  let out := if snd r then fst r else fst r ++ [kv_line key value] in
  out <> [] /\
  (List.last out [] = kv_line key value \/
   (splitlines current <> [] /\
    List.last out [] = List.last (splitlines current) [])).
Proof.
  intros r out. subst out.
  pose proof (rewrite_lines_shape (config_pat key) (kv_line key value)
                (splitlines current)) as [Hf Ht].
  fold r in Hf, Ht. destruct (snd r).
  - destruct (Ht eq_refl) as (Hlines & Hout & [Hl | Hl]).
    + split; [exact Hout | now left].
    + split; [exact Hout | right; now split].
  - split.
    + destruct (fst r); discriminate.
    + left. apply last_snoc.
Qed.

Lemma set_config_line_unfold (current key value : str) :
  let r := rewrite_lines (config_pat key) (kv_line key value) (splitlines current) in
  let out := if snd r then fst r else fst r ++ [kv_line key value] in
  set_config_line current key value =
  (join [LF] out ++
     (if negb (nonempty out && endswith (List.last out []) [LF])
      then [LF] else []),
   negb (str_eqb
           (join [LF] out ++
              (if negb (nonempty out && endswith (List.last out []) [LF])
               then [LF] else []))
           (if endswith current [LF] then current
            else current ++ (if nonempty current then [LF] else [])))).
Proof.
  intros r out. subst r out. unfold set_config_line.
  destruct (rewrite_lines (config_pat key) (kv_line key value) (splitlines current))
    as [out0 found]. reflexivity.
Qed.

Lemma normalize_newline_code (current : str) :
  (if endswith current [LF] then current
   else current ++ (if nonempty current then [LF] else []))
  = normalize_newline current.
Proof.
  destruct current as [|c s]; [reflexivity|].
  unfold normalize_newline. now destruct (endswith (c :: s) [LF]).
Qed.

(** A canonical line that ends with a newline ends with exactly one,
    unless the value ends with two. *)
Lemma kv_line_trailing (pre key value : str) :
  endswith (kv_line key value) [LF] = true ->
  endswith value [LF; LF] = false ->
  one_trailing_newline (pre ++ kv_line key value).
Proof.
  intros Hkv Hvalue. unfold kv_line in *.
  destruct (rev value) as [|c r] eqn:Er.
  - apply (f_equal (@rev ascii)) in Er. rewrite rev_involutive in Er.
    simpl in Er. subst value.
    unfold endswith in Hkv. rewrite rev_app_distr in Hkv. discriminate Hkv.
  - assert (Hv : value = rev r ++ [c]).
    { apply (f_equal (@rev ascii)) in Er. now rewrite rev_involutive in Er. }
    subst value. clear Er.
    assert (c = LF) as ->.
    { unfold endswith in Hkv. rewrite !rev_app_distr in Hkv. simpl in Hkv.
      apply andb_true_iff in Hkv as [Hc _].
      apply ascii_eqb_eq in Hc. congruence. }
    destruct r as [|d r'].
    + simpl. apply (one_trailing_newline_keep pre key SP). discriminate.
    + assert (d <> LF) as Hd.
      { intros ->. unfold endswith in Hvalue. simpl in Hvalue.
        rewrite !rev_app_distr in Hvalue. simpl in Hvalue.
        rewrite ?ascii_eqb_refl in Hvalue. discriminate Hvalue. }
      simpl. replace (key ++ SP :: (rev r' ++ [d]) ++ [LF])
        with ((key ++ SP :: rev r') ++ [d; LF])
        by (rewrite <- ?app_assoc; simpl; now rewrite <- ?app_assoc).
      now apply one_trailing_newline_keep.
Qed.

Lemma blank_line_last (doc : str) :
  ends_with_blank_line doc = false -> splitlines doc <> [] ->
  List.last (splitlines doc) [] <> [].
Proof.
  unfold ends_with_blank_line. intros Hb Hne Hlast.
  destruct (splitlines doc) as [|l ls] using rev_ind; [congruence|].
  rewrite rev_app_distr in Hb. simpl in Hb.
  rewrite last_snoc in Hlast. subst l. discriminate Hb.
Qed.

End FileOpsFacts.
Export FileOpsFacts.

Module ConfigLineNewline.

(** C3 (as amended).  For every document, key and value, the content
    returned by [set_config_line] ends with a newline; it ends with exactly
    one newline whenever the document does not end with a blank line and the
    value does not end with two newlines; and the returned flag is true
    exactly when the new content differs from the old content after
    trailing-newline normalisation. *)
Theorem set_config_line_trailing_newline (current key value : str) :
  endswith (fst (set_config_line current key value)) [LF] = true /\
  (ends_with_blank_line current = false ->
   endswith value [LF; LF] = false ->
   one_trailing_newline (fst (set_config_line current key value))) /\
  (snd (set_config_line current key value) = true <->
   fst (set_config_line current key value) <> normalize_newline current).
Proof.
  rewrite set_config_line_unfold. simpl fst. simpl snd.
  rewrite normalize_newline_code.
  pose proof (written_lines_last current key value) as Hlast. simpl in Hlast.
  set (out := if snd (rewrite_lines (config_pat key) (kv_line key value)
                        (splitlines current))
              then fst (rewrite_lines (config_pat key) (kv_line key value)
                          (splitlines current))
              else fst (rewrite_lines (config_pat key) (kv_line key value)
                          (splitlines current)) ++ [kv_line key value]) in *.
  destruct Hlast as [Hne Hlast].
  destruct (join_last [LF] out Hne) as [pre Hjoin].
  assert (Hnonempty : nonempty out = true) by (destruct out; [congruence | reflexivity]).
  rewrite Hnonempty, Hjoin. simpl andb.
  split; [|split].
  - destruct (endswith (List.last out []) [LF]) eqn:E; simpl.
    + rewrite app_nil_r. now apply endswith_app.
    + apply endswith_spec. now exists (pre ++ List.last out []).
  - intros Hblank Hvalue.
    destruct Hlast as [Hkv | [Hlines Hdoc]].
    + rewrite Hkv. destruct (endswith (kv_line key value) [LF]) eqn:E; simpl.
      * rewrite app_nil_r. now apply kv_line_trailing.
      * rewrite <- app_assoc.
        apply one_trailing_newline_snoc; [apply kv_line_nonempty | exact E].
    + rewrite Hdoc.
      assert (Hnb : endswith (List.last (splitlines current) []) [LF] = false).
      { apply no_break_not_endswith_LF.
        pose proof (splitlines_no_break current) as Hall.
        destruct (splitlines current) as [|l ls] using rev_ind; [congruence|].
        rewrite last_snoc. apply Forall_app in Hall as [_ Hall].
        now inversion Hall. }
      rewrite Hnb. simpl. rewrite <- app_assoc.
      apply one_trailing_newline_snoc; [now apply blank_line_last | exact Hnb].
  - rewrite negb_true_iff. apply str_eqb_neq.
Qed.

(** The amended property at the scenario of the specification. *)
Lemma set_config_line_trailing_newline_witness :
  one_trailing_newline
    (fst (set_config_line (txt "PermitRootLogin yes" ++ [LF])
            (txt "PermitRootLogin") (txt "no"))).
Proof.
  apply (proj1 (proj2 (set_config_line_trailing_newline
                         (txt "PermitRootLogin yes" ++ [LF])
                         (txt "PermitRootLogin") (txt "no"))));
    reflexivity.
Defined.

(** C3 (as stated) fails: a document that ends with a blank line keeps it,
    so the new content ends with two newlines. *)
Lemma set_config_line_two_trailing_newlines :
  set_config_line (txt "PermitRootLogin no" ++ [LF; LF])
    (txt "PermitRootLogin") (txt "no")
  = (txt "PermitRootLogin no" ++ [LF; LF], false) /\
  ~ one_trailing_newline
      (fst (set_config_line (txt "PermitRootLogin no" ++ [LF; LF])
              (txt "PermitRootLogin") (txt "no"))).
Proof.
  split; [vm_compute; reflexivity|].
  intros [_ H]. vm_compute in H. discriminate H.
Qed.

End ConfigLineNewline.

Module ConfigLineIdempotence.

(** [splitlines] undoes the joining of lines that hold no line boundary. *)
Lemma splitlines_go_line (cur l rest : str) :
  no_break l ->
  splitlines_go cur (l ++ LF :: rest) = (rev cur ++ l) :: splitlines_go [] rest.
Proof.
  revert cur. induction l as [|c l IH]; intros cur Hl; simpl.
  - rewrite app_nil_r. reflexivity.
  - inversion Hl as [|? ? Hc Hl']; subst. rewrite Hc.
    rewrite IH by assumption. simpl. now rewrite <- app_assoc.
Qed.

Lemma splitlines_join (out : list str) :
  Forall no_break out -> out <> [] ->
  splitlines (join [LF] out ++ [LF]) = out.
Proof.
  unfold splitlines. induction out as [|l rest IH]; [congruence|].
  intros Hall _. inversion Hall as [|? ? Hl Hrest]; subst.
  destruct rest as [|m rest'].
  - simpl. rewrite splitlines_go_line by assumption. reflexivity.
  - change (join [LF] (l :: m :: rest')) with (l ++ [LF] ++ join [LF] (m :: rest')).
    rewrite <- !app_assoc. simpl.
    rewrite splitlines_go_line by assumption. simpl.
    f_equal. apply IH; [assumption | discriminate].
Qed.

(** Lines that are canonical or that the pattern does not match are left as
    they are by the loop. *)
Lemma rewrite_lines_fixed (pat : regex) (kv : str) (out : list str) :
  re_match pat kv = true ->
  Forall (fun l => l = kv \/ re_match pat l = false) out ->
  fst (rewrite_lines pat kv out) = out /\
  (In kv out -> snd (rewrite_lines pat kv out) = true).
Proof.
  intros Hkv. induction out as [|l rest IH]; intros Hall; simpl.
  - split; [reflexivity | contradiction].
  - inversion Hall as [|? ? Hl Hrest]; subst.
    destruct (IH Hrest) as [IHout IHfound].
    destruct (rewrite_lines pat kv rest) as [out' found] eqn:E. simpl in *.
    destruct Hl as [-> | Hl].
    + rewrite Hkv. simpl. subst out'. split; [reflexivity | reflexivity].
    + rewrite Hl. simpl. subst out'. split; [reflexivity|].
      intros [-> | Hin]; [congruence | now apply IHfound].
Qed.

(** After the loop every line is canonical or unmatched. *)
Lemma rewrite_lines_result (pat : regex) (kv : str) (lines : list str) :
  Forall (fun l => l = kv \/ re_match pat l = false)
         (fst (rewrite_lines pat kv lines)) /\
  (snd (rewrite_lines pat kv lines) = true ->
   In kv (fst (rewrite_lines pat kv lines))) /\
  (forall P : str -> Prop, P kv -> Forall P lines ->
   Forall P (fst (rewrite_lines pat kv lines))).
Proof.
  induction lines as [|l rest IH]; simpl.
  - split; [constructor | split; [discriminate | intros; constructor]].
  - destruct (rewrite_lines pat kv rest) as [out found] eqn:E. simpl in IH.
    destruct IH as (IHall & IHin & IHP).
    destruct (re_match pat l) eqn:El; simpl.
    + split; [constructor; [now left | exact IHall]|].
      split; [intros _; now left|].
      intros P HP Hall. inversion Hall; subst. constructor; [exact HP | now apply IHP].
    + split; [constructor; [now right | exact IHall]|].
      split; [intros Hf; right; now apply IHin|].
      intros P HP Hall. inversion Hall; subst. constructor; [assumption | now apply IHP].
Qed.

(** Idempotence where the pattern recognises the canonical line and neither
    key nor value holds a line boundary. *)
Lemma set_config_line_idempotent (current key value : str) :
  no_break key -> no_break value ->
  re_match (config_pat key) (kv_line key value) = true ->
  set_config_line (fst (set_config_line current key value)) key value
  = (fst (set_config_line current key value), false).
Proof.
  intros Hkey Hvalue Hmatch.
  assert (Hkv : no_break (kv_line key value)).
  { unfold kv_line, no_break. rewrite !Forall_app. repeat split; try assumption.
    constructor; [reflexivity | constructor]. }
  rewrite (set_config_line_unfold current). simpl fst.
  pose proof (written_lines_last current key value) as Hlast. simpl in Hlast.
  pose proof (rewrite_lines_result (config_pat key) (kv_line key value)
                (splitlines current)) as (Hall & Hin & HP).
  specialize (HP no_break Hkv (splitlines_no_break current)).
  set (r := rewrite_lines (config_pat key) (kv_line key value) (splitlines current)) in *.
  set (out := if snd r then fst r else fst r ++ [kv_line key value]) in *.
  destruct Hlast as [Hne Hlast].
  assert (Hout_nb : Forall no_break out).
  { subst out. destruct (snd r); [exact HP|].
    apply Forall_app. split; [exact HP | now constructor]. }
  assert (Hout_fix : Forall (fun l => l = kv_line key value
                                      \/ re_match (config_pat key) l = false) out).
  { subst out. destruct (snd r) eqn:Er; [exact Hall|].
    apply Forall_app. split; [exact Hall | constructor; [now left | constructor]]. }
  assert (Hout_in : In (kv_line key value) out).
  { subst out. destruct (snd r) eqn:Er; [now apply Hin|].
    apply in_or_app. right. now left. }
  assert (Hnl : endswith (List.last out []) [LF] = false).
  { apply no_break_not_endswith_LF.
    destruct out as [|l ls] using rev_ind; [congruence|].
    rewrite last_snoc. apply Forall_app in Hout_nb as [_ Hl]. now inversion Hl. }
  rewrite Hnl, andb_false_r. simpl negb. cbv iota.
  rewrite set_config_line_unfold. simpl fst.
  rewrite (splitlines_join out Hout_nb Hne).
  destruct (rewrite_lines_fixed (config_pat key) (kv_line key value) out Hmatch Hout_fix)
    as [Hfst Hsnd].
  rewrite (Hsnd Hout_in), Hfst. rewrite Hnl, andb_false_r. simpl negb. cbv iota.
  f_equal.
  assert (Hends : endswith (join [LF] out ++ [LF]) [LF] = true)
    by (apply endswith_spec; now exists (join [LF] out)).
  rewrite Hends. now rewrite str_eqb_refl.
Qed.

(** A literal matches itself, whatever the case. *)
Lemma lit_i_self (key rest : str) (k : cont) (prev : option ascii) :
  rmatch (lit_i key) k prev (key ++ rest)
  = k (List.last (map Some key) prev) rest.
Proof.
  unfold lit_i. revert prev. induction key as [|c key IH]; intros prev; simpl.
  - reflexivity.
  - rewrite ascii_eqb_refl. simpl. rewrite IH.
    destruct key as [|a key]; [reflexivity|].
    f_equal. apply last_default. discriminate.
Qed.

Lemma star_go_skip (fuel : nat) (body : cont -> cont) (k : cont)
    (prev : option ascii) (s : str) :
  k prev s = true -> star_go fuel body k prev s = true.
Proof. intros H. destruct fuel; simpl; now rewrite H. Qed.

(** The pattern of [set_config_line] recognises the canonical line of a key
    that ends with a word character. *)
Lemma config_pat_canonical (key value : str) (c : ascii) :
  is_word c = true ->
  re_match (config_pat (key ++ [c])) (kv_line (key ++ [c]) value) = true.
Proof.
  intros Hc. unfold re_match, config_pat, kv_line, ws0, Opt.
  cbn [seq rmatch]. apply star_go_skip.
  apply orb_true_iff. right. apply star_go_skip.
  rewrite lit_i_self. rewrite map_app. cbn [map]. rewrite last_snoc.
  cbn [app next_char word_opt accept]. rewrite Hc. reflexivity.
Qed.

(** Idempotence for keys that end with a word character. *)
Lemma set_config_line_idempotent_word_key (current key value : str) (c : ascii) :
  no_break (key ++ [c]) -> no_break value -> is_word c = true ->
  set_config_line (fst (set_config_line current (key ++ [c]) value))
    (key ++ [c]) value
  = (fst (set_config_line current (key ++ [c]) value), false).
Proof.
  intros Hkey Hvalue Hc.
  apply set_config_line_idempotent; [assumption | assumption |].
  now apply config_pat_canonical.
Qed.

(** The scenario of the specification. *)
Example set_config_line_scenario :
  set_config_line (txt "PermitRootLogin yes" ++ [LF])
    (txt "PermitRootLogin") (txt "no")
  = (txt "PermitRootLogin no" ++ [LF], true) /\
  set_config_line (txt "PermitRootLogin no" ++ [LF])
    (txt "PermitRootLogin") (txt "no")
  = (txt "PermitRootLogin no" ++ [LF], false).
Proof. split; vm_compute; reflexivity. Qed.

(** C2.  [set_config_line] is not idempotent for a key that does not end
    with a word character: the pattern [^\s*#?\s*KEY\b] then does not
    recognise the line that the first application wrote, and the second
    application appends the line again and reports a change. *)
Theorem set_config_line_second_application_changes :
  set_config_line [] (txt "*") (txt "hard nofile 4096")
  = (txt "* hard nofile 4096" ++ [LF], true) /\
  set_config_line (txt "* hard nofile 4096" ++ [LF])
    (txt "*") (txt "hard nofile 4096")
  = (txt "* hard nofile 4096" ++ [LF] ++ txt "* hard nofile 4096" ++ [LF], true).
Proof. split; vm_compute; reflexivity. Qed.

End ConfigLineIdempotence.

(* ================================================================== *)
(** * Facts about matching *)
(* ================================================================== *)

Module RegexFacts.

Section Extension.

Variable rest : str.
Variable R : option ascii -> option ascii -> Prop.
Hypothesis R_some : forall c, R (Some c) (Some c).

Lemma one_char_extends (p : ascii -> bool) (k k' : cont) :
  extends rest R k k' ->
  forall prev prev' s,
    one_char p k prev s = true -> one_char p k' prev' (s ++ rest) = true.
Proof using R_some.
  intros Hk prev prev' [|c s]; simpl; [discriminate|].
  intros H. apply andb_true_iff in H as [Hp Hc]. rewrite Hp. simpl.
  now apply (Hk (Some c) (Some c) s).
Qed.

Lemma star_go_extends (body : cont -> cont) :
  (forall k k', extends rest R k k' -> extends rest R (body k) (body k')) ->
  forall fuel fuel' k k',
    (fuel <= fuel')%nat -> extends rest R k k' ->
    extends rest R (star_go fuel body k) (star_go fuel' body k').
Proof.
  intros Hbody. induction fuel as [|f IH]; intros fuel' k k' Hle Hk prev prev' s HR H.
  - simpl in H. rewrite orb_false_r in H.
    destruct fuel'; simpl; now rewrite (Hk prev prev' s HR H).
  - destruct fuel' as [|f']; [lia|].
    simpl in H. simpl. apply orb_true_iff in H as [H | H].
    + now rewrite (Hk prev prev' s HR H).
    + apply orb_true_iff. right.
      refine (Hbody _ _ _ prev prev' s HR H).
      intros q q' t Hq Ht. apply andb_true_iff in Ht as [Hlen Ht].
      apply andb_true_iff. split.
      * apply Nat.ltb_lt in Hlen. apply Nat.ltb_lt.
        rewrite !length_app. lia.
      * apply (IH f' k k' ltac:(lia) Hk q q' t Hq Ht).
Qed.

Lemma rmatch_extends (r : regex) :
  plain r = true ->
  forall k k', extends rest R k k' -> extends rest R (rmatch r k) (rmatch r k').
Proof using R_some.
  induction r as [| | | items | x | x | a IHa b IHb | a IHa b IHb | a IHa | | | |];
    intros Hplain k k' Hk; simpl in Hplain; try discriminate; cbn [rmatch].
  - exact Hk.
  - intros prev prev' s _. now apply one_char_extends.
  - intros prev prev' s _. now apply one_char_extends.
  - intros prev prev' s _. now apply one_char_extends.
  - intros prev prev' s _. now apply one_char_extends.
  - intros prev prev' s _. now apply one_char_extends.
  - apply andb_true_iff in Hplain as [Ha Hb]. apply IHa; [exact Ha|]. now apply IHb.
  - apply andb_true_iff in Hplain as [Ha Hb]. intros prev prev' s HR H.
    apply orb_true_iff in H as [H | H]; apply orb_true_iff.
    + left. now apply (IHa Ha k k' Hk prev prev' s).
    + right. now apply (IHb Hb k k' Hk prev prev' s).
  - intros prev prev' s HR H.
    refine (star_go_extends (rmatch a) _ _ _ k k' _ Hk prev prev' s HR H).
    + intros k1 k2. now apply IHa.
    + rewrite length_app. lia.
Qed.

End Extension.

(** A literal is a plain pattern. *)
Lemma plain_lit_s (s : str) : plain (lit_s s) = true.
Proof. unfold lit_s. induction s as [|c s IH]; simpl; [reflexivity | exact IH]. Qed.

(** A match found after a prefix is found by the search. *)
Lemma search_go_app (r : regex) (pre s : str) (prev : option ascii) :
  rmatch r accept (List.last (map Some pre) prev) s = true ->
  search_go r prev (pre ++ s) = true.
Proof.
  revert prev. induction pre as [|c pre IH]; intros prev H; simpl in *.
  - destruct s; simpl; now rewrite H.
  - apply orb_true_iff. right. apply IH.
    destruct pre as [|d pre']; [exact H|].
    rewrite (last_default _ (Some c) prev) by discriminate. exact H.
Qed.

(** The iteration depends on the continuation through its answers only. *)
Lemma star_go_pointwise (body : cont -> cont) :
  (forall k1 k2, (forall p s, k1 p s = k2 p s) ->
                 forall p s, body k1 p s = body k2 p s) ->
  forall fuel k1 k2, (forall p s, k1 p s = k2 p s) ->
                     forall p s, star_go fuel body k1 p s = star_go fuel body k2 p s.
Proof.
  intros Hbody. induction fuel as [|f IH]; intros k1 k2 Hk p s; simpl.
  - now rewrite Hk.
  - rewrite Hk. f_equal. apply Hbody. intros q t. f_equal. now apply IH.
Qed.

Lemma rmatch_pointwise (r : regex) :
  forall k1 k2, (forall p s, k1 p s = k2 p s) ->
                forall p s, rmatch r k1 p s = rmatch r k2 p s.
Proof.
  induction r as [| | | items | x | x | a IHa b IHb | a IHa b IHb | a IHa | | | |];
    intros k1 k2 Hk p s; cbn [rmatch]; unfold one_char;
    try (destruct s as [|c s]; [reflexivity | now rewrite Hk]).
  - apply Hk.
  - apply IHa. intros q t. now apply IHb.
  - f_equal; [now apply IHa | now apply IHb].
  - apply star_go_pointwise; [exact IHa | exact Hk].
  - destruct p; [reflexivity | apply Hk].
  - destruct p; [now rewrite Hk | apply Hk].
  - destruct s as [|c [|d s]]; [apply Hk | now rewrite Hk | reflexivity].
  - now rewrite Hk.
Qed.

(** Nothing matches in front of a continuation that refuses everything. *)
Lemma star_go_refuse (body : cont -> cont) :
  (forall k, (forall p s, k p s = false) -> forall p s, body k p s = false) ->
  forall fuel k, (forall p s, k p s = false) ->
                 forall p s, star_go fuel body k p s = false.
Proof.
  intros Hbody. induction fuel as [|f IH]; intros k Hk p s; simpl; rewrite Hk.
  - reflexivity.
  - apply Hbody. intros q t. rewrite (IH k Hk). apply andb_false_r.
Qed.

Lemma rmatch_refuse (r : regex) :
  forall k, (forall p s, k p s = false) -> forall p s, rmatch r k p s = false.
Proof.
  induction r as [| | | items | x | x | a IHa b IHb | a IHa b IHb | a IHa | | | |];
    intros k Hk p s; cbn [rmatch]; unfold one_char;
    try (destruct s as [|c s]; [reflexivity | rewrite Hk; apply andb_false_r]).
  - apply Hk.
  - apply IHa. intros q t. now apply IHb.
  - now rewrite IHa, IHb.
  - apply star_go_refuse; [exact IHa | exact Hk].
  - destruct p; [reflexivity | apply Hk].
  - destruct p; [rewrite Hk; apply andb_false_r | apply Hk].
  - destruct s as [|c [|d s]]; [apply Hk | rewrite Hk; apply andb_false_r | reflexivity].
  - rewrite Hk. apply andb_false_r.
Qed.

(** Fuel beyond the length of the text changes nothing: the fuel that
    [rmatch] gives to an iteration is enough. *)
Lemma star_go_fuel (r : regex) (k : cont) :
  forall fuel fuel' p s,
    (List.length s <= fuel)%nat -> (List.length s <= fuel')%nat ->
    star_go fuel (rmatch r) k p s = star_go fuel' (rmatch r) k p s.
Proof.
  assert (Hzero : forall fuel p, star_go fuel (rmatch r) k p [] = k p [] ).
  { intros [|f] p; simpl; [apply orb_false_r|].
    rewrite rmatch_refuse; [apply orb_false_r | reflexivity]. }
  induction fuel as [|f IH]; intros fuel' p s Hle Hle'.
  - destruct s; [|simpl in Hle; lia]. now rewrite !Hzero.
  - destruct fuel' as [|f'].
    + destruct s; [|simpl in Hle'; lia]. now rewrite !Hzero.
    + simpl. f_equal. apply rmatch_pointwise. intros q t.
      destruct (Nat.ltb_spec (List.length t) (List.length s)) as [Hlt|Hge];
        [|reflexivity].
      simpl. apply IH; lia.
Qed.

Lemma star_fuel_enough (r : regex) (k : cont) (fuel : nat)
    (p : option ascii) (s : str) :
  (List.length s <= fuel)%nat ->
  star_go fuel (rmatch r) k p s = rmatch (Star r) k p s.
Proof. intros Hle. cbn [rmatch]. apply star_go_fuel; lia. Qed.

End RegexFacts.
Export RegexFacts.

Module VerifyLineFacts.

(** Where a line of [split] on newlines sits in the text: at the start or
    after a newline, and before a newline or at the end. *)
Lemma split_go_LF_member (s cur line : str) :
  In line (split_go [LF] 0 cur s) ->
  exists pre rest,
    rev cur ++ s = pre ++ line ++ rest /\
    (pre = [] \/ exists p, pre = p ++ [LF]) /\
    (rest = [] \/ exists r, rest = LF :: r).
Proof.
  revert cur. induction s as [|c s IH]; intros cur Hin.
  - simpl in Hin. destruct Hin as [<- | []].
    exists [], []. rewrite !app_nil_r. repeat split; now left.
  - cbn [split_go] in Hin.
    destruct (startswith [LF] (c :: s)) eqn:E.
    + simpl in E. rewrite andb_true_r in E. apply ascii_eqb_eq in E. subst c.
      destruct Hin as [<- | Hin].
      * exists [], (LF :: s). repeat split; [now left | right; now exists s].
      * destruct (IH [] Hin) as (pre & rest & Heq & Hpre & Hrest).
        simpl in Heq. exists (rev cur ++ LF :: pre), rest. split.
        -- rewrite Heq. rewrite <- !app_assoc. reflexivity.
        -- split; [|exact Hrest]. right.
           destruct Hpre as [-> | [p ->]].
           ++ now exists (rev cur).
           ++ exists (rev cur ++ LF :: p). now rewrite <- app_assoc.
    + destruct (IH (c :: cur) Hin) as (pre & rest & Heq & Hpre & Hrest).
      exists pre, rest. split; [|now split].
      rewrite <- Heq. simpl. now rewrite <- app_assoc.
Qed.

(** The pattern of [verify_config_line] still matches a line when the line
    stands in a document, after a newline and before one. *)
Lemma verify_pat_in_document (key value line rest : str) (prev : option ascii) :
  re_match (verify_pat key value) line = true ->
  prev = None \/ prev = Some LF ->
  word_opt (next_char rest) = false ->
  rmatch (verify_pat key value) accept prev (line ++ rest) = true.
Proof.
  intros Hline Hprev Hrest. unfold re_match in Hline.
  set (kW := rmatch WordB (rmatch Eps accept)).
  set (K3 := rmatch (Star Space) (rmatch (lit_s value) kW)).
  set (K6 := rmatch ws0 (rmatch (lit_s key) (rmatch Space K3))).
  change (rmatch (verify_pat key value) accept) with (rmatch BolM K6) in *.
  assert (E1 : extends rest eq kW kW).
  { intros p p' s <- H. subst kW. cbn [rmatch accept] in *.
    rewrite andb_true_r in *.
    destruct s as [|c s]; [|exact H].
    simpl in *. rewrite Hrest. exact H. }
  assert (E3 : extends rest eq K3 K3).
  { subst K3. apply rmatch_extends; [reflexivity | reflexivity |].
    apply rmatch_extends; [reflexivity | apply plain_lit_s | exact E1]. }
  assert (E4 : extends rest (fun _ _ => True) (rmatch Space K3) (rmatch Space K3)).
  { intros p p' s _ H. cbn [rmatch] in *.
    now apply (one_char_extends rest eq (fun c => eq_refl) is_space K3 K3 E3 p p' s). }
  assert (E6 : extends rest (fun _ _ => True) K6 K6).
  { subst K6. apply rmatch_extends; [easy | reflexivity |].
    apply rmatch_extends; [easy | apply plain_lit_s | exact E4]. }
  cbn [rmatch] in *.
  destruct Hprev as [-> | ->].
  - now apply (E6 None None line I).
  - rewrite ascii_eqb_refl. simpl. now apply (E6 None (Some LF) line I).
Qed.

(** Whenever some line of the document holds the setting,
    [verify_config_line] answers true. *)
Lemma verify_config_line_some_line (doc key value : str) :
  some_line_has_setting doc key value = true ->
  verify_config_line doc key value = true.
Proof.
  unfold some_line_has_setting, text_lines, split, line_has_setting.
  intros H. apply List.existsb_exists in H as (line & Hin & Hline).
  destruct (split_go_LF_member doc [] line Hin) as (pre & rest & Heq & Hpre & Hrest).
  simpl in Heq. subst doc.
  unfold verify_config_line, re_search. apply search_go_app.
  apply verify_pat_in_document; [exact Hline | |].
  - destruct Hpre as [-> | [p ->]]; [now left | right].
    rewrite map_app. simpl. apply last_snoc.
  - destruct Hrest as [-> | [r ->]]; reflexivity.
Qed.

End VerifyLineFacts.
Export VerifyLineFacts.

Module VerifyLine.

(** The pattern accepts a wrapped setting on one line, indented or not. *)
Example verify_config_line_examples :
  verify_config_line (txt "Port 22" ++ [LF] ++ txt "  PermitRootLogin   no" ++ [LF])
    (txt "PermitRootLogin") (txt "no") = true /\
  verify_config_line (txt "#PermitRootLogin no" ++ [LF])
    (txt "PermitRootLogin") (txt "no") = false /\
  verify_config_line (txt "PermitRootLogin none" ++ [LF])
    (txt "PermitRootLogin") (txt "no") = false.
Proof. repeat split; vm_compute; reflexivity. Qed.

(** C9.  [verify_config_line] answers true for a document in which no line
    holds the setting: [\s+] between key and value also matches a newline,
    so a key that ends one line and a value that starts the next are
    accepted.  (The other direction holds: see
    [verify_config_line_some_line].) *)
Theorem verify_config_line_spans_lines :
  verify_config_line (txt "PermitRootLogin" ++ [LF] ++ txt "no")
    (txt "PermitRootLogin") (txt "no") = true /\
  text_lines (txt "PermitRootLogin" ++ [LF] ++ txt "no")
  = [txt "PermitRootLogin"; txt "no"] /\
  some_line_has_setting (txt "PermitRootLogin" ++ [LF] ++ txt "no")
    (txt "PermitRootLogin") (txt "no") = false.
Proof. repeat split; vm_compute; reflexivity. Qed.

End VerifyLine.

(* ================================================================== *)
(** * Facts about the policy gate *)
(* ================================================================== *)

Module PolicyFacts.

Lemma first_denied_some (parts : list str) (bad : str) :
  first_denied parts = Some bad ->
  exists p, In p parts /\ bad = strip p /\ offending p = true.
Proof.
  induction parts as [|p rest IH]; simpl; [discriminate|].
  destruct (nonempty (strip p) && negb (cmd_allowed (strip p))) eqn:E.
  - intros H. injection H as <-. exists p. repeat split; [now left | exact E].
  - intros H. destruct (IH H) as (q & Hin & Hq). exists q. split; [now right | exact Hq].
Qed.

Lemma first_denied_none (parts : list str) :
  first_denied parts = None <-> Forall (fun p => offending p = false) parts.
Proof.
  induction parts as [|p rest IH]; simpl.
  - split; [constructor | reflexivity].
  - fold (offending p). destruct (offending p) eqn:E.
    + split; [discriminate | intros H; inversion H; congruence].
    + rewrite IH. split; [now constructor | intros H; now inversion H].
Qed.

Section Gate.

Context {W : Type} (O : outside W).

(** A refused part stops the command before the executor is consulted. *)
Lemma tool_run_safe_denied (cmd : str) (w : world W) (p : str) :
  In p (cmd_parts cmd) -> offending p = true ->
  exists q, In q (cmd_parts cmd) /\ offending q = true /\
            tool_run_safe O cmd w = (Ret (denied (strip q)), w).
Proof.
  intros Hin Hoff. unfold tool_run_safe.
  destruct (first_denied (cmd_parts cmd)) as [bad|] eqn:E.
  - destruct (first_denied_some _ _ E) as (q & Hq & -> & Hoffq).
    exists q. repeat split; assumption.
  - apply first_denied_none in E.
    rewrite List.Forall_forall in E. specialize (E p Hin). congruence.
Qed.

(** Without a refused part the whole command goes to the executor, once. *)
Lemma tool_run_safe_executes (cmd : str) (w : world W) :
  Forall (fun p => offending p = false) (cmd_parts cmd) ->
  executed w (snd (tool_run_safe O cmd w)) [cmd].
Proof.
  intros Hall. apply first_denied_none in Hall.
  unfold tool_run_safe, executed. rewrite Hall.
  unfold execute, bind, emit, ask. simpl.
  destruct (execute_oracle O cmd (env w)) as [[[[rc out] err]|e] e']; reflexivity.
Qed.

End Gate.

(** ** Commands that use one kind of separator *)

Lemma contains_cons (needle : str) (c : ascii) (s : str) :
  contains needle (c :: s) = false ->
  startswith needle (c :: s) = false /\ contains needle s = false.
Proof. simpl. intros H. now apply orb_false_iff in H. Qed.

Lemma segments_go_amp (skip : nat) (cur s : str) :
  contains (txt ";") s = false ->
  segments_go skip cur s = split_go (txt "&&") skip cur s.
Proof.
  revert skip cur. induction s as [|c s IH]; intros skip cur Hs; [reflexivity|].
  apply contains_cons in Hs as [Hsemi Hrest].
  cbn [segments_go split_go]. destruct skip as [|n]; [|now apply IH].
  destruct (startswith (txt "&&") (c :: s)).
  - f_equal. now apply IH.
  - rewrite Hsemi. now apply IH.
Qed.

Lemma segments_go_semi (cur s : str) :
  contains (txt "&&") s = false ->
  segments_go 0 cur s = split_go (txt ";") 0 cur s.
Proof.
  revert cur. induction s as [|c s IH]; intros cur Hs; [reflexivity|].
  apply contains_cons in Hs as [Hamp Hrest].
  cbn [segments_go split_go]. rewrite Hamp.
  destruct (startswith (txt ";") (c :: s)).
  - f_equal. now apply IH.
  - now apply IH.
Qed.

Lemma split_go_single (sep cur s : str) :
  contains sep s = false -> split_go sep 0 cur s = [rev cur ++ s].
Proof.
  revert cur. induction s as [|c s IH]; intros cur Hs; simpl.
  - now rewrite app_nil_r.
  - apply contains_cons in Hs as [Hstart Hrest].
    rewrite Hstart, IH by assumption. simpl. now rewrite <- app_assoc.
Qed.

Lemma split_go_length (sep : str) (skip : nat) (cur s : str) :
  (1 <= List.length (split_go sep skip cur s))%nat.
Proof.
  revert skip cur. induction s as [|c s IH]; intros skip cur; simpl; [lia|].
  destruct skip; [|apply IH].
  destruct (startswith sep (c :: s)); [simpl; lia | apply IH].
Qed.

Lemma split_go_several (sep : str) (skip : nat) (cur s : str) :
  sep <> [] ->
  contains sep (skipn skip s) = true ->
  (2 <= List.length (split_go sep skip cur s))%nat.
Proof.
  intros Hsep. revert skip cur. induction s as [|c s IH]; intros skip cur Hs.
  - destruct sep; [congruence|]. destruct skip; discriminate Hs.
  - cbn [split_go]. destruct skip as [|n].
    + destruct (startswith sep (c :: s)) eqn:E.
      * pose proof (split_go_length sep (Nat.pred (List.length sep)) [] s).
        simpl. lia.
      * apply IH. simpl in Hs. rewrite E in Hs. exact Hs.
    + apply IH. exact Hs.
Qed.

(** A command that does not use both [&&] and [;] is cut by
    [tool_run_safe] exactly at its sequencing separators. *)
Lemma cmd_parts_unmixed (cmd : str) :
  contains (txt "&&") cmd && contains (txt ";") cmd = false ->
  cmd_parts cmd = sequencing_segments cmd.
Proof.
  intros H. unfold cmd_parts, sequencing_segments, split.
  destruct (contains (txt "&&") cmd) eqn:Eamp.
  - simpl in H.
    pose proof (split_go_several (txt "&&") 0 [] cmd ltac:(discriminate) Eamp) as Hlen.
    destruct (Nat.eqb_spec (List.length (split_go (txt "&&") 0 [] cmd)) 1) as [E1|_];
      [lia|].
    symmetry. now apply segments_go_amp.
  - rewrite (split_go_single (txt "&&") [] cmd Eamp). simpl.
    symmetry. now apply segments_go_semi.
Qed.

Section Unmixed.

Context {W : Type} (O : outside W).

(** The policy on commands that use one kind of separator: a segment that
    holds a refused command stops the command before the executor. *)
Lemma tool_run_safe_unmixed (cmd : str) (w : world W) (segment : str) :
  contains (txt "&&") cmd && contains (txt ";") cmd = false ->
  In segment (sequencing_segments cmd) -> offending segment = true ->
  exists bad, In bad (sequencing_segments cmd) /\ offending bad = true /\
              tool_run_safe O cmd w = (Ret (denied (strip bad)), w).
Proof.
  intros Hmix Hin Hoff. rewrite <- (cmd_parts_unmixed cmd Hmix) in *.
  now apply (tool_run_safe_denied O cmd w segment).
Qed.

End Unmixed.

(** The scenario of the specification. *)
Example cmd_allowed_scenario :
  cmd_allowed (txt "rm -rf /") = false /\
  cmd_allowed (txt "systemctl restart ssh") = true.
Proof. split; vm_compute; reflexivity. Qed.

Example tool_run_safe_scenario :
  tool_run_safe quiet_outside (txt "rm -rf /") (fresh_world false)
  = (Ret (denied (txt "rm -rf /")), fresh_world false) /\
  trace (snd (tool_run_safe quiet_outside (txt "systemctl restart ssh")
                (fresh_world false)))
  = [EvExecute (txt "systemctl restart ssh")].
Proof. split; vm_compute; reflexivity. Qed.

End PolicyFacts.
Export PolicyFacts.

Module PolicyGate.

Section Claims.

Context {W : Type} (O : outside W).

(** C1.  A command that uses both [&&] and [;] is cut at [&&] only.  In
    [pwd && nohup x; rm -rf /] the segment after the semicolon, [rm -rf /],
    matches no pattern of the allow-list, yet no part is refused (the part
    [nohup x; rm -rf /] matches the [nohup] pattern) and the whole command
    is passed to the backend executor. *)
Theorem tool_run_safe_mixed_separators (w : world W) :
  let cmd := txt "pwd && nohup x; rm -rf /" in
  sequencing_segments cmd = [txt "pwd "; txt " nohup x"; txt " rm -rf /"] /\
  offending (txt " rm -rf /") = true /\
  cmd_parts cmd = [txt "pwd "; txt " nohup x; rm -rf /"] /\
  first_denied (cmd_parts cmd) = None /\
  executed w (snd (tool_run_safe O cmd w)) [cmd].
Proof.
  intros cmd.
  assert (Hparts : first_denied (cmd_parts cmd) = None) by (vm_compute; reflexivity).
  repeat split; try (vm_compute; reflexivity).
  apply tool_run_safe_executes. now apply first_denied_none.
Qed.

(** C10.  [tool_run_command] returns what [tool_run_safe] returns, on every
    command and in every world. *)
Theorem tool_run_command_is_run_safe (cmd : str) (w : world W) :
  tool_run_command O cmd w = tool_run_safe O cmd w.
Proof. reflexivity. Qed.

End Claims.

End PolicyGate.

(* ================================================================== *)
(** * Facts about [read_file] and [write_file_atomic] *)
(* ================================================================== *)

Module BackendFacts.

Section Backend.

Context {W : Type} (O : outside W).

(** A call of [docker_exec] is recorded and has the outcome of the
    container. *)
Lemma docker_exec_run (cmd : str) (e : W) (tr : list event) (allow : bool)
    (r : exc (Z * str * str)) (e1 : W) :
  docker_oracle O cmd e = (r, e1) ->
  docker_exec O cmd (World e tr allow)
  = (r, World e1 (tr ++ [EvDockerExec cmd]) allow).
Proof.
  intros H. unfold docker_exec, bind, emit, ask. cbn [env trace ALLOW_INSECURE].
  now rewrite H.
Qed.

(** [read_file] is one call of [docker_exec]; the output counts when the
    return code is 0 or 1. *)
Lemma read_file_run (path : str) (w : world W) (rc : Z) (out err : str) (e1 : W) :
  docker_oracle O (read_command O path) (env w) = (Ret (rc, out, err), e1) ->
  read_file O path w
  = (Ret (if (rc =? 0) || (rc =? 1) then out else []),
     World e1 (trace w ++ [EvDockerExec (read_command O path)]) (ALLOW_INSECURE w)).
Proof.
  intros H. destruct w as [e0 tr allow]. cbn [env trace ALLOW_INSECURE] in *.
  unfold read_file. unfold bind at 1.
  change (txt "test -f " ++ shlex_quote O path ++ txt " && cat "
          ++ shlex_quote O path ++ txt " || true") with (read_command O path).
  now rewrite (docker_exec_run _ _ _ _ _ _ H).
Qed.

Lemma read_file_raise (path : str) (w : world W) (e : str) (e1 : W) :
  docker_oracle O (read_command O path) (env w) = (Raise e, e1) ->
  read_file O path w
  = (Raise e,
     World e1 (trace w ++ [EvDockerExec (read_command O path)]) (ALLOW_INSECURE w)).
Proof.
  intros H. destruct w as [e0 tr allow]. cbn [env trace ALLOW_INSECURE] in *.
  unfold read_file. unfold bind at 1.
  change (txt "test -f " ++ shlex_quote O path ++ txt " && cat "
          ++ shlex_quote O path ++ txt " || true") with (read_command O path).
  now rewrite (docker_exec_run _ _ _ _ _ _ H).
Qed.

(** [write_file_atomic] reads the clock and makes its three calls one
    after the other; it stops at the first that raises. *)
Lemma write_file_atomic_unfold (path content : str) (e0 : W) (tr : list event) (allow : bool) (ts : Z) (e1 : W) :
  clock O e0 = (ts, e1) ->
  write_file_atomic O path content (World e0 tr allow)
  = (_ <- docker_exec O (mkdir_command O path) ;;
     _ <- docker_exec O (backup_command O path ts) ;;
     _ <- docker_exec O (store_command O path content) ;;
     ret tt) (World e1 tr allow).
Proof.
  intros H. unfold write_file_atomic. unfold bind at 1. unfold ask at 1.
  cbn [env trace ALLOW_INSECURE]. rewrite H. reflexivity.
Qed.

Lemma write_file_atomic_run (path content : str) (e0 : W) (tr : list event) (allow : bool) (ts : Z)
    (e1 e2 e3 e4 : W) (r1 r2 r3 : Z * str * str) :
  clock O e0 = (ts, e1) ->
  docker_oracle O (mkdir_command O path) e1 = (Ret r1, e2) ->
  docker_oracle O (backup_command O path ts) e2 = (Ret r2, e3) ->
  docker_oracle O (store_command O path content) e3 = (Ret r3, e4) ->
  write_file_atomic O path content (World e0 tr allow)
  = (Ret tt,
     World e4 (tr ++ map EvDockerExec [mkdir_command O path;
                                            backup_command O path ts;
                                            store_command O path content])
           allow).
Proof.
  intros Hc H1 H2 H3. rewrite (write_file_atomic_unfold _ _ _ _ _ _ _ Hc).
  unfold bind at 1. rewrite (docker_exec_run _ _ _ _ _ _ H1).
  unfold bind at 1. rewrite (docker_exec_run _ _ _ _ _ _ H2).
  unfold bind at 1. rewrite (docker_exec_run _ _ _ _ _ _ H3).
  unfold ret. cbn [trace ALLOW_INSECURE map]. now rewrite <- !app_assoc.
Qed.

Lemma write_file_atomic_raise_mkdir (path content : str) (e0 : W) (tr : list event) (allow : bool) (ts : Z)
    (e1 e2 : W) (e : str) :
  clock O e0 = (ts, e1) ->
  docker_oracle O (mkdir_command O path) e1 = (Raise e, e2) ->
  write_file_atomic O path content (World e0 tr allow)
  = (Raise e,
     World e2 (tr ++ map EvDockerExec [mkdir_command O path]) allow).
Proof.
  intros Hc H1. rewrite (write_file_atomic_unfold _ _ _ _ _ _ _ Hc).
  unfold bind at 1. now rewrite (docker_exec_run _ _ _ _ _ _ H1).
Qed.

Lemma write_file_atomic_raise_backup (path content : str) (e0 : W) (tr : list event) (allow : bool) (ts : Z)
    (e1 e2 e3 : W) (r1 : Z * str * str) (e : str) :
  clock O e0 = (ts, e1) ->
  docker_oracle O (mkdir_command O path) e1 = (Ret r1, e2) ->
  docker_oracle O (backup_command O path ts) e2 = (Raise e, e3) ->
  write_file_atomic O path content (World e0 tr allow)
  = (Raise e,
     World e3 (tr ++ map EvDockerExec [mkdir_command O path;
                                            backup_command O path ts])
           allow).
Proof.
  intros Hc H1 H2. rewrite (write_file_atomic_unfold _ _ _ _ _ _ _ Hc).
  unfold bind at 1. rewrite (docker_exec_run _ _ _ _ _ _ H1).
  unfold bind at 1. rewrite (docker_exec_run _ _ _ _ _ _ H2).
  cbn [trace ALLOW_INSECURE map]. now rewrite <- !app_assoc.
Qed.

Lemma write_file_atomic_raise_store (path content : str) (e0 : W) (tr : list event) (allow : bool) (ts : Z)
    (e1 e2 e3 e4 : W) (r1 r2 : Z * str * str) (e : str) :
  clock O e0 = (ts, e1) ->
  docker_oracle O (mkdir_command O path) e1 = (Ret r1, e2) ->
  docker_oracle O (backup_command O path ts) e2 = (Ret r2, e3) ->
  docker_oracle O (store_command O path content) e3 = (Raise e, e4) ->
  write_file_atomic O path content (World e0 tr allow)
  = (Raise e,
     World e4 (tr ++ map EvDockerExec [mkdir_command O path;
                                            backup_command O path ts;
                                            store_command O path content])
           allow).
Proof.
  intros Hc H1 H2 H3. rewrite (write_file_atomic_unfold _ _ _ _ _ _ _ Hc).
  unfold bind at 1. rewrite (docker_exec_run _ _ _ _ _ _ H1).
  unfold bind at 1. rewrite (docker_exec_run _ _ _ _ _ _ H2).
  unfold bind at 1. rewrite (docker_exec_run _ _ _ _ _ _ H3).
  cbn [trace ALLOW_INSECURE map]. now rewrite <- !app_assoc.
Qed.

End Backend.

End BackendFacts.
Export BackendFacts.

(* ================================================================== *)
(** * The insecure-value gate of [tool_set_config_kv] *)
(* ================================================================== *)

Module InsecureGate.

Section Claims.

Context {W : Type} (O : outside W).


End Claims.



End InsecureGate.

(* ================================================================== *)
(** * The retry loop of [multi_agent_system] *)
(* ================================================================== *)

Module RetryLoop.

Section Claims.

Context {W Plan Execution Verification : Type}.
Variable A : agents W Plan Execution Verification.

(** Failed attempts below the bound are passed over by the loop: each is
    recorded and becomes the previous attempt of the next. *)
Lemma retry_loop_failed (goal : str) (max_retries : Z)
    (l : list (attempt Plan Execution Verification)) :
  forall (fuel : nat) (n : Z) (acc : list (attempt Plan Execution Verification))
         (prev : option (attempt Plan Execution Verification)) (w w' : world W),
    failed_run A goal n prev w l w' ->
    n + Z.of_nat (List.length l) <= max_retries ->
    retry_loop A goal max_retries (List.length l + fuel) n acc prev w
    = retry_loop A goal max_retries fuel (n + Z.of_nat (List.length l))
        (acc ++ l) (last_attempt l prev) w'.
Proof.
  induction l as [|a l IH]; intros fuel n acc prev w w' Hrun Hbound.
  - inversion Hrun; subst. simpl.
    rewrite Z.add_0_r, app_nil_r. reflexivity.
  - inversion Hrun as [|? ? ? ? w1 ? ? Hatt Hfail Hrest]; subst.
    cbn [List.length Nat.add retry_loop]. unfold bind at 1. rewrite Hatt, Hfail.
    assert (Hlt : (n <? max_retries) = true)
      by (apply Z.ltb_lt; simpl in Hbound; lia).
    rewrite Hlt.
    rewrite (IH fuel (n + 1) (acc ++ [a]) (Some a) w1 w' Hrest)
      by (simpl in Hbound; lia).
    rewrite <- app_assoc. simpl.
    replace (n + 1 + Z.of_nat (List.length l))
      with (n + Z.of_nat (S (List.length l))) by lia.
    f_equal. unfold last_attempt. simpl.
    destruct l as [|b l']; [reflexivity|].
    apply last_default. discriminate.
Qed.

(** C5.  Let the first [k - 1] attempts fail their verification, for some
    [k] between 1 and [max_retries], and let attempt [k] produce [a].  If
    [a] passes verification, [multi_agent_system] returns success with
    exactly the [k] attempts made so far recorded; if [a] fails and [k] is
    [max_retries], it returns failure with the [max_retries] attempts
    recorded and the plan, execution and verification of the last one. *)
Theorem retry_convergence (goal : str) (allow_insecure : bool)
    (max_retries k : Z)
    (failed : list (attempt Plan Execution Verification))
    (a : attempt Plan Execution Verification) (w0 w1 w2 w3 : world W) :
  1 <= k <= max_retries ->
  ensure_up A (World (env w0) (trace w0) allow_insecure) = (Ret tt, w1) ->
  failed_run A goal 1 None w1 failed w2 ->
  Z.of_nat (List.length failed) = k - 1 ->
  run_attempt A goal k (last_attempt failed None) w2 = (Ret a, w3) ->
  Z.of_nat (List.length (failed ++ [a])) = k /\
  (verified A (a_verification a) = true ->
   multi_agent_system A goal allow_insecure max_retries w0
   = (Ret (Report goal true (failed ++ [a]) k
             (a_plan a) (a_execution a) (a_verification a)), w3)) /\
  (verified A (a_verification a) = false -> k = max_retries ->
   multi_agent_system A goal allow_insecure max_retries w0
   = (Ret (Report goal false (failed ++ [a]) max_retries
             (a_plan a) (a_execution a) (a_verification a)), w3)).
Proof.
  intros Hk Hup Hrun Hlen Hatt.
  assert (Hfuel : Z.to_nat max_retries
                  = (List.length failed + S (Z.to_nat (max_retries - k)))%nat) by lia.
  assert (Hloop :
    retry_loop A goal max_retries (Z.to_nat max_retries) 1 [] None w1
    = retry_loop A goal max_retries (S (Z.to_nat (max_retries - k))) k
        failed (last_attempt failed None) w2).
  { rewrite Hfuel.
    rewrite (retry_loop_failed goal max_retries failed _ 1 [] None w1 w2 Hrun)
      by lia.
    replace (1 + Z.of_nat (List.length failed)) with k by lia.
    reflexivity. }
  split; [rewrite length_app; simpl; lia|].
  split.
  - intros Hok.
    unfold multi_agent_system, bind at 1, set_allow_insecure.
    unfold bind at 1. rewrite Hup.
    unfold bind at 1. rewrite Hloop.
    cbn [retry_loop]. unfold bind at 1. rewrite Hatt, Hok. reflexivity.
  - intros Hfail ->.
    unfold multi_agent_system, bind at 1, set_allow_insecure.
    unfold bind at 1. rewrite Hup.
    unfold bind at 1. rewrite Hloop.
    cbn [retry_loop]. unfold bind at 1. rewrite Hatt, Hfail.
    replace (Z.to_nat (max_retries - max_retries)) with O by lia.
    cbn [retry_loop]. unfold ret at 1.
    rewrite map_app. simpl. rewrite last_snoc. reflexivity.
Qed.

End Claims.

(** With a stub whose second verification is the first to succeed and
    three attempts allowed, the loop returns success with two attempts. *)
Lemma retry_convergence_witness :
  multi_agent_system (stub_agents 2) (txt "harden ssh") false 3 (World O [] false)
  = (Ret (Report (txt "harden ssh") true
            [Attempt 1 tt tt false; Attempt 2 tt tt true] 2 tt tt true),
     World 2%nat [] false).
Proof.
  refine (proj1 (proj2 (retry_convergence (stub_agents 2) (txt "harden ssh") false 3 2
                          [Attempt 1 tt tt false] (Attempt 2 tt tt true)
                          (World O [] false) (World O [] false)
                          (World 1%nat [] false) (World 2%nat [] false)
                          _ _ _ _ _)) _).
  - lia.
  - reflexivity.
  - eapply failed_cons; [reflexivity | reflexivity | apply failed_nil].
  - reflexivity.
  - reflexivity.
  - reflexivity.
Defined.

(** With a stub that never succeeds, the loop gives up after the last
    attempt and keeps it. *)
Example retry_exhausted_example :
  multi_agent_system (stub_agents 9) (txt "harden ssh") false 2 (World O [] false)
  = (Ret (Report (txt "harden ssh") false
            [Attempt 1 tt tt false; Attempt 2 tt tt false] 2 tt tt false),
     World 2%nat [] false).
Proof. vm_compute. reflexivity. Qed.

(** Without any attempt allowed there is no last attempt to return. *)
Example retry_none_allowed :
  fst (multi_agent_system (stub_agents 1) (txt "harden ssh") false 0 (World O [] false))
  = Raise (txt "list index out of range").
Proof. vm_compute. reflexivity. Qed.

End RetryLoop.

(* ================================================================== *)
(** * The connection pool *)
(* ================================================================== *)

Module PoolFacts.

Lemma idle_set_idle (k : str) (l : list conn) (p : SSHConnectionPool) :
  idle (set_idle k l p) k = l.
Proof. unfold idle, set_idle. simpl. now rewrite lookup_insert_eq. Qed.

Lemma idle_set_idle_ne (k k' : str) (l : list conn) (p : SSHConnectionPool) :
  k <> k' -> idle (set_idle k l p) k' = idle p k'.
Proof. intros H. unfold idle, set_idle. simpl. now rewrite lookup_insert_ne. Qed.

Lemma idle_set_active (k k' : str) (n : Z) (p : SSHConnectionPool) :
  idle (set_active k n p) k' = idle p k'.
Proof. reflexivity. Qed.

Lemma active_set_active (k : str) (n : Z) (p : SSHConnectionPool) :
  active (set_active k n p) k = n.
Proof. unfold active, set_active. simpl. now rewrite lookup_insert_eq. Qed.

Lemma active_set_active_ne (k k' : str) (n : Z) (p : SSHConnectionPool) :
  k <> k' -> active (set_active k n p) k' = active p k'.
Proof. intros H. unfold active, set_active. simpl. now rewrite lookup_insert_ne. Qed.

Lemma active_set_idle (k k' : str) (l : list conn) (p : SSHConnectionPool) :
  active (set_idle k l p) k' = active p k'.
Proof. reflexivity. Qed.

Lemma max_set_idle (k : str) (l : list conn) (p : SSHConnectionPool) :
  max_connections_per_host (set_idle k l p) = max_connections_per_host p.
Proof. reflexivity. Qed.

Lemma max_set_active (k : str) (n : Z) (p : SSHConnectionPool) :
  max_connections_per_host (set_active k n p) = max_connections_per_host p.
Proof. reflexivity. Qed.

(** A connection found alive leaves fewer connections behind. *)
Lemma pop_alive_some (alive : conn -> bool) (stack rest : list conn) (c : conn) :
  pop_alive alive stack = (Some c, rest) ->
  (List.length rest < List.length stack)%nat.
Proof.
  induction stack as [|d stack IH]; simpl; [discriminate|].
  destruct (alive d).
  - intros H. injection H as _ <-. lia.
  - intros H. apply IH in H. lia.
Qed.

(** When no connection is alive, all have been popped. *)
Lemma pop_alive_none (alive : conn -> bool) (stack rest : list conn) :
  pop_alive alive stack = (None, rest) ->
  rest = [] /\ Forall (fun c => alive c = false) stack.
Proof.
  induction stack as [|d stack IH]; simpl.
  - intros H. injection H as <-. split; [reflexivity | constructor].
  - destruct (alive d) eqn:E; [discriminate|].
    intros H. destruct (IH H) as [-> Hall]. split; [reflexivity | now constructor].
Qed.

Lemma pop_alive_all_dead (alive : conn -> bool) (stack : list conn) :
  Forall (fun c => alive c = false) stack -> pop_alive alive stack = (None, []).
Proof.
  induction 1 as [|d stack Hd _ IH]; simpl; [reflexivity|]. now rewrite Hd.
Qed.

Lemma get_connection_inv (alive : conn -> bool) (created : exc conn)
    (config : SSHConfig) (p : SSHConnectionPool) :
  pool_inv p -> pool_inv (snd (get_connection alive created config p)).
Proof.
  intros Hinv key. specialize (Hinv key).
  unfold get_connection.
  set (k := _get_pool_key config).
  destruct (pop_alive alive (rev (idle p k))) as [[c|] rest] eqn:E.
  - apply pop_alive_some in E. rewrite length_rev in E.
    cbn [snd]. rewrite max_set_active, max_set_idle, idle_set_active.
    destruct (decide (k = key)) as [<-|Hne].
    + rewrite active_set_active, idle_set_idle, active_set_idle, length_rev. lia.
    + rewrite active_set_active_ne, idle_set_idle_ne, active_set_idle by assumption.
      exact Hinv.
  - apply pop_alive_none in E as [-> _]. simpl rev.
    rewrite active_set_idle, max_set_idle.
    destruct (active p k <? max_connections_per_host p) eqn:Elt.
    + apply Z.ltb_lt in Elt. destruct created as [c|e]; cbn [snd].
      * rewrite max_set_active, max_set_idle, idle_set_active.
        destruct (decide (k = key)) as [<-|Hne].
        -- rewrite active_set_active, idle_set_idle. simpl. lia.
        -- rewrite active_set_active_ne, idle_set_idle_ne, active_set_idle by assumption.
           exact Hinv.
      * rewrite max_set_idle, active_set_idle.
        destruct (decide (k = key)) as [<-|Hne].
        -- rewrite idle_set_idle. simpl. lia.
        -- rewrite idle_set_idle_ne by assumption. exact Hinv.
    + cbn [snd]. rewrite max_set_idle, active_set_idle.
      destruct (decide (k = key)) as [<-|Hne].
      * rewrite idle_set_idle. simpl. lia.
      * rewrite idle_set_idle_ne by assumption. exact Hinv.
Qed.

Lemma return_connection_inv (alive : conn -> bool) (config : SSHConfig)
    (c : conn) (p : SSHConnectionPool) :
  1 <= active p (_get_pool_key config) ->
  pool_inv p -> pool_inv (return_connection alive config c p).
Proof.
  intros Hact Hinv key. specialize (Hinv key).
  unfold return_connection.
  set (k := _get_pool_key config) in *.
  destruct (alive c).
  - rewrite max_set_active, max_set_idle, idle_set_active, active_set_idle.
    destruct (decide (k = key)) as [<-|Hne].
    + rewrite active_set_active, idle_set_idle, length_app. simpl. lia.
    + rewrite active_set_active_ne, idle_set_idle_ne by assumption. exact Hinv.
  - rewrite max_set_active, idle_set_active.
    destruct (decide (k = key)) as [<-|Hne].
    + rewrite active_set_active. lia.
    + rewrite active_set_active_ne by assumption. exact Hinv.
Qed.

Lemma new_pool_inv (max_per_endpoint : Z) :
  0 <= max_per_endpoint -> pool_inv (new_pool max_per_endpoint).
Proof. intros H key. unfold idle, active, new_pool. simpl. rewrite !lookup_empty. simpl. lia. Qed.

Lemma run_ops_inv (ops : list (op)) (p : SSHConnectionPool) :
  pool_inv p -> disciplined ops p ->
  pool_inv (run_ops ops p).
Proof.
  revert p. induction ops as [|o ops IH]; intros p Hinv Hd; [exact Hinv|].
  destruct Hd as [Ho Hrest]. unfold run_ops. simpl. apply IH; [|exact Hrest].
  destruct o as [alive created config | alive config c]; simpl.
  - now apply get_connection_inv.
  - now apply return_connection_inv.
Qed.

End PoolFacts.
Export PoolFacts.

Module PoolClaims.

(** C6 (as amended).  For a non-negative bound, [idle + active <=
    max_connections_per_host] holds on every endpoint in every state reached
    from the empty pool by a sequence of [get_connection] and
    [return_connection] calls in which a connection is returned to an
    endpoint only while that endpoint counts an active connection. *)
Theorem pool_bound_disciplined (max_per_endpoint : Z) (ops : list op) :
  0 <= max_per_endpoint ->
  disciplined ops (new_pool max_per_endpoint) ->
  pool_inv (run_ops ops (new_pool max_per_endpoint)).
Proof.
  intros Hmax Hd. apply run_ops_inv; [now apply new_pool_inv | exact Hd].
Qed.

(** On an endpoint without idle connections and below the bound,
    [get_connection] hands out the connection it creates. *)
Lemma get_connection_fresh (alive : conn -> bool) (c : conn)
    (config : SSHConfig) (p : SSHConnectionPool) :
  idle p (_get_pool_key config) = [] ->
  active p (_get_pool_key config) < max_connections_per_host p ->
  get_connection alive (Ret c) config p
  = (Ret c,
     set_active (_get_pool_key config)
       (active p (_get_pool_key config) + 1)
       (set_idle (_get_pool_key config) [] p)).
Proof.
  intros Hidle Hlt. unfold get_connection. rewrite Hidle.
  cbn [rev pop_alive]. rewrite active_set_idle, max_set_idle.
  apply Z.ltb_lt in Hlt. now rewrite Hlt.
Qed.

(** C7.  When no idle connection of an endpoint is alive and its active
    count has reached the bound, [get_connection] raises the pool-exhausted
    error at once; and on an empty pool with bound two, three acquisitions
    for one endpoint give two connections and then that error. *)
Theorem pool_exhausted_at_capacity (config : SSHConfig) :
  (forall (alive : conn -> bool) (created : exc conn) (p : SSHConnectionPool),
     Forall (fun c => alive c = false) (idle p (_get_pool_key config)) ->
     active p (_get_pool_key config) = max_connections_per_host p ->
     fst (get_connection alive created config p)
     = Raise (exhausted p (_get_pool_key config))) /\
  (forall alive : conn -> bool,
     acquire_results
       [Acquire alive (Ret 1%nat) config;
        Acquire alive (Ret 2%nat) config;
        Acquire alive (Ret 3%nat) config]
       (new_pool 2)
     = [Ret 1%nat; Ret 2%nat;
        Raise (exhausted (new_pool 2) (_get_pool_key config))]).
Proof.
  assert (Hfull : forall (alive : conn -> bool) (created : exc conn)
                         (p : SSHConnectionPool),
             Forall (fun c => alive c = false)
                    (idle p (_get_pool_key config)) ->
             active p (_get_pool_key config) = max_connections_per_host p ->
             fst (get_connection alive created config p)
             = Raise (exhausted p (_get_pool_key config))).
  { intros alive created p Hdead Hfull. unfold get_connection.
    rewrite pop_alive_all_dead by now apply List.Forall_rev.
    simpl rev. rewrite active_set_idle, max_set_idle, Hfull, Z.ltb_irrefl.
    reflexivity. }
  split; [exact Hfull|].
  - intros alive. set (k := _get_pool_key config).
    set (p1 := set_active k (active (new_pool 2) k + 1) (set_idle k [] (new_pool 2))).
    set (p2 := set_active k (active p1 k + 1) (set_idle k [] p1)).
    assert (Hidle1 : idle p1 k = [])
      by (subst p1; now rewrite idle_set_active, idle_set_idle).
    assert (Hact1 : active p1 k = 1)
      by (subst p1; now rewrite active_set_active).
    assert (Hidle2 : idle p2 k = [])
      by (subst p2; now rewrite idle_set_active, idle_set_idle).
    assert (Hact2 : active p2 k = 2)
      by (subst p2; now rewrite active_set_active, Hact1).
    assert (H1 : get_connection alive (Ret 1%nat) config (new_pool 2)
                 = (Ret 1%nat, p1))
      by (apply get_connection_fresh; [reflexivity | reflexivity]).
    assert (H2 : get_connection alive (Ret 2%nat) config p1
                 = (Ret 2%nat, p2))
      by (apply get_connection_fresh; [exact Hidle1 | fold k; now rewrite Hact1]).
    assert (H3 : fst (get_connection alive (Ret 3%nat) config p2)
                 = Raise (exhausted (new_pool 2) k)).
    { rewrite Hfull; [reflexivity | | exact Hact2].
      fold k. rewrite Hidle2. constructor. }
    cbn [acquire_results]. rewrite H1. cbn [fst snd]. rewrite H2. cbn [fst snd].
    rewrite H3. reflexivity.
Qed.

(** An acquisition and the return of the connection keep the bound. *)
Lemma pool_bound_disciplined_witness :
  pool_inv
    (run_ops
       [Acquire always_alive (Ret 1%nat) example_config;
        Release always_alive example_config 1%nat]
       (new_pool 2)).
Proof.
  apply pool_bound_disciplined.
  - lia.
  - vm_compute. repeat split; discriminate.
Defined.

(** A full pool refuses at once. *)
Lemma pool_exhausted_at_capacity_witness :
  fst (get_connection always_alive (Ret 9%nat) example_config (new_pool 0))
  = Raise (exhausted (new_pool 0) (_get_pool_key example_config)).
Proof.
  apply (proj1 (pool_exhausted_at_capacity example_config)).
  - vm_compute. constructor.
  - reflexivity.
Defined.

(** C6 (as stated) fails: a connection returned twice is put on the idle
    list twice, while the active count stops at zero. *)
Lemma pool_bound_double_release :
  let p := run_ops
             [Acquire always_alive (Ret 7%nat) example_config;
              Release always_alive example_config 7%nat;
              Release always_alive example_config 7%nat]
             (new_pool 1) in
  idle p (_get_pool_key example_config) = [7%nat; 7%nat] /\
  active p (_get_pool_key example_config) = 0 /\
  ~ pool_inv p.
Proof.
  intros p.
  assert (Hidle : idle p (_get_pool_key example_config) = [7%nat; 7%nat])
    by (vm_compute; reflexivity).
  assert (Hactive : active p (_get_pool_key example_config) = 0)
    by (vm_compute; reflexivity).
  split; [exact Hidle | split; [exact Hactive|]].
  intros Hinv. specialize (Hinv (_get_pool_key example_config)).
  rewrite Hidle, Hactive in Hinv. vm_compute in Hinv. now apply Hinv.
Qed.

End PoolClaims.

(* ================================================================== *)
(** * The tool dispatcher *)
(* ================================================================== *)

Module DispatcherFacts.

(** Decide the comparisons of the operation name with literals. *)
Ltac eval_name_tests :=
  repeat match goal with
         | |- context [String.eqb ?a ?b] =>
             let v := eval vm_compute in (String.eqb a b) in
             change (String.eqb a b) with v
         end;
  cbv iota.

Section Dispatch.

Context {W : Type} (O : outside W).

(** [dispatch_tool] always returns a dictionary. *)
Lemma dispatch_tool_returns (name : string) (args : dict) (w : world W) :
  exists r w', dispatch_tool O name args w = (Ret r, w').
Proof.
  unfold dispatch_tool, try_except.
  destruct (dispatch_body O name args w) as [[r|e] w'].
  - now exists r, w'.
  - eexists _, _. reflexivity.
Qed.

(** A fault anywhere in the body becomes a failure result. *)
Lemma dispatch_tool_fault (name : string) (args : dict) (w w' : world W) (e : str) :
  dispatch_body O name args w = (Raise e, w') ->
  dispatch_tool O name args w
  = (Ret (failure (txt "tool execution error: " ++ e)), w').
Proof. intros H. unfold dispatch_tool, try_except. now rewrite H. Qed.

Lemma dispatch_tool_no_fault (name : string) (args : dict) (w w' : world W) (r : dict) :
  dispatch_body O name args w = (Ret r, w') ->
  dispatch_tool O name args w = (Ret r, w').
Proof. intros H. unfold dispatch_tool, try_except. now rewrite H. Qed.

(** A fault of the invoked operation is a fault of the body. *)
Lemma branch_fault (tool : string) (required : list string) (msg : string)
    (na : dict) (w w' : world W) (e : str) :
  existsb (fun p => negb (has_key p na)) required = false ->
  call_tool O tool na w = (Raise e, w') ->
  branch O tool required msg na w = (Raise e, w').
Proof. intros Hreq Hcall. unfold branch. now rewrite Hreq. Qed.

(** An unknown name falls through every [if name == ...]. *)
Lemma dispatch_body_unknown (name : string) (args na : dict) (w w' : world W) :
  ~ In name (map fst KNOWN_TOOLS) ->
  normalize_args name args w = (Ret na, w') ->
  dispatch_body O name args w
  = (Ret (failure (txt "unknown tool " ++ txt name)), w').
Proof.
  intros Hunknown Hnorm. unfold dispatch_body, bind. rewrite Hnorm.
  repeat match goal with
         | |- context [String.eqb name ?lit] =>
             destruct (String.eqb_spec name lit) as [->|_];
             [exfalso; apply Hunknown; simpl; tauto|]
         end.
  reflexivity.
Qed.

(** A known name with a required parameter missing stops at the check. *)
Lemma dispatch_body_missing (name p : string) (required : list string)
    (args na : dict) (w w' : world W) :
  In (name, required) KNOWN_TOOLS -> In p required ->
  normalize_args name args w = (Ret na, w') ->
  has_key p na = false ->
  exists msg : string,
    dispatch_body O name args w = (Ret (failure (txt msg)), w') /\
    startswith (txt "missing required parameter") (txt msg) = true /\
    contains (txt p) (txt msg) = true.
Proof.
  intros Hknown Hp Hnorm Hmissing.
  unfold KNOWN_TOOLS in Hknown. simpl in Hknown.
  repeat (destruct Hknown as [Hknown | Hknown];
          [injection Hknown as <- <-; simpl in Hp;
           repeat (destruct Hp as [<- | Hp]);
           try contradiction;
           (eexists; split;
            [unfold dispatch_body, bind; rewrite Hnorm; eval_name_tests;
             unfold branch; cbn [existsb]; rewrite Hmissing;
             rewrite ?orb_true_r; cbn [negb orb]; reflexivity
            | split; vm_compute; reflexivity]) |]).
  contradiction.
Qed.

End Dispatch.

End DispatcherFacts.
Export DispatcherFacts.

Module DispatcherClaims.

Section Dispatch.

Context {W : Type} (O : outside W).

(** Normalisation does not touch the world. *)
Lemma normalize_args_world (name : string) (args : dict) (w : world W) :
  snd (normalize_args name args w) = w.
Proof.
  unfold normalize_args, bind.
  set (na := alias "file_path" "path" (alias "service_name" "name" args)).
  assert (Hpop : forall key d, snd (pop_package key d w) = w).
  { intros key d. unfold pop_package, bind, join_values, raise, ret.
    destruct (d !! key) as [[| | | |l]|]; try reflexivity.
    destruct (str_items 0 l) as [[i v]|ss]; reflexivity. }
  destruct (has_key "package_names" na && negb (has_key "package" na)).
  - specialize (Hpop "package_names" na).
    destruct (pop_package "package_names" na w) as [[d|e] w1]; simpl in *; now subst.
  - destruct (has_key "packages" na && negb (has_key "package" na)).
    + specialize (Hpop "packages" na).
      destruct (pop_package "packages" na w) as [[d|e] w1]; simpl in *; now subst.
    + reflexivity.
Qed.

(** Renaming a parameter leaves the other parameters alone. *)
Lemma alias_lookup_ne (old new k : string) (d : dict) :
  k <> old -> k <> new -> alias old new d !! k = d !! k.
Proof.
  intros Hold Hnew. unfold alias, pop_into.
  destruct (has_key old d && negb (has_key new d)); [|reflexivity].
  destruct (d !! old); [|reflexivity].
  rewrite lookup_insert_ne by congruence. now rewrite lookup_delete_ne by congruence.
Qed.

(** Without a package list among the arguments normalisation returns. *)
Lemma normalize_args_returns (name : string) (args : dict) (w : world W) :
  args !! "package_names" = None -> args !! "packages" = None ->
  exists na, normalize_args name args w = (Ret na, w).
Proof.
  intros Hnames Hpackages. unfold normalize_args, bind.
  set (na := alias "file_path" "path" (alias "service_name" "name" args)).
  assert (Hkeep : forall k, k <> "name" -> k <> "path" ->
                            k <> "service_name" -> k <> "file_path" ->
                            na !! k = args !! k).
  { intros k H1 H2 H3 H4. subst na.
    now rewrite !alias_lookup_ne by congruence. }
  assert (Hn : has_key "package_names" na = false)
    by (unfold has_key; rewrite Hkeep by discriminate; now rewrite Hnames).
  assert (Hp : has_key "packages" na = false)
    by (unfold has_key; rewrite Hkeep by discriminate; now rewrite Hpackages).
  rewrite Hn, Hp. simpl. eexists. reflexivity.
Qed.

Lemma required_present (required : list string) (na : dict) :
  (forall p, In p required -> has_key p na = true) ->
  existsb (fun p => negb (has_key p na)) required = false.
Proof.
  intros H. induction required as [|p required IH]; [reflexivity|].
  cbn [existsb]. rewrite (H p (or_introl eq_refl)). cbn [negb orb].
  apply IH. intros q Hq. apply H. now right.
Qed.

(** A known name with its required parameters present reaches the call
    of the operation, inside the [try] block. *)
Lemma dispatch_tool_known (name : string) (required : list string)
    (args na : dict) (w : world W) :
  In (name, required) KNOWN_TOOLS ->
  normalize_args name args w = (Ret na, w) ->
  (forall p, In p required -> has_key p na = true) ->
  dispatch_tool O name args w
  = try_except (call_tool O name na)
      (fun e => ret (failure (txt "tool execution error: " ++ e))) w.
Proof.
  intros Hknown Hnorm Hreq. apply required_present in Hreq.
  unfold KNOWN_TOOLS in Hknown. cbn [In] in Hknown.
  repeat (destruct Hknown as [Hknown | Hknown];
          [injection Hknown as <- <-;
           unfold dispatch_tool, try_except, dispatch_body; unfold bind at 1;
           rewrite Hnorm; eval_name_tests; unfold branch; rewrite Hreq;
           reflexivity |]).
  contradiction.
Qed.

(** The operations that the call reaches: the two that are modelled, when
    the arguments are those of their signature, and otherwise the
    operation of that name outside. *)
Lemma call_tool_outside (name : string) (na : dict) :
  name <> "run_safe" -> name <> "set_config_kv" ->
  call_tool O name na = ask (unmodelled_call O name na).
Proof.
  intros H1 H2. unfold call_tool.
  destruct (String.eqb_spec name "run_safe") as [E|_]; [contradiction|].
  destruct (String.eqb_spec name "set_config_kv") as [E|_]; [contradiction|].
  reflexivity.
Qed.

Lemma call_tool_run_safe (cmd : str) :
  call_tool O "run_safe" (mkdict [("cmd", VStr cmd)]) = tool_run_safe O cmd.
Proof.
  unfold call_tool. eval_name_tests.
  assert (H2 : mkdict [("cmd", VStr cmd)] !! "cmd" = Some (VStr cmd))
    by (vm_compute; reflexivity).
  assert (H3 : (size (mkdict [("cmd", VStr cmd)]) =? 1)%nat = true)
    by (vm_compute; reflexivity).
  now rewrite H2, H3.
Qed.

Lemma call_tool_set_config_kv (path key value : str) :
  call_tool O "set_config_kv"
    (mkdict [("path", VStr path); ("key", VStr key); ("value", VStr value)])
  = tool_set_config_kv O path key value.
Proof.
  unfold call_tool. eval_name_tests.
  set (na := mkdict [("path", VStr path); ("key", VStr key); ("value", VStr value)]).
  assert (H2 : na !! "path" = Some (VStr path)) by (vm_compute; reflexivity).
  assert (H3 : na !! "key" = Some (VStr key)) by (vm_compute; reflexivity).
  assert (H4 : na !! "value" = Some (VStr value)) by (vm_compute; reflexivity).
  assert (H5 : (size na =? 3)%nat = true) by (vm_compute; reflexivity).
  now rewrite H2, H3, H4, H5.
Qed.

(** C8 (as amended).  For every operation name and argument mapping,
    [dispatch_tool] returns a dictionary and never raises.  When the
    normalisation of the argument names returns: an unknown operation name
    gives [ok] false with the message [unknown tool <name>], and a known
    name with a required parameter missing gives [ok] false with a message
    that names the parameter.  A fault raised by the normalisation is
    turned into [ok] false with the message [tool execution error:
    <fault>].  A known name with its required parameters present invokes
    its operation on the normalised arguments: [tool_run_safe] and
    [tool_set_config_kv] on the arguments of their signature, the
    operation of that name outside otherwise; what the operation returns
    is returned, and a fault it raises is turned into [ok] false with the
    message [tool execution error: <fault>], in the world the operation
    left. *)
Theorem dispatch_tool_structured (name : string) (args : dict) (w : world W) :
  (exists r w', dispatch_tool O name args w = (Ret r, w')) /\
  (forall na w',
     normalize_args name args w = (Ret na, w') ->
     ~ In name (map fst KNOWN_TOOLS) ->
     dispatch_tool O name args w
     = (Ret (failure (txt "unknown tool " ++ txt name)), w)) /\
  (forall na w' required p,
     normalize_args name args w = (Ret na, w') ->
     In (name, required) KNOWN_TOOLS -> In p required ->
     has_key p na = false ->
     exists msg : string,
       dispatch_tool O name args w = (Ret (failure (txt msg)), w) /\
       startswith (txt "missing required parameter") (txt msg) = true /\
       contains (txt p) (txt msg) = true) /\
  (forall e w',
     normalize_args name args w = (Raise e, w') ->
     dispatch_tool O name args w
     = (Ret (failure (txt "tool execution error: " ++ e)), w)) /\
  (forall na w' required,
     normalize_args name args w = (Ret na, w') ->
     In (name, required) KNOWN_TOOLS ->
     (forall p, In p required -> has_key p na = true) ->
     let caught := fun operation : M W dict =>
       try_except operation
         (fun e => ret (failure (txt "tool execution error: " ++ e))) w in
     dispatch_tool O name args w = caught (call_tool O name na) /\
     (name <> "run_safe" -> name <> "set_config_kv" ->
      dispatch_tool O name args w = caught (ask (unmodelled_call O name na)) /\
      (forall r e', unmodelled_call O name na (env w) = (Ret r, e') ->
         dispatch_tool O name args w
         = (Ret r, World e' (trace w) (ALLOW_INSECURE w))) /\
      (forall e e', unmodelled_call O name na (env w) = (Raise e, e') ->
         dispatch_tool O name args w
         = (Ret (failure (txt "tool execution error: " ++ e)),
            World e' (trace w) (ALLOW_INSECURE w)))) /\
     (forall cmd, name = "run_safe" -> na = mkdict [("cmd", VStr cmd)] ->
        dispatch_tool O name args w = caught (tool_run_safe O cmd)) /\
     (forall path key value, name = "set_config_kv" ->
        na = mkdict [("path", VStr path); ("key", VStr key); ("value", VStr value)] ->
        dispatch_tool O name args w = caught (tool_set_config_kv O path key value))) /\
  (forall msg, failure msg !! "ok" = Some (VBool false)).
Proof.
  split; [apply dispatch_tool_returns|].
  split; [|split; [|split; [|split]]].
  - intros na w' Hnorm Hunknown.
    assert (w' = w) as -> by (rewrite <- (normalize_args_world name args w); now rewrite Hnorm).
    apply dispatch_tool_no_fault. now apply (dispatch_body_unknown O name args na).
  - intros na w' required p Hnorm Hknown Hp Hmissing.
    assert (w' = w) as -> by (rewrite <- (normalize_args_world name args w); now rewrite Hnorm).
    destruct (dispatch_body_missing O name p required args na w w Hknown Hp Hnorm Hmissing)
      as (msg & Hbody & Hmsg).
    exists msg. split; [now apply dispatch_tool_no_fault | exact Hmsg].
  - intros e w' Hnorm.
    assert (w' = w) as -> by (rewrite <- (normalize_args_world name args w); now rewrite Hnorm).
    apply dispatch_tool_fault. unfold dispatch_body. unfold bind at 1. now rewrite Hnorm.
  - intros na w' required Hnorm Hknown Hreq caught.
    assert (w' = w) as -> by (rewrite <- (normalize_args_world name args w); now rewrite Hnorm).
    pose proof (dispatch_tool_known name required args na w Hknown Hnorm Hreq) as Hcall.
    fold (caught (call_tool O name na)) in Hcall.
    split; [exact Hcall|]. split; [|split].
    + intros H1 H2. rewrite (call_tool_outside name na H1 H2) in Hcall.
      split; [exact Hcall|].
      split.
      * intros r e' Hop. rewrite Hcall. subst caught.
        unfold try_except, ask. now rewrite Hop.
      * intros e e' Hop. rewrite Hcall. subst caught.
        unfold try_except, ask. now rewrite Hop.
    + intros cmd -> ->. now rewrite call_tool_run_safe in Hcall.
    + intros path key value -> ->. now rewrite call_tool_set_config_kv in Hcall.
  - intros msg. reflexivity.
Qed.

End Dispatch.

(** An unknown name and a missing parameter on the quiet backend, and an
    operation that raises. *)
Lemma dispatch_tool_structured_witness :
  dispatch_tool quiet_outside "reboot" ∅ (fresh_world false)
  = (Ret (failure (txt "unknown tool reboot")), fresh_world false) /\
  (exists msg : string,
    dispatch_tool quiet_outside "write_file" (mkdict [("file_path", vtxt "/etc/motd")])
      (fresh_world false)
    = (Ret (failure (txt msg)), fresh_world false) /\
    startswith (txt "missing required parameter") (txt msg) = true /\
    contains (txt "content") (txt msg) = true) /\
  dispatch_tool (failing_outside (txt "boom")) "list_packages" ∅ (fresh_world false)
  = (Ret (failure (txt "tool execution error: boom")), fresh_world false).
Proof.
  split; [|split].
  - apply (proj1 (proj2 (dispatch_tool_structured quiet_outside "reboot" ∅
                           (fresh_world false))) ∅ (fresh_world false)).
    + reflexivity.
    + simpl. intuition discriminate.
  - apply (proj1 (proj2 (proj2 (dispatch_tool_structured quiet_outside "write_file"
                                  (mkdict [("file_path", vtxt "/etc/motd")])
                                  (fresh_world false))))
             (mkdict [("path", vtxt "/etc/motd")]) (fresh_world false)
             ["path"; "content"] "content").
    + vm_compute. reflexivity.
    + simpl. tauto.
    + simpl. tauto.
    + reflexivity.
  - refine (proj2 (proj2 (proj1 (proj2
              (proj1 (proj2 (proj2 (proj2 (proj2
                 (dispatch_tool_structured (failing_outside (txt "boom"))
                    "list_packages" ∅ (fresh_world false))))))
                 ∅ (fresh_world false) [] _ _ _)) _ _))
              (txt "boom") tt _).
    + reflexivity.
    + cbn. tauto.
    + intros p [].
    + discriminate.
    + discriminate.
    + reflexivity.
Defined.

(** C8 (as stated) fails: with a package list that holds a number, the
    normalisation faults before the name is looked at, and an unknown name
    is answered with the execution-error message. *)
Lemma dispatch_tool_unknown_name_fault :
  ~ In "reboot" (map fst KNOWN_TOOLS) /\
  dispatch_tool quiet_outside "reboot" (mkdict [("packages", VList [VInt 1])])
    (fresh_world false)
  = (Ret (failure (txt "tool execution error: sequence item 0: expected str instance, int found")),
     fresh_world false) /\
  failure (txt "tool execution error: sequence item 0: expected str instance, int found")
  <> failure (txt "unknown tool reboot").
Proof.
  split; [simpl; intuition discriminate|].
  split; [vm_compute; reflexivity|].
  intros H. apply (f_equal (fun d : dict => d !! "stderr")) in H.
  vm_compute in H. discriminate H.
Qed.

End DispatcherClaims.

(* ================================================================== *)
(** * Further facts about the configuration-line engine *)
(* ================================================================== *)

Module ConfigLineFacts.
Import ConfigLineIdempotence.

(** The lines that [set_config_line] writes out. *)
Lemma written_lines_spec (current key value : str) :
  let r := rewrite_lines (config_pat key) (kv_line key value) (splitlines current) in
  let out := if snd r then fst r else fst r ++ [kv_line key value] in
  In (kv_line key value) out /\
  Forall (fun l => l = kv_line key value \/ re_match (config_pat key) l = false) out /\
  (no_break key -> no_break value -> Forall no_break out).
Proof.
  intros r out. subst out.
  pose proof (rewrite_lines_result (config_pat key) (kv_line key value)
                (splitlines current)) as (Hall & Hin & HP).
  fold r in Hall, Hin, HP.
  assert (Hkv : no_break key -> no_break value -> no_break (kv_line key value)).
  { intros Hk Hv. unfold kv_line, no_break. rewrite !Forall_app.
    repeat split; try assumption. constructor; [reflexivity | constructor]. }
  destruct (snd r) eqn:Er.
  - split; [now apply Hin|]. split; [exact Hall|].
    intros Hk Hv. apply (HP no_break (Hkv Hk Hv) (splitlines_no_break current)).
  - split; [apply in_or_app; right; now left|].
    split.
    + apply Forall_app. split; [exact Hall | constructor; [now left | constructor]].
    + intros Hk Hv. apply Forall_app. split.
      * apply (HP no_break (Hkv Hk Hv) (splitlines_no_break current)).
      * constructor; [now apply Hkv | constructor].
Qed.

(** With a key and a value free of line boundaries, the new content splits
    back into exactly the lines that were written. *)
Lemma set_config_line_lines (current key value : str) :
  no_break key -> no_break value ->
  let r := rewrite_lines (config_pat key) (kv_line key value) (splitlines current) in
  splitlines (fst (set_config_line current key value))
  = if snd r then fst r else fst r ++ [kv_line key value].
Proof.
  intros Hkey Hvalue r.
  rewrite set_config_line_unfold. cbn [fst]. fold r.
  pose proof (written_lines_spec current key value) as (Hin & _ & Hnb).
  cbn zeta in Hin, Hnb. fold r in Hin, Hnb. specialize (Hnb Hkey Hvalue).
  set (out := if snd r then fst r else fst r ++ [kv_line key value]) in *.
  assert (Hne : out <> []) by (intros E; rewrite E in Hin; contradiction).
  assert (Hnl : endswith (List.last out []) [LF] = false).
  { apply no_break_not_endswith_LF.
    destruct out as [|l ls] using rev_ind; [congruence|].
    rewrite last_snoc. apply Forall_app in Hnb as [_ Hl]. now inversion Hl. }
  rewrite Hnl, andb_false_r. cbn [negb].
  now apply splitlines_join.
Qed.

(** The loop rewrites line by line. *)
Lemma rewrite_lines_nth (pat : regex) (kv : str) (lines : list str) (i : nat) :
  nth_error (fst (rewrite_lines pat kv lines)) i
  = option_map (fun l => if re_match pat l then kv else l) (nth_error lines i).
Proof.
  revert i. induction lines as [|l rest IH]; intros i; simpl.
  - now destruct i.
  - destruct (rewrite_lines pat kv rest) as [out found] eqn:E. simpl in IH.
    destruct (re_match pat l) eqn:El; destruct i; simpl; rewrite ?El;
      try reflexivity; apply IH.
Qed.

Lemma rewrite_lines_length (pat : regex) (kv : str) (lines : list str) :
  List.length (fst (rewrite_lines pat kv lines)) = List.length lines.
Proof.
  induction lines as [|l rest IH]; simpl; [reflexivity|].
  destruct (rewrite_lines pat kv rest) as [out found]. simpl in IH.
  destruct (re_match pat l); simpl; now rewrite IH.
Qed.

Lemma rewrite_lines_found (pat : regex) (kv : str) (lines : list str) :
  snd (rewrite_lines pat kv lines) = existsb (re_match pat) lines.
Proof.
  induction lines as [|l rest IH]; simpl; [reflexivity|].
  destruct (rewrite_lines pat kv rest) as [out found]. simpl in IH.
  destruct (re_match pat l); simpl; [reflexivity | exact IH].
Qed.

(** A literal matches itself. *)
Lemma lit_s_self (s rest : str) (k : cont) (prev : option ascii) :
  rmatch (lit_s s) k prev (s ++ rest)
  = k (List.last (map Some s) prev) rest.
Proof.
  unfold lit_s. revert prev. induction s as [|c s IH]; intros prev; simpl.
  - reflexivity.
  - rewrite ascii_eqb_refl. simpl. rewrite IH.
    destruct s as [|a s]; [reflexivity|].
    f_equal. apply last_default. discriminate.
Qed.

(** The pattern of [verify_config_line] matches the canonical line of a
    value that ends with a word character. *)
Lemma verify_pat_canonical (key value : str) (c : ascii) :
  is_word c = true ->
  re_match (verify_pat key (value ++ [c])) (kv_line key (value ++ [c])) = true.
Proof.
  intros Hc. unfold re_match, verify_pat, kv_line, ws0, ws1, Plus.
  cbn [seq rmatch]. apply star_go_skip.
  rewrite lit_s_self. cbn [app one_char].
  assert (Hsp : is_space SP = true) by reflexivity. rewrite Hsp. cbn [andb].
  apply star_go_skip.
  rewrite <- (app_nil_r (value ++ [c])) at 2. rewrite lit_s_self.
  rewrite map_app. cbn [map]. rewrite last_snoc.
  cbn [next_char word_opt accept]. rewrite Hc. reflexivity.
Qed.

(** Where a member of joined lines sits in the text. *)
Lemma join_member (lines : list str) (l : str) :
  In l lines ->
  exists pre rest,
    join [LF] lines = pre ++ l ++ rest /\
    (pre = [] \/ exists p, pre = p ++ [LF]) /\
    (rest = [] \/ exists r, rest = LF :: r).
Proof.
  induction lines as [|m lines IH]; [contradiction|]. intros Hin.
  destruct lines as [|n lines'].
  - destruct Hin as [<- | []]. exists [], []. rewrite app_nil_r.
    repeat split; now left.
  - change (join [LF] (m :: n :: lines')) with (m ++ [LF] ++ join [LF] (n :: lines')).
    destruct Hin as [<- | Hin].
    + exists [], (LF :: join [LF] (n :: lines')). repeat split; [now left|].
      right. now eexists.
    + destruct (IH Hin) as (pre & rest & Heq & Hpre & Hrest).
      exists (m ++ LF :: pre), rest. rewrite Heq. split.
      * rewrite <- !app_assoc. reflexivity.
      * split; [|exact Hrest]. right. destruct Hpre as [-> | [p ->]].
        -- now exists m.
        -- exists (m ++ LF :: p). now rewrite <- app_assoc.
Qed.

(** A document one of whose lines is the canonical line passes
    [verify_config_line]. *)
Lemma verify_config_line_member (lines : list str) (key value tail : str) (c : ascii) :
  is_word c = true ->
  In (kv_line key (value ++ [c])) lines ->
  tail = [] \/ tail = [LF] ->
  verify_config_line (join [LF] lines ++ tail) key (value ++ [c]) = true.
Proof.
  intros Hc Hin Htail.
  destruct (join_member lines _ Hin) as (pre & rest & Heq & Hpre & Hrest).
  rewrite Heq.
  assert (Hnext : word_opt (next_char (rest ++ tail)) = false).
  { destruct Hrest as [-> | [r ->]]; [|reflexivity].
    destruct Htail as [-> | ->]; reflexivity. }
  unfold verify_config_line, re_search.
  rewrite <- !app_assoc. apply search_go_app.
  apply verify_pat_in_document.
  - now apply verify_pat_canonical.
  - destruct Hpre as [-> | [p ->]]; [now left | right].
    rewrite map_app. simpl. apply last_snoc.
  - exact Hnext.
Qed.

(** With a key and a value free of line boundaries, the new content is
    its own lines joined, with one newline at the end. *)
Lemma set_config_line_canonical (current key value : str) :
  no_break key -> no_break value ->
  fst (set_config_line current key value)
  = join [LF] (splitlines (fst (set_config_line current key value))) ++ [LF].
Proof.
  intros Hkey Hvalue.
  rewrite (set_config_line_lines current key value Hkey Hvalue).
  rewrite set_config_line_unfold. cbn [fst].
  pose proof (written_lines_spec current key value) as (Hin & _ & Hnb).
  cbn zeta in Hin, Hnb. specialize (Hnb Hkey Hvalue).
  set (r := rewrite_lines (config_pat key) (kv_line key value) (splitlines current)) in *.
  set (out := if snd r then fst r else fst r ++ [kv_line key value]) in *.
  assert (Hnl : endswith (List.last out []) [LF] = false).
  { apply no_break_not_endswith_LF.
    destruct out as [|l ls] using rev_ind; [contradiction|].
    rewrite last_snoc. apply Forall_app in Hnb as [_ Hl]. now inversion Hl. }
  now rewrite Hnl, andb_false_r.
Qed.

(** A document in canonical form whose lines that carry the key are all
    the canonical line is left as it is. *)
Lemma set_config_line_fixed (content key value : str) :
  content = join [LF] (splitlines content) ++ [LF] ->
  re_match (config_pat key) (kv_line key value) = true ->
  In (kv_line key value) (splitlines content) ->
  Forall (fun l => l = kv_line key value \/ re_match (config_pat key) l = false)
         (splitlines content) ->
  set_config_line content key value = (content, false).
Proof.
  intros Hcanon Hmatch Hin Hall.
  rewrite set_config_line_unfold.
  destruct (rewrite_lines_fixed (config_pat key) (kv_line key value)
              (splitlines content) Hmatch Hall) as [Hfst Hsnd].
  rewrite (Hsnd Hin), Hfst.
  assert (Hnl : endswith (List.last (splitlines content) []) [LF] = false).
  { apply no_break_not_endswith_LF.
    pose proof (splitlines_no_break content) as Hnb.
    destruct (splitlines content) as [|l ls] using rev_ind; [contradiction|].
    rewrite last_snoc. apply Forall_app in Hnb as [_ Hl]. now inversion Hl. }
  rewrite Hnl, andb_false_r. cbn [negb]. rewrite <- Hcanon.
  assert (Hends : endswith content [LF] = true).
  { apply endswith_spec. exists (join [LF] (splitlines content)). exact Hcanon. }
  now rewrite Hends, str_eqb_refl.
Qed.

(** Where the lines of the new content come from. *)
Lemma set_config_line_line_origin (current key value l : str) :
  no_break key -> no_break value ->
  In l (splitlines (fst (set_config_line current key value))) ->
  l = kv_line key value \/ In l (splitlines current).
Proof.
  intros Hkey Hvalue.
  rewrite (set_config_line_lines current key value Hkey Hvalue).
  pose proof (rewrite_lines_result (config_pat key) (kv_line key value)
                (splitlines current)) as (_ & _ & HP).
  specialize (HP (fun l => l = kv_line key value \/ In l (splitlines current))
                 (or_introl eq_refl)).
  assert (Hall : Forall (fun l => l = kv_line key value \/ In l (splitlines current))
                        (splitlines current))
    by (apply List.Forall_forall; intros; now right).
  specialize (HP Hall). rewrite List.Forall_forall in HP.
  destruct (snd _); intros Hl.
  - now apply HP.
  - apply in_app_or in Hl as [Hl | [<- | []]]; [now apply HP | now left].
Qed.

(** A line that does not carry the key stays. *)
Lemma set_config_line_keeps_line (current key value l : str) :
  no_break key -> no_break value ->
  In l (splitlines current) -> re_match (config_pat key) l = false ->
  In l (splitlines (fst (set_config_line current key value))).
Proof.
  intros Hkey Hvalue Hl Hm.
  rewrite (set_config_line_lines current key value Hkey Hvalue).
  apply In_nth_error in Hl as [i Hi].
  assert (H : nth_error (fst (rewrite_lines (config_pat key) (kv_line key value)
                                (splitlines current))) i = Some l)
    by (rewrite rewrite_lines_nth, Hi; cbn [option_map]; now rewrite Hm).
  apply nth_error_In in H.
  destruct (snd _); [exact H | apply in_or_app; now left].
Qed.

(** X1.  After [set_config_line], [verify_config_line] finds the setting,
    for every document and key and every value that ends with a word
    character. *)
Theorem set_then_verify (current key value : str) (c : ascii) :
  is_word c = true ->
  verify_config_line (fst (set_config_line current key (value ++ [c])))
    key (value ++ [c]) = true.
Proof.
  intros Hc. rewrite set_config_line_unfold. cbn [fst].
  pose proof (written_lines_spec current key (value ++ [c])) as (Hin & _ & _).
  cbn zeta in Hin.
  apply verify_config_line_member; [exact Hc | exact Hin |].
  destruct (negb _); [now right | now left].
Qed.

Lemma set_then_verify_witness :
  is_word "o" = true /\
  verify_config_line
    (fst (set_config_line (txt "Port 22") (txt "PermitRootLogin") (txt "n" ++ ["o"%char])))
    (txt "PermitRootLogin") (txt "n" ++ ["o"%char]) = true.
Proof.
  split; [reflexivity|].
  apply (set_then_verify (txt "Port 22") (txt "PermitRootLogin") (txt "n") "o").
  reflexivity.
Defined.

(** X2.  With a key and a value free of line boundaries, the content that
    [set_config_line] returns holds the canonical line, and every line of
    it that the key's pattern matches is that canonical line: no stale or
    commented-out variant of the setting is left. *)
Theorem set_config_line_single_setting (current key value : str) :
  no_break key -> no_break value ->
  let lines := splitlines (fst (set_config_line current key value)) in
  In (kv_line key value) lines /\
  forall l, In l lines -> re_match (config_pat key) l = true ->
            l = kv_line key value.
Proof.
  intros Hkey Hvalue lines. subst lines.
  rewrite (set_config_line_lines current key value Hkey Hvalue).
  pose proof (written_lines_spec current key value) as (Hin & Hall & _).
  cbn zeta in Hin, Hall. split; [exact Hin|].
  intros l Hl Hm. rewrite List.Forall_forall in Hall.
  destruct (Hall l Hl) as [E | E]; [exact E | congruence].
Qed.

Lemma set_config_line_single_setting_witness :
  no_break (txt "Port") /\ no_break (txt "2222") /\
  let lines := splitlines (fst (set_config_line (txt "#port 22") (txt "Port") (txt "2222"))) in
  In (kv_line (txt "Port") (txt "2222")) lines /\
  forall l, In l lines -> re_match (config_pat (txt "Port")) l = true ->
            l = kv_line (txt "Port") (txt "2222").
Proof.
  assert (H1 : no_break (txt "Port")) by (repeat constructor).
  assert (H2 : no_break (txt "2222")) by (repeat constructor).
  split; [exact H1|]. split; [exact H2|].
  exact (set_config_line_single_setting (txt "#port 22") (txt "Port") (txt "2222") H1 H2).
Defined.

(** X3.  [set_config_line] works line by line: the line at each position of
    the old content is found at the same position of the new content,
    unchanged unless the key's pattern matches it, in which case the
    canonical line stands there. *)
Theorem set_config_line_positions (current key value l : str) (i : nat) :
  no_break key -> no_break value ->
  nth_error (splitlines current) i = Some l ->
  nth_error (splitlines (fst (set_config_line current key value))) i
  = Some (if re_match (config_pat key) l then kv_line key value else l).
Proof.
  intros Hkey Hvalue Hl.
  rewrite (set_config_line_lines current key value Hkey Hvalue).
  assert (H : nth_error (fst (rewrite_lines (config_pat key) (kv_line key value)
                                (splitlines current))) i
              = Some (if re_match (config_pat key) l then kv_line key value else l)).
  { rewrite rewrite_lines_nth, Hl. reflexivity. }
  destruct (snd _); [exact H|].
  rewrite nth_error_app1; [exact H|].
  apply nth_error_Some. rewrite H. discriminate.
Qed.

Lemma set_config_line_positions_witness :
  no_break (txt "Port") /\ no_break (txt "2222") /\
  nth_error (splitlines [LF; "a"%char; LF; "P"%char]) 1 = Some ["a"%char] /\
  nth_error (splitlines (fst (set_config_line [LF; "a"%char; LF; "P"%char]
                                (txt "Port") (txt "2222")))) 1
  = Some (if re_match (config_pat (txt "Port")) ["a"%char]
          then kv_line (txt "Port") (txt "2222") else ["a"%char]).
Proof.
  assert (H1 : no_break (txt "Port")) by (repeat constructor).
  assert (H2 : no_break (txt "2222")) by (repeat constructor).
  assert (H3 : nth_error (splitlines [LF; "a"%char; LF; "P"%char]) 1 = Some ["a"%char])
    by reflexivity.
  split; [exact H1|]. split; [exact H2|]. split; [exact H3|].
  exact (set_config_line_positions _ (txt "Port") (txt "2222") _ 1%nat H1 H2 H3).
Defined.

(** X4.  How many lines come out: as many as went in when some line
    carries the key, and otherwise the old lines followed by the canonical
    line. *)
Theorem set_config_line_appends (current key value : str) :
  no_break key -> no_break value ->
  let lines := splitlines current in
  let lines' := splitlines (fst (set_config_line current key value)) in
  if existsb (re_match (config_pat key)) lines
  then List.length lines' = List.length lines
  else lines' = lines ++ [kv_line key value].
Proof.
  intros Hkey Hvalue lines lines'. subst lines lines'.
  rewrite (set_config_line_lines current key value Hkey Hvalue).
  rewrite rewrite_lines_found.
  destruct (existsb _ _) eqn:E.
  - apply rewrite_lines_length.
  - f_equal. apply nth_error_ext. intros i. rewrite rewrite_lines_nth.
    destruct (nth_error (splitlines current) i) as [l|] eqn:El; [|reflexivity].
    simpl. destruct (re_match (config_pat key) l) eqn:Em; [|reflexivity].
    exfalso. apply nth_error_In in El.
    assert (existsb (re_match (config_pat key)) (splitlines current) = true)
      by (apply existsb_exists; eauto).
    congruence.
Qed.

Lemma set_config_line_appends_witness :
  no_break (txt "Port") /\ no_break (txt "2222") /\
  let lines := splitlines (txt "x") in
  let lines' := splitlines (fst (set_config_line (txt "x") (txt "Port") (txt "2222"))) in
  if existsb (re_match (config_pat (txt "Port"))) lines
  then List.length lines' = List.length lines
  else lines' = lines ++ [kv_line (txt "Port") (txt "2222")].
Proof.
  assert (H1 : no_break (txt "Port")) by (repeat constructor).
  assert (H2 : no_break (txt "2222")) by (repeat constructor).
  split; [exact H1|]. split; [exact H2|].
  exact (set_config_line_appends (txt "x") (txt "Port") (txt "2222") H1 H2).
Defined.

(** X5.  When [set_config_line] reports no change, the setting was there
    already: for a key and a value free of line boundaries, the value
    ending with a word character, [changed] false means that
    [verify_config_line] accepts the document as it was. *)
Theorem set_config_line_unchanged_verified (current key value : str) (c : ascii) :
  no_break key -> no_break (value ++ [c]) -> is_word c = true ->
  snd (set_config_line current key (value ++ [c])) = false ->
  verify_config_line current key (value ++ [c]) = true.
Proof.
  intros Hkey Hvalue Hc.
  pose proof (set_config_line_canonical current key (value ++ [c]) Hkey Hvalue) as Hcanon.
  pose proof (written_lines_spec current key (value ++ [c])) as (Hin & _ & _).
  cbn zeta in Hin.
  rewrite <- (set_config_line_lines current key (value ++ [c]) Hkey Hvalue) in Hin.
  destruct (set_config_line current key (value ++ [c])) as [new changed] eqn:Eset.
  cbn [fst snd] in *. intros ->.
  assert (Hsame : new = (if endswith current [LF] then current
                         else current ++ (if nonempty current then [LF] else []))).
  { unfold set_config_line in Eset.
    destruct (rewrite_lines _ _ _) as [out found].
    injection Eset as Hnew Hchanged. rewrite Hnew in Hchanged.
    apply negb_false_iff in Hchanged. now apply str_eqb_eq in Hchanged. }
  destruct (endswith current [LF]).
  - subst current. rewrite Hcanon.
    apply verify_config_line_member; [exact Hc | exact Hin | now right].
  - destruct current as [|a current]; cbn [nonempty] in Hsame.
    + rewrite app_nil_r in Hsame. rewrite Hsame in Hcanon.
      destruct (join [LF] (splitlines [])); discriminate Hcanon.
    + rewrite Hcanon in Hsame. apply app_inj_tail in Hsame as [Hsame _].
      rewrite <- Hsame, <- (app_nil_r (join _ _)).
      apply verify_config_line_member; [exact Hc | exact Hin | now left].
Qed.

Lemma set_config_line_unchanged_verified_witness :
  no_break (txt "Port") /\ no_break (txt "2" ++ ["2"%char]) /\ is_word "2" = true /\
  snd (set_config_line (txt "Port 22") (txt "Port") (txt "2" ++ ["2"%char])) = false /\
  verify_config_line (txt "Port 22") (txt "Port") (txt "2" ++ ["2"%char]) = true.
Proof.
  assert (H1 : no_break (txt "Port")) by (repeat constructor).
  assert (H2 : no_break (txt "2" ++ ["2"%char])) by (repeat constructor).
  assert (H3 : snd (set_config_line (txt "Port 22") (txt "Port") (txt "2" ++ ["2"%char]))
               = false) by (vm_compute; reflexivity).
  split; [exact H1|]. split; [exact H2|]. split; [reflexivity|]. split; [exact H3|].
  exact (set_config_line_unchanged_verified (txt "Port 22") (txt "Port") (txt "2") "2"
           H1 H2 eq_refl H3).
Defined.

End ConfigLineFacts.

(* ================================================================== *)
(** * Further facts about the command policy *)
(* ================================================================== *)

Module PolicyMoreFacts.

Lemma blank_no_separator (sep cmd : str) (c : ascii) (rest : str) :
  sep = c :: rest -> is_space c = false ->
  Forall (fun a => is_space a = true) cmd ->
  contains sep cmd = false.
Proof.
  intros -> Hc Hcmd. induction Hcmd as [|a cmd Ha _ IH]; [reflexivity|].
  cbn [contains startswith]. rewrite IH, orb_false_r.
  destruct (ascii_eqb c a) eqn:E; [|reflexivity].
  apply ascii_eqb_eq in E as ->. congruence.
Qed.

Lemma lstrip_blank (s : str) :
  Forall (fun a => is_space a = true) s -> lstrip s = [].
Proof.
  intros H. induction H as [|a s Ha _ IH]; [reflexivity|].
  cbn [lstrip]. now rewrite Ha.
Qed.

Section Gate.

Context {W : Type} (O : outside W).

(** X6.  An empty or blank command passes the check: a command made of
    white space only, the empty command included, is refused by no
    pattern test, because blank parts are skipped, and is handed to the
    executor as it is. *)
Theorem tool_run_safe_blank (cmd : str) (w : world W) :
  Forall (fun a => is_space a = true) cmd ->
  executed w (snd (tool_run_safe O cmd w)) [cmd].
Proof.
  intros Hblank. apply tool_run_safe_executes.
  assert (Hamp : contains (txt "&&") cmd = false)
    by (eapply blank_no_separator; [reflexivity | reflexivity | exact Hblank]).
  assert (Hsemi : contains (txt ";") cmd = false)
    by (eapply blank_no_separator; [reflexivity | reflexivity | exact Hblank]).
  unfold cmd_parts, split.
  rewrite (split_go_single (txt "&&") [] cmd Hamp). cbn [List.length Nat.eqb].
  rewrite (split_go_single (txt ";") [] cmd Hsemi). cbn [rev app].
  constructor; [|constructor].
  unfold offending, strip. rewrite (lstrip_blank cmd Hblank). reflexivity.
Qed.

End Gate.

Lemma tool_run_safe_blank_witness :
  Forall (fun a => is_space a = true) [SP; SP] /\
  executed (fresh_world false)
    (snd (tool_run_safe quiet_outside [SP; SP] (fresh_world false))) [[SP; SP]].
Proof.
  assert (H : Forall (fun a => is_space a = true) [SP; SP]) by (repeat constructor).
  split; [exact H|].
  exact (tool_run_safe_blank quiet_outside [SP; SP] (fresh_world false) H).
Defined.

End PolicyMoreFacts.

(* ================================================================== *)
(** * Facts about the catalogue of fixes *)
(* ================================================================== *)

Module FixesFacts.
Import ConfigLineIdempotence ConfigLineFacts.

Lemma known_lookup (fid : str) :
  known fid = true <-> exists f, lookup_fix fid FIXES = Some f.
Proof.
  unfold known. destruct (lookup_fix fid FIXES) as [f|].
  - split; [eauto | reflexivity].
  - split; [discriminate | intros [f Hf]; discriminate].
Qed.

Lemma lookup_fix_catalogue (fid : str) (f : entry) :
  lookup_fix fid FIXES = Some f -> In f (map snd FIXES).
Proof.
  generalize FIXES. intros cat. induction cat as [|[k g] cat IH]; simpl.
  - discriminate.
  - destruct (str_eqb fid k); [intros [= ->]; now left | intros H; right; now apply IH].
Qed.

(** What the proofs below need of the entries of [FIXES]. *)
Lemma catalogue_entry (f : entry) :
  In f (map snd FIXES) ->
  no_break (fix_key f) /\ no_break (fix_value f) /\
  re_match (config_pat (fix_key f)) (canonical_line f) = true /\
  exists v c, fix_value f = v ++ [c] /\ is_word c = true.
Proof.
  intros [<- | [<- | []]]; cbn [fix_key fix_value canonical_line].
  - repeat split; try (repeat constructor); try (vm_compute; reflexivity).
    exists (txt "n"), "o"%char. split; reflexivity.
  - repeat split; try (repeat constructor); try (vm_compute; reflexivity).
    exists (txt "n"), "o"%char. split; reflexivity.
Qed.

Lemma catalogue_apart (f g : entry) :
  In f (map snd FIXES) -> In g (map snd FIXES) ->
  f = g \/ re_match (config_pat (fix_key g)) (canonical_line f) = false.
Proof.
  intros [<- | [<- | []]] [<- | [<- | []]];
    try (now left); right; vm_compute; reflexivity.
Qed.

Lemma settled_new (f : entry) (content : str) :
  In f (map snd FIXES) ->
  settled f (fst (set_config_line content (fix_key f) (fix_value f))).
Proof.
  intros Hf. destruct (catalogue_entry f Hf) as (Hk & Hv & _).
  unfold settled. rewrite (set_config_line_lines content _ _ Hk Hv).
  pose proof (written_lines_spec content (fix_key f) (fix_value f)) as (Hin & Hall & _).
  split; [exact Hin | exact Hall].
Qed.

Lemma settled_step (f g : entry) (content : str) :
  In f (map snd FIXES) -> In g (map snd FIXES) ->
  settled f content ->
  settled f (fst (set_config_line content (fix_key g) (fix_value g))).
Proof.
  intros Hf Hg [Hin Hall].
  destruct (catalogue_apart f g Hf Hg) as [<- | Hfg]; [now apply settled_new|].
  destruct (catalogue_apart g f Hg Hf) as [<- | Hgf]; [now apply settled_new|].
  destruct (catalogue_entry g Hg) as (Hk & Hv & _).
  split.
  - now apply set_config_line_keeps_line.
  - apply List.Forall_forall. intros l Hl.
    destruct (set_config_line_line_origin content _ _ l Hk Hv Hl) as [-> | Hold].
    + right. exact Hgf.
    + rewrite List.Forall_forall in Hall. now apply Hall.
Qed.

Section Loops.

Variable repr : str -> str.

(** The loop of [apply_fixes] on known identifiers: it returns, every fix
    it was asked for is in place, and so is every fix of the catalogue that
    was in place before. *)
Lemma apply_loop_settles (fix_ids : list str) :
  forall (content : str) (changed_any : bool),
  forallb known fix_ids = true ->
  exists content' changed_any',
    apply_loop repr fix_ids content changed_any = Ret (content', changed_any') /\
    (forall f, In f (map snd FIXES) -> settled f content -> settled f content') /\
    (forall fid, In fid fix_ids ->
       exists f, lookup_fix fid FIXES = Some f /\ settled f content') /\
    (fix_ids <> [] -> content' = join [LF] (splitlines content') ++ [LF]).
Proof.
  induction fix_ids as [|fid rest IH]; intros content changed_any Hknown.
  - exists content, changed_any.
    split; [reflexivity|]. split; [tauto|]. split; [intros fid []|congruence].
  - cbn [forallb] in Hknown. apply andb_true_iff in Hknown as [Hfid Hrest].
    apply known_lookup in Hfid as [g Hg].
    pose proof (lookup_fix_catalogue fid g Hg) as Hcat.
    cbn [apply_loop]. rewrite Hg.
    destruct (set_config_line content (fix_key g) (fix_value g))
      as [content1 changed] eqn:Eset.
    assert (Hc1 : content1 = fst (set_config_line content (fix_key g) (fix_value g)))
      by now rewrite Eset.
    destruct (IH content1 (changed_any || changed) Hrest)
      as (content' & flag' & Hrun & Hkeep & Hids & Hcanon).
    exists content', flag'. split; [exact Hrun|]. split; [|split].
    + intros f Hf Hs. apply Hkeep; [exact Hf|]. rewrite Hc1. now apply settled_step.
    + intros fid' [<- | Hin].
      * exists g. split; [exact Hg|]. apply Hkeep; [exact Hcat|].
        rewrite Hc1. now apply settled_new.
      * now apply Hids.
    + intros _. destruct rest as [|fid2 rest'].
      * cbn [apply_loop] in Hrun. injection Hrun as <- _.
        rewrite Hc1. destruct (catalogue_entry g Hcat) as (Hk & Hv & _).
        now apply set_config_line_canonical.
      * apply Hcanon. discriminate.
Qed.

Lemma settled_verifies (f : entry) (content : str) :
  In f (map snd FIXES) ->
  content = join [LF] (splitlines content) ++ [LF] ->
  settled f content ->
  verify_config_line content (fix_key f) (fix_value f) = true.
Proof.
  intros Hf Hcanon [Hin _].
  destruct (catalogue_entry f Hf) as (_ & _ & _ & v & c & Hv & Hc).
  rewrite Hcanon. unfold canonical_line in Hin. rewrite Hv in *.
  apply verify_config_line_member; [exact Hc | exact Hin | now right].
Qed.

(** X7.  The content that the loop of [apply_fixes] computes for known
    identifiers passes the loop of [verify_fixes] for the same
    identifiers: no fix is reported as failed. *)
Theorem applied_fixes_verify (fix_ids : list str) (original : str) :
  forallb known fix_ids = true ->
  exists content changed_any,
    apply_loop repr fix_ids original false = Ret (content, changed_any) /\
    verify_loop repr fix_ids content = Ret [].
Proof.
  intros Hknown.
  destruct (apply_loop_settles fix_ids original false Hknown)
    as (content & flag & Hrun & _ & Hids & Hcanon).
  exists content, flag. split; [exact Hrun|].
  assert (Hall : forall fid, In fid fix_ids ->
            exists f, lookup_fix fid FIXES = Some f /\
                      verify_config_line content (fix_key f) (fix_value f) = true).
  { intros fid Hin. destruct (Hids fid Hin) as (f & Hf & Hs).
    exists f. split; [exact Hf|].
    apply settled_verifies; [now apply (lookup_fix_catalogue fid) | | exact Hs].
    apply Hcanon. intros ->. contradiction. }
  clear Hrun Hids Hcanon Hknown.
  induction fix_ids as [|fid rest IH]; [reflexivity|].
  cbn [verify_loop].
  destruct (Hall fid (or_introl eq_refl)) as (f & -> & ->).
  rewrite IH; [reflexivity|]. intros fid' Hin. apply Hall. now right.
Qed.

(** X8.  Applying the fixes again changes nothing: on the content that the
    loop of [apply_fixes] computed, the same loop returns that content and
    reports no change. *)
Theorem apply_loop_idempotent (fix_ids : list str) (original content : str)
    (changed_any : bool) :
  forallb known fix_ids = true ->
  apply_loop repr fix_ids original false = Ret (content, changed_any) ->
  apply_loop repr fix_ids content false = Ret (content, false).
Proof.
  intros Hknown Hrun.
  destruct (apply_loop_settles fix_ids original false Hknown)
    as (content' & flag & Hrun' & _ & Hids & Hcanon).
  rewrite Hrun in Hrun'. injection Hrun' as <- <-.
  assert (Hall : forall fid, In fid fix_ids ->
            exists f, lookup_fix fid FIXES = Some f /\
                      set_config_line content (fix_key f) (fix_value f)
                      = (content, false)).
  { intros fid Hin. destruct (Hids fid Hin) as (f & Hf & Hin' & Hall').
    exists f. split; [exact Hf|].
    pose proof (lookup_fix_catalogue fid f Hf) as Hcat.
    destruct (catalogue_entry f Hcat) as (_ & _ & Hm & _).
    apply set_config_line_fixed; try assumption.
    apply Hcanon. intros ->. contradiction. }
  clear Hrun Hids Hcanon Hknown.
  induction fix_ids as [|fid rest IH]; [reflexivity|].
  cbn [apply_loop].
  destruct (Hall fid (or_introl eq_refl)) as (f & -> & ->).
  cbn [orb]. apply IH. intros fid' Hin. apply Hall. now right.
Qed.

End Loops.

Lemma applied_fixes_verify_witness :
  let fix_ids := [txt "ssh_disable_root"; txt "ssh_disable_password_auth"] in
  forallb known fix_ids = true /\
  exists content changed_any,
    apply_loop (fun s => s) fix_ids (txt "#PermitRootLogin yes") false
    = Ret (content, changed_any) /\
    verify_loop (fun s => s) fix_ids content = Ret [].
Proof.
  cbn zeta.
  assert (H : forallb known [txt "ssh_disable_root"; txt "ssh_disable_password_auth"]
              = true) by reflexivity.
  split; [exact H|].
  exact (applied_fixes_verify (fun s => s) _ (txt "#PermitRootLogin yes") H).
Defined.

Lemma apply_loop_idempotent_witness :
  let fix_ids := [txt "ssh_disable_root"] in
  let content := txt "PermitRootLogin no" ++ [LF] in
  forallb known fix_ids = true /\
  apply_loop (fun s => s) fix_ids (txt "#PermitRootLogin yes") false
  = Ret (content, true) /\
  apply_loop (fun s => s) fix_ids content false = Ret (content, false).
Proof.
  cbn zeta.
  assert (H1 : forallb known [txt "ssh_disable_root"] = true) by reflexivity.
  assert (H2 : apply_loop (fun s => s) [txt "ssh_disable_root"]
                 (txt "#PermitRootLogin yes") false
               = Ret (txt "PermitRootLogin no" ++ [LF], true))
    by (vm_compute; reflexivity).
  split; [exact H1|]. split; [exact H2|].
  exact (apply_loop_idempotent (fun s => s) _ _ _ _ H1 H2).
Defined.

Lemma known_spec (fid : str) :
  known fid = existsb (str_eqb fid) (map fst FIXES).
Proof.
  unfold known. cbn [FIXES lookup_fix map fst existsb].
  destruct (str_eqb fid (txt "ssh_disable_root")); [reflexivity|].
  destruct (str_eqb fid (txt "ssh_disable_password_auth")); reflexivity.
Qed.

Lemma existsb_str_eqb (x : str) (l : list str) :
  existsb (str_eqb x) l = true <-> In x l.
Proof.
  rewrite existsb_exists. split.
  - intros (y & Hy & E). apply str_eqb_eq in E. now subst.
  - intros H. exists x. split; [exact H | apply str_eqb_refl].
Qed.

Lemma filter_none {A : Type} (f : A -> bool) (l : list A) :
  (forall x, In x l -> f x = false) -> List.filter f l = [].
Proof.
  intros H. induction l as [|x l IH]; [reflexivity|]. cbn [List.filter].
  rewrite (H x (or_introl eq_refl)). apply IH. intros y Hy. apply H. now right.
Qed.

Lemma all_not_selected (selected : list str) :
  ~ In (txt "all") selected -> existsb (str_eqb (txt "all")) selected = false.
Proof.
  intros H. destruct (existsb _ selected) eqn:E; [|reflexivity].
  apply existsb_str_eqb in E. contradiction.
Qed.

(** X9.  What [resolve_fixes] answers, case by case.  An empty selection
    gives the default fix.  A selection that holds [all] gives the keys of
    the catalogue, in its order, whatever else it holds.  Any other
    selection is returned as it is when all its identifiers are in the
    catalogue; when one is not, the process is ended with status 1 and a
    message that lists the unknown identifiers, in the order of the
    selection, and the known ones.  So a returned list is never empty and
    holds only identifiers of the catalogue. *)
Theorem resolve_fixes_known (selected : list str) :
  resolve_fixes [] = Returned [txt "ssh_disable_root"] /\
  (In (txt "all") selected ->
   resolve_fixes selected
   = Returned [txt "ssh_disable_root"; txt "ssh_disable_password_auth"]) /\
  (selected <> [] -> ~ In (txt "all") selected ->
   (forall fid, In fid selected ->
                In fid [txt "ssh_disable_root"; txt "ssh_disable_password_auth"]) ->
   resolve_fixes selected = Returned selected) /\
  (~ In (txt "all") selected ->
   forall fid, In fid selected ->
               ~ In fid [txt "ssh_disable_root"; txt "ssh_disable_password_auth"] ->
   resolve_fixes selected
   = Exited (txt "Unknown fix id(s): "
             ++ join (txt ", ")
                  (List.filter
                     (fun f => negb (existsb (str_eqb f)
                                       [txt "ssh_disable_root";
                                        txt "ssh_disable_password_auth"]))
                     selected)
             ++ txt ". Known: ssh_disable_root, ssh_disable_password_auth") 1) /\
  (forall fix_ids, resolve_fixes selected = Returned fix_ids ->
   fix_ids <> [] /\
   forall fid, In fid fix_ids ->
               In fid [txt "ssh_disable_root"; txt "ssh_disable_password_auth"]).
Proof.
  assert (Hfilter : List.filter (fun f => negb (known f)) selected
                    = List.filter
                        (fun f => negb (existsb (str_eqb f)
                                          [txt "ssh_disable_root";
                                           txt "ssh_disable_password_auth"]))
                        selected).
  { apply filter_ext. intros f. now rewrite known_spec. }
  split; [reflexivity|]. split; [|split; [|split]].
  - intros Hall. unfold resolve_fixes.
    destruct selected as [|s0 rest]; [contradiction|]. cbn [nonempty negb].
    apply existsb_str_eqb in Hall. now rewrite Hall.
  - intros Hne Hall Hknown. unfold resolve_fixes.
    destruct selected as [|s0 rest]; [congruence|]. cbn [nonempty negb].
    rewrite (all_not_selected _ Hall), Hfilter.
    assert (Hnone : List.filter
                      (fun f => negb (existsb (str_eqb f)
                                        [txt "ssh_disable_root";
                                         txt "ssh_disable_password_auth"]))
                      (s0 :: rest) = []).
    { apply filter_none. intros x Hx.
      apply negb_false_iff, existsb_str_eqb, Hknown, Hx. }
    now rewrite Hnone.
  - intros Hall fid Hin Hunknown. unfold resolve_fixes.
    destruct selected as [|s0 rest]; [contradiction|]. cbn [nonempty negb].
    rewrite (all_not_selected _ Hall), Hfilter.
    assert (Hbad : In fid (List.filter
                             (fun f => negb (existsb (str_eqb f)
                                               [txt "ssh_disable_root";
                                                txt "ssh_disable_password_auth"]))
                             (s0 :: rest))).
    { apply filter_In. split; [exact Hin|].
      destruct (existsb (str_eqb fid) _) eqn:E; [|reflexivity].
      apply existsb_str_eqb in E. contradiction. }
    clear Hfilter.
    destruct (List.filter _ (s0 :: rest)) as [|b bad]; [destruct Hbad|].
    reflexivity.
  - intros fix_ids. unfold resolve_fixes.
    destruct selected as [|s0 rest]; cbn [nonempty negb].
    + intros [= <-]. split; [discriminate|]. intros fid [<- | []]. now left.
    + destruct (existsb (str_eqb (txt "all")) (s0 :: rest)).
      * intros [= <-]. split; [discriminate|]. intros fid Hfid. exact Hfid.
      * destruct (List.filter (fun f => negb (known f)) (s0 :: rest))
          as [|b bad] eqn:Ebad; cbn [nonempty]; [|discriminate].
        intros [= <-]. split; [discriminate|]. intros fid Hfid.
        apply (existsb_str_eqb fid (map fst FIXES)). rewrite <- known_spec.
        destruct (known fid) eqn:Ek; [reflexivity|]. exfalso.
        assert (H : In fid (List.filter (fun f => negb (known f)) (s0 :: rest)))
          by (apply filter_In; split; [exact Hfid | now rewrite Ek]).
        rewrite Ebad in H. contradiction.
Qed.

Lemma resolve_fixes_known_witness :
  resolve_fixes [txt "all"; txt "bogus"]
  = Returned [txt "ssh_disable_root"; txt "ssh_disable_password_auth"] /\
  resolve_fixes [txt "ssh_disable_root"; txt "bogus"]
  = Exited (txt "Unknown fix id(s): bogus. Known: ssh_disable_root, ssh_disable_password_auth")
      1.
Proof.
  split.
  - apply (proj1 (proj2 (resolve_fixes_known [txt "all"; txt "bogus"]))). now left.
  - apply (proj1 (proj2 (proj2 (proj2
             (resolve_fixes_known [txt "ssh_disable_root"; txt "bogus"]))))
             ltac:(cbn; intuition discriminate) (txt "bogus")
             ltac:(right; now left) ltac:(cbn; intuition discriminate)).
Defined.

Section Run.

Context {W : Type} (O : outside W).
Variable repr : str -> str.
Variable unified_diff_str : str -> str -> str -> str.

(** X10.  The calls [apply_fixes] makes, from what the container answers.
    It reads the target file with the command of [read_file] and runs its
    loop on what was read.  When no fix changes the content this is all:
    it returns [False] and the empty diff, nothing is written, no backup
    is made and the service is not reloaded.  Otherwise the read is
    followed by the three commands of [write_file_atomic] on the content
    of the loop and then by the reload command, which comes last, and the
    diff of the old and the new content is returned with [True]. *)
Theorem apply_fixes_calls (fix_ids : list str) (w : world W)
    (rc : Z) (out err : str) (e1 : W) (content : str) (changed_any : bool) :
  docker_oracle O (read_command O TARGET_FILE) (env w) = (Ret (rc, out, err), e1) ->
  let original := if (rc =? 0) || (rc =? 1) then out else [] in
  apply_loop repr fix_ids original false = Ret (content, changed_any) ->
  (changed_any = false ->
   apply_fixes repr O unified_diff_str fix_ids w
   = (Ret (false, []),
      World e1 (trace w ++ [EvDockerExec (read_command O TARGET_FILE)])
            (ALLOW_INSECURE w))) /\
  (changed_any = true ->
   forall (ts : Z) (e2 e3 e4 e5 e6 : W) (r1 r2 r3 r4 : Z * str * str),
     clock O e1 = (ts, e2) ->
     docker_oracle O (mkdir_command O TARGET_FILE) e2 = (Ret r1, e3) ->
     docker_oracle O (backup_command O TARGET_FILE ts) e3 = (Ret r2, e4) ->
     docker_oracle O (store_command O TARGET_FILE content) e4 = (Ret r3, e5) ->
     docker_oracle O
       (txt "systemctl reload ssh || service ssh reload || true || /bin/true") e5
     = (Ret r4, e6) ->
     apply_fixes repr O unified_diff_str fix_ids w
     = (Ret (true, unified_diff_str original content TARGET_FILE),
        World e6
          (trace w ++ map EvDockerExec
                        [read_command O TARGET_FILE;
                         mkdir_command O TARGET_FILE;
                         backup_command O TARGET_FILE ts;
                         store_command O TARGET_FILE content;
                         txt "systemctl reload ssh || service ssh reload || true || /bin/true"])
          (ALLOW_INSECURE w))).
Proof.
  intros Hread original Hloop.
  split.
  - intros ->. unfold apply_fixes. unfold bind at 1.
    rewrite (read_file_run O _ _ _ _ _ _ Hread). fold original.
    unfold bind at 1. unfold lift at 1. rewrite Hloop. reflexivity.
  - intros -> ts e2 e3 e4 e5 e6 r1 r2 r3 r4 Hclock H1 H2 H3 H4.
    unfold apply_fixes. unfold bind at 1.
    rewrite (read_file_run O _ _ _ _ _ _ Hread). fold original.
    unfold bind at 1. unfold lift at 1. rewrite Hloop. cbn [negb].
    unfold bind at 1.
    rewrite (write_file_atomic_run O TARGET_FILE content _ _ _ ts e2 e3 e4 e5 r1 r2 r3
               Hclock H1 H2 H3).
    unfold bind at 1. unfold reload_command.
    rewrite (docker_exec_run O _ _ _ _ _ _ H4).
    unfold ret. cbn [map]. now rewrite <- !app_assoc.
Qed.

End Run.

Lemma apply_fixes_calls_witness :
  apply_fixes (fun s => s) quiet_outside (fun _ _ _ => [])
    [txt "ssh_disable_root"] (fresh_world false)
  = (Ret (true, []),
     World tt
       (map EvDockerExec
          [txt "test -f /etc/ssh/sshd_config && cat /etc/ssh/sshd_config || true";
           txt "mkdir -p /";
           txt "test -f /etc/ssh/sshd_config && cp /etc/ssh/sshd_config /etc/ssh/sshd_config.bak.0 || true";
           txt "echo PermitRootLogin no" ++ [LF]
           ++ txt " | base64 -d > /tmp/.nomanai.tmp && mv /tmp/.nomanai.tmp /etc/ssh/sshd_config";
           txt "systemctl reload ssh || service ssh reload || true || /bin/true"])
       false).
Proof.
  apply (proj2 (apply_fixes_calls quiet_outside (fun s => s) (fun _ _ _ => [])
                  [txt "ssh_disable_root"] (fresh_world false) 0 [] [] tt
                  (txt "PermitRootLogin no" ++ [LF]) true eq_refl eq_refl)
           eq_refl 0 tt tt tt tt tt (0, [], []) (0, [], []) (0, [], []) (0, [], []));
    reflexivity.
Defined.

End FixesFacts.

(* ================================================================== *)
(** * Facts about the file tools *)
(* ================================================================== *)

Module FileToolsFacts.

Section Backend.

Context {W : Type} (O : outside W).

(** X11.  [tool_write_file] never writes to a relative path: the path handed
    to [write_file_atomic] starts with a slash, whatever the path given,
    and a path that is already absolute is used as it is. *)
Theorem write_target_absolute (path : str) :
  startswith (txt "/") (write_target path) = true /\
  (startswith (txt "/") path = true -> write_target path = path).
Proof.
  unfold write_target, expand_home.
  destruct (startswith (txt "~/") path) eqn:E1.
  - split; [reflexivity|].
    destruct path as [|c path]; [discriminate|].
    cbn in E1. cbn. destruct (ascii_eqb "~" c) eqn:Ec; [|discriminate].
    apply ascii_eqb_eq in Ec as <-. discriminate.
  - destruct (str_eqb path (txt "~")) eqn:E2.
    + split; [reflexivity|]. apply str_eqb_eq in E2 as ->. discriminate.
    + destruct (startswith (txt "/") path) eqn:E3; cbn [negb]; now split.
Qed.

(** X12.  [tool_write_file] does not look at the return codes.  After the
    clock is read it hands the three commands of [write_file_atomic] to
    [docker_exec], for the path of [write_target] and the content given:
    when all three return, whatever their return codes and output, the
    result is [ok] true; when one raises, the commands after it are not
    issued and the result is [ok] false with the message
    [Error writing file <path>: <exception>]. *)
Theorem tool_write_file_outcome (path content : str) (w : world W)
    (ts : Z) (e1 : W) :
  clock O (env w) = (ts, e1) ->
  let target := write_target path in
  let error := fun e : str =>
    failure (txt "Error writing file " ++ target ++ txt ": " ++ e) in
  (forall (e2 e3 e4 : W) (r1 r2 r3 : Z * str * str),
     docker_oracle O (mkdir_command O target) e1 = (Ret r1, e2) ->
     docker_oracle O (backup_command O target ts) e2 = (Ret r2, e3) ->
     docker_oracle O (store_command O target content) e3 = (Ret r3, e4) ->
     tool_write_file O path content w
     = (Ret (mkdict [("ok", VBool true)]),
        World e4 (trace w ++ map EvDockerExec [mkdir_command O target;
                                               backup_command O target ts;
                                               store_command O target content])
              (ALLOW_INSECURE w))) /\
  (forall (e2 : W) (e : str),
     docker_oracle O (mkdir_command O target) e1 = (Raise e, e2) ->
     tool_write_file O path content w
     = (Ret (error e),
        World e2 (trace w ++ map EvDockerExec [mkdir_command O target])
              (ALLOW_INSECURE w))) /\
  (forall (e2 e3 : W) (r1 : Z * str * str) (e : str),
     docker_oracle O (mkdir_command O target) e1 = (Ret r1, e2) ->
     docker_oracle O (backup_command O target ts) e2 = (Raise e, e3) ->
     tool_write_file O path content w
     = (Ret (error e),
        World e3 (trace w ++ map EvDockerExec [mkdir_command O target;
                                               backup_command O target ts])
              (ALLOW_INSECURE w))) /\
  (forall (e2 e3 e4 : W) (r1 r2 : Z * str * str) (e : str),
     docker_oracle O (mkdir_command O target) e1 = (Ret r1, e2) ->
     docker_oracle O (backup_command O target ts) e2 = (Ret r2, e3) ->
     docker_oracle O (store_command O target content) e3 = (Raise e, e4) ->
     tool_write_file O path content w
     = (Ret (error e),
        World e4 (trace w ++ map EvDockerExec [mkdir_command O target;
                                               backup_command O target ts;
                                               store_command O target content])
              (ALLOW_INSECURE w))).
Proof.
  intros Hclock target error. destruct w as [e0 tr allow].
  cbn [env trace ALLOW_INSECURE] in *.
  unfold tool_write_file, try_except. fold target.
  split; [|split; [|split]].
  - intros e2 e3 e4 r1 r2 r3 H1 H2 H3. unfold bind at 1.
    now rewrite (write_file_atomic_run O target content _ _ _ ts e1 e2 e3 e4 r1 r2 r3
                   Hclock H1 H2 H3).
  - intros e2 e H1. unfold bind at 1.
    now rewrite (write_file_atomic_raise_mkdir O target content _ _ _ ts e1 e2 e
                   Hclock H1).
  - intros e2 e3 r1 e H1 H2. unfold bind at 1.
    now rewrite (write_file_atomic_raise_backup O target content _ _ _ ts e1 e2 e3 r1 e
                   Hclock H1 H2).
  - intros e2 e3 e4 r1 r2 e H1 H2 H3. unfold bind at 1.
    now rewrite (write_file_atomic_raise_store O target content _ _ _ ts e1 e2 e3 e4
                   r1 r2 e Hclock H1 H2 H3).
Qed.

Lemma expand_home_absolute (path : str) :
  startswith (txt "/") path = true -> expand_home path = None.
Proof.
  intros Habs. unfold expand_home.
  assert (E1 : startswith (txt "~/") path = false).
  { destruct path as [|c path]; [reflexivity|]. cbn in Habs |- *.
    destruct (ascii_eqb "/" c) eqn:Ec; [|discriminate].
    apply ascii_eqb_eq in Ec as <-. reflexivity. }
  assert (E2 : str_eqb path (txt "~") = false).
  { destruct (str_eqb path (txt "~")) eqn:E; [|reflexivity].
    apply str_eqb_eq in E as ->. discriminate. }
  now rewrite E1, E2.
Qed.

(** X13.  For an absolute path [tool_read_file] makes the one call of
    [read_file] and never reports a missing file: when the call of
    [docker_exec] returns, the result is [ok] true with the output as
    content if the return code is 0 or 1 and with the empty string
    otherwise, which is also what a missing file gives; only when
    [docker_exec] raises is the result [ok] false, with the message
    [Error reading file <path>: <exception>]. *)
Theorem tool_read_file_absolute (path : str) (w : world W) :
  startswith (txt "/") path = true ->
  (forall (rc : Z) (out err : str) (e1 : W),
     docker_oracle O (read_command O path) (env w) = (Ret (rc, out, err), e1) ->
     tool_read_file O path w
     = (Ret (found (if (rc =? 0) || (rc =? 1) then out else [])),
        World e1 (trace w ++ [EvDockerExec (read_command O path)])
              (ALLOW_INSECURE w))) /\
  (forall (e : str) (e1 : W),
     docker_oracle O (read_command O path) (env w) = (Raise e, e1) ->
     tool_read_file O path w
     = (Ret (failure (txt "Error reading file " ++ path ++ txt ": " ++ e)),
        World e1 (trace w ++ [EvDockerExec (read_command O path)])
              (ALLOW_INSECURE w))).
Proof.
  intros Habs. unfold tool_read_file.
  rewrite (expand_home_absolute path Habs), Habs. cbn [negb].
  unfold try_except. split.
  - intros rc out err e1 Hread. unfold bind at 1.
    now rewrite (read_file_run O _ _ _ _ _ _ Hread).
  - intros e e1 Hread. unfold bind at 1.
    now rewrite (read_file_raise O _ _ _ _ Hread).
Qed.

(** The reads of [read_relative] that come back empty are passed over. *)
Lemma read_relative_unfold (path : str) (w : world W) :
  read_relative O path w
  = match read_file O (txt "/root/" ++ path) w with
    | (Ret (c :: s), w1) => (Ret (found (c :: s)), w1)
    | (Raise e, w1) => (Raise e, w1)
    | (Ret [], w1) =>
        match read_file O (txt "/" ++ path) w1 with
        | (Ret (c :: s), w2) => (Ret (found (c :: s)), w2)
        | (Raise e, w2) => (Raise e, w2)
        | (Ret [], w2) =>
            match read_file O path w2 with
            | (Ret (c :: s), w3) => (Ret (found (c :: s)), w3)
            | (Raise e, w3) => (Raise e, w3)
            | (Ret [], w3) =>
                (Ret (mkdict
                        [("ok", VBool false);
                         ("stderr",
                          VStr (txt "File not found in /root/, /, or current directory: "
                                ++ path))]), w3)
            end
        end
    end.
Proof.
  unfold read_relative. unfold bind at 1.
  destruct (read_file O (txt "/root/" ++ path) w) as [[[|c1 s1]|e] w1];
    [|reflexivity|reflexivity].
  cbn [nonempty]. unfold bind at 1.
  destruct (read_file O (txt "/" ++ path) w1) as [[[|c2 s2]|e] w2];
    [|reflexivity|reflexivity].
  cbn [nonempty]. unfold bind at 1.
  destruct (read_file O path w2) as [[[|c3 s3]|e] w3]; reflexivity.
Qed.

(** X14.  For a relative path [tool_read_file] reads, with [read_file],
    the file under [/root/], then under [/], then the path as it is, and
    stops at the first read that does not give the empty string: that
    content is returned with [ok] true.  When the three reads are empty
    the result is [ok] false with the message [File not found in /root/,
    /, or current directory: <path>], so an empty file is reported as not
    found.  When a read raises, no further place is tried and the result
    is [ok] false with [Error reading file <path>: <exception>]. *)
Theorem tool_read_file_relative (path : str) (w : world W) :
  expand_home path = None -> startswith (txt "/") path = false ->
  let places := [txt "/root/" ++ path; txt "/" ++ path; path] in
  (forall (before after : list str) (place content : str) (w1 w2 : world W),
     places = before ++ place :: after ->
     empty_reads O before w w1 ->
     read_file O place w1 = (Ret content, w2) -> content <> [] ->
     tool_read_file O path w = (Ret (found content), w2)) /\
  (forall (before after : list str) (place e : str) (w1 w2 : world W),
     places = before ++ place :: after ->
     empty_reads O before w w1 ->
     read_file O place w1 = (Raise e, w2) ->
     tool_read_file O path w
     = (Ret (failure (txt "Error reading file " ++ path ++ txt ": " ++ e)), w2)) /\
  (forall w' : world W,
     empty_reads O places w w' ->
     tool_read_file O path w
     = (Ret (mkdict [("ok", VBool false);
                     ("stderr",
                      VStr (txt "File not found in /root/, /, or current directory: "
                            ++ path))]), w')).
Proof.
  intros Hhome Hrel places.
  assert (Htool : tool_read_file O path w
                  = try_except (read_relative O path)
                      (fun e => ret (failure (txt "Error reading file " ++ path
                                              ++ txt ": " ++ e))) w).
  { unfold tool_read_file. now rewrite Hhome, Hrel. }
  rewrite Htool. unfold try_except. rewrite read_relative_unfold.
  assert (Hsplit : forall (before after : list str) (place : str) (w1 : world W),
            places = before ++ place :: after -> empty_reads O before w w1 ->
            (before = [] /\ place = txt "/root/" ++ path /\ w1 = w)
            \/ (before = [txt "/root/" ++ path] /\ place = txt "/" ++ path /\
                read_file O (txt "/root/" ++ path) w = (Ret [], w1))
            \/ (exists wm, before = [txt "/root/" ++ path; txt "/" ++ path] /\
                           place = path /\
                           read_file O (txt "/root/" ++ path) w = (Ret [], wm) /\
                           read_file O (txt "/" ++ path) wm = (Ret [], w1))).
  { intros before after place w1 Heq Hreads. subst places.
    destruct before as [|b1 [|b2 [|b3 before]]]; cbn [app] in Heq.
    - injection Heq as <- _. inversion Hreads; subst. left. now repeat split.
    - injection Heq as <- <- _. inversion Hreads as [|? ? ? wa ? Ha Hrest]; subst.
      inversion Hrest; subst. right; left. now repeat split.
    - injection Heq as <- <- <- _.
      inversion Hreads as [|? ? ? wa ? Ha Hrest]; subst.
      inversion Hrest as [|? ? ? wb ? Hb Hrest']; subst.
      inversion Hrest'; subst. right; right. exists wa. now repeat split.
    - exfalso. injection Heq as _ _ _ Heq. destruct before; discriminate Heq. }
  split; [|split].
  - intros before after place content w1 w2 Heq Hreads Hread Hne.
    destruct content as [|c content]; [congruence|].
    destruct (Hsplit before after place w1 Heq Hreads)
      as [(-> & -> & ->) | [(-> & -> & H1) | (wm & -> & -> & H1 & H2)]].
    + now rewrite Hread.
    + now rewrite H1, Hread.
    + now rewrite H1, H2, Hread.
  - intros before after place e w1 w2 Heq Hreads Hread.
    destruct (Hsplit before after place w1 Heq Hreads)
      as [(-> & -> & ->) | [(-> & -> & H1) | (wm & -> & -> & H1 & H2)]].
    + now rewrite Hread.
    + now rewrite H1, Hread.
    + now rewrite H1, H2, Hread.
  - intros w' Hreads. subst places.
    inversion Hreads as [|? ? ? wa ? Ha Hrest]; subst.
    inversion Hrest as [|? ? ? wb ? Hb Hrest']; subst.
    inversion Hrest' as [|? ? ? wc ? Hc Hrest'']; subst.
    inversion Hrest''; subst.
    change (read_file O (txt "/root/" ++ path) w = (Ret [], wa)) in Ha.
    change (read_file O (txt "/" ++ path) wa = (Ret [], wb)) in Hb.
    now rewrite Ha, Hb, Hc.
Qed.

End Backend.

Lemma tool_write_file_outcome_witness :
  tool_write_file quiet_outside (txt "~/notes.txt") (txt "hello") (fresh_world false)
  = (Ret (mkdict [("ok", VBool true)]),
     World tt
       (map EvDockerExec
          [txt "mkdir -p /";
           txt "test -f /root/notes.txt && cp /root/notes.txt /root/notes.txt.bak.0 || true";
           txt "echo hello | base64 -d > /tmp/.nomanai.tmp && mv /tmp/.nomanai.tmp /root/notes.txt"])
       false).
Proof.
  apply (proj1 (tool_write_file_outcome quiet_outside (txt "~/notes.txt") (txt "hello")
                  (fresh_world false) 0 tt eq_refl)
           tt tt tt (0, [], []) (0, [], []) (0, [], []));
    reflexivity.
Defined.

Lemma tool_read_file_absolute_witness :
  startswith (txt "/") (txt "/etc/hosts") = true /\
  tool_read_file quiet_outside (txt "/etc/hosts") (fresh_world false)
  = (Ret (found []),
     World tt [EvDockerExec (txt "test -f /etc/hosts && cat /etc/hosts || true")] false) /\
  tool_read_file (failing_outside (txt "embedded null byte")) (txt "/etc/hosts")
    (fresh_world false)
  = (Ret (failure (txt "Error reading file /etc/hosts: embedded null byte")),
     World tt [EvDockerExec (txt "test -f /etc/hosts && cat /etc/hosts || true")] false).
Proof.
  split; [reflexivity|]. split.
  - apply (proj1 (tool_read_file_absolute quiet_outside (txt "/etc/hosts")
                    (fresh_world false) eq_refl) 0 [] [] tt).
    reflexivity.
  - apply (proj2 (tool_read_file_absolute (failing_outside (txt "embedded null byte"))
                    (txt "/etc/hosts") (fresh_world false) eq_refl)
             (txt "embedded null byte") tt).
    reflexivity.
Defined.

Lemma tool_read_file_relative_witness :
  expand_home (txt "notes.txt") = None /\
  startswith (txt "/") (txt "notes.txt") = false /\
  tool_read_file quiet_outside (txt "notes.txt") (fresh_world false)
  = (Ret (mkdict [("ok", VBool false);
                  ("stderr",
                   VStr (txt "File not found in /root/, /, or current directory: notes.txt"))]),
     World tt
       (map EvDockerExec
          [txt "test -f /root/notes.txt && cat /root/notes.txt || true";
           txt "test -f /notes.txt && cat /notes.txt || true";
           txt "test -f notes.txt && cat notes.txt || true"])
       false).
Proof.
  split; [reflexivity|]. split; [reflexivity|].
  apply (proj2 (proj2 (tool_read_file_relative quiet_outside (txt "notes.txt")
                         (fresh_world false) eq_refl eq_refl))).
  eapply empty_reads_cons; [reflexivity|].
  eapply empty_reads_cons; [reflexivity|].
  eapply empty_reads_cons; [reflexivity|].
  apply empty_reads_nil.
Defined.

End FileToolsFacts.

(* ================================================================== *)
(** * Facts about the container guard *)
(* ================================================================== *)

Module DockerFacts.

Section Shell.

Context {W : Type}.
Variable run : str -> W -> (Z * str * str) * W.
Variable quote : str -> str.

(** When [docker ps] does not list the container, [docker_exec] stops
    after that probe. *)
Lemma docker_exec_not_listed (cmd : str) (e : W) (log : list str) :
  Docker.listed run e = false ->
  Docker.docker_exec run quote cmd (e, log)
  = ((1, [], Docker.NOT_RUNNING),
     (snd (run (txt "docker " ++ Docker.PS) e), log ++ [txt "docker " ++ Docker.PS])).
Proof.
  unfold Docker.listed, Docker.docker_exec, Docker.docker_running, Docker.docker,
    Docker.sh. cbn [fst snd].
  destruct (run (txt "docker " ++ Docker.PS) e) as [[[rc out] err] e1]. cbn [fst snd].
  now intros ->.
Qed.

Variable now : W -> Z * W.
Variables b64 dir : str -> str.
Variable call : string -> dict -> W * list str -> exc dict * (W * list str).

(** X15.  On a host where the container is never listed as running,
    [tool_write_file] still reports success: it returns [ok] true, and
    the only commands given to the shell are three [docker ps] probes, so
    nothing is written. *)
Theorem tool_write_file_container_down (path content : str)
    (w : world (W * list str)) :
  (forall e : W, Docker.listed run e = false) ->
  exists w',
    tool_write_file (Docker.container_backend run quote now b64 dir call)
      path content w
    = (Ret (mkdict [("ok", VBool true)]), w') /\
    snd (env w') = snd (env w) ++ [txt "docker " ++ Docker.PS;
                                   txt "docker " ++ Docker.PS;
                                   txt "docker " ++ Docker.PS].
Proof.
  intros Hdown.
  unfold tool_write_file, try_except, write_file_atomic, docker_exec.
  unfold bind, emit, ask, ret. cbn [Docker.container_backend clock docker_oracle
    shlex_quote b64encode dirname env trace ALLOW_INSECURE].
  destruct w as [[e log] tr allow]. cbn [env fst snd].
  destruct (now e) as [ts e0]. cbn [env fst snd].
  rewrite docker_exec_not_listed by apply Hdown. cbn [env fst snd].
  rewrite docker_exec_not_listed by apply Hdown. cbn [env fst snd].
  rewrite docker_exec_not_listed by apply Hdown. cbn [env fst snd].
  eexists. split; [reflexivity|]. cbn [env snd]. now rewrite <- !app_assoc.
Qed.

End Shell.

Lemma tool_write_file_container_down_witness :
  let run := fun (_ : str) (e : unit) => ((1, [], []) : Z * str * str, e) in
  let backend :=
    Docker.container_backend run (fun s => s) (fun e => (0, e)) (fun s => s)
      (fun _ => []) (fun _ _ s => (Raise [], s)) in
  (forall e : unit, Docker.listed run e = false) /\
  exists w',
    tool_write_file backend (txt "~/notes.txt") (txt "hello") (World (tt, []) [] false)
    = (Ret (mkdict [("ok", VBool true)]), w') /\
    snd (env w') = snd (env (World (tt, @nil str) [] false))
                   ++ [txt "docker " ++ Docker.PS;
                       txt "docker " ++ Docker.PS;
                       txt "docker " ++ Docker.PS].
Proof.
  cbn zeta.
  assert (H : forall e : unit,
            Docker.listed (fun (_ : str) (e : unit) => ((1, [], []) : Z * str * str, e)) e
            = false) by (intros e; reflexivity).
  split; [exact H|].
  exact (tool_write_file_container_down _ (fun s => s) (fun e => (0, e)) (fun s => s)
           (fun _ => []) (fun _ _ s => (Raise [], s)) (txt "~/notes.txt") (txt "hello")
           (World (tt, []) [] false) H).
Defined.

End DockerFacts.

(* ================================================================== *)
(** * Further facts about the dispatcher *)
(* ================================================================== *)

Module DispatcherMoreFacts.

Lemma has_key_lookup (k : string) (d : dict) (v : value) :
  d !! k = Some v -> has_key k d = true.
Proof. intros H. unfold has_key. now rewrite H. Qed.

(** Renaming keeps every parameter other than the one renamed. *)
Lemma alias_keeps (old new k : string) (d : dict) (v : value) :
  k <> old -> d !! k = Some v -> alias old new d !! k = Some v.
Proof.
  intros Hold Hk. unfold alias.
  destruct (has_key old d && negb (has_key new d)) eqn:E; [|exact Hk].
  apply andb_true_iff in E as [_ Hnew]. apply negb_true_iff in Hnew.
  assert (k <> new).
  { intros ->. now rewrite (has_key_lookup _ _ _ Hk) in Hnew. }
  unfold pop_into. destruct (d !! old); [|exact Hk].
  rewrite lookup_insert_ne by congruence. now rewrite lookup_delete_ne by congruence.
Qed.

Lemma pop_into_keeps (old new k : string) (d : dict) (v : value) :
  k <> old -> has_key new d = false -> d !! k = Some v ->
  pop_into old new d !! k = Some v.
Proof.
  intros Hold Hnew Hk.
  assert (k <> new).
  { intros ->. now rewrite (has_key_lookup _ _ _ Hk) in Hnew. }
  unfold pop_into. destruct (d !! old); [|exact Hk].
  rewrite lookup_insert_ne by congruence. now rewrite lookup_delete_ne by congruence.
Qed.

Section Dispatch.

Context {W : Type} (O : outside W).

Lemma pop_package_keeps (key k : string) (d na : dict) (v : value) (w w' : world W) :
  k <> key -> has_key "package" d = false -> d !! k = Some v ->
  pop_package key d w = (Ret na, w') -> na !! k = Some v.
Proof.
  intros Hkey Hpkg Hk.
  assert (k <> "package").
  { intros ->. now rewrite (has_key_lookup _ _ _ Hk) in Hpkg. }
  unfold pop_package, bind, join_values, ret, raise.
  destruct (d !! key) as [x|]; [|now intros [= <- _]].
  destruct x as [| | | |l];
    try (intros [= <- _]; rewrite lookup_insert_ne by congruence;
         now rewrite lookup_delete_ne by congruence).
  destruct (str_items 0 l) as [[i bad]|ss]; [discriminate|].
  intros [= <- _]. rewrite lookup_insert_ne by congruence.
  now rewrite lookup_delete_ne by congruence.
Qed.

(** X16.  The normalisation only moves the parameters given under an
    alternative name: every other argument of the call is still there,
    with its value, after it. *)
Theorem normalize_args_keeps (name k : string) (args na : dict) (v : value)
    (w w' : world W) :
  ~ In k ALIASES ->
  args !! k = Some v ->
  normalize_args name args w = (Ret na, w') ->
  na !! k = Some v.
Proof.
  intros Hk Hv.
  assert (Hne : forall a, In a ALIASES -> k <> a) by (intros a Ha ->; contradiction).
  unfold normalize_args, bind.
  set (na1 := alias "file_path" "path" (alias "service_name" "name" args)).
  assert (H1 : na1 !! k = Some v).
  { subst na1. repeat (apply alias_keeps; [apply Hne; cbn; auto 10|]). exact Hv. }
  clearbody na1.
  assert (Hrest : forall na2 : dict, na2 !! k = Some v ->
            (let na := alias "command" "cmd" na2 in
             let na := alias "permissions" "mode" na in
             let na := alias "regex_pattern" "regex" na in
             if String.eqb name "search_packages" && has_key "package_name" na
                && negb (has_key "query" na)
             then pop_into "package_name" "query" na
             else if has_key "package_name" na && negb (has_key "package" na)
             then pop_into "package_name" "package" na
             else na) !! k = Some v).
  { intros na2 H2. cbn zeta.
    set (na3 := alias "regex_pattern" "regex" _).
    assert (H3 : na3 !! k = Some v).
    { subst na3. repeat (apply alias_keeps; [apply Hne; cbn; auto 10|]). exact H2. }
    clearbody na3.
    destruct (String.eqb name "search_packages" && has_key "package_name" na3
              && negb (has_key "query" na3)) eqn:E1.
    - apply andb_true_iff in E1 as [_ Hq]. apply negb_true_iff in Hq.
      apply pop_into_keeps; [apply Hne; cbn; auto 10 | exact Hq | exact H3].
    - destruct (has_key "package_name" na3 && negb (has_key "package" na3)) eqn:E2;
        [|exact H3].
      apply andb_true_iff in E2 as [_ Hq]. apply negb_true_iff in Hq.
      apply pop_into_keeps; [apply Hne; cbn; auto 10 | exact Hq | exact H3]. }
  destruct (has_key "package_names" na1 && negb (has_key "package" na1)) eqn:E1.
  - apply andb_true_iff in E1 as [_ Hp]. apply negb_true_iff in Hp.
    destruct (pop_package "package_names" na1 w) as [[na2|e] w1] eqn:Epop;
      [|discriminate].
    unfold ret. intros [= <- _]. apply Hrest.
    apply (pop_package_keeps "package_names" k na1 na2 v w w1); try assumption.
      apply Hne; cbn; auto 10.
  - destruct (has_key "packages" na1 && negb (has_key "package" na1)) eqn:E2.
    + apply andb_true_iff in E2 as [_ Hp]. apply negb_true_iff in Hp.
      destruct (pop_package "packages" na1 w) as [[na2|e] w1] eqn:Epop;
        [|discriminate].
      unfold ret. intros [= <- _]. apply Hrest.
      apply (pop_package_keeps "packages" k na1 na2 v w w1); try assumption.
      apply Hne; cbn; auto 10.
    + unfold ret. intros [= <- _]. now apply Hrest.
Qed.

(** X17.  [run_safe] through the dispatcher, with the command given as
    [cmd] or as [command], is [tool_run_safe] on that command, the
    exceptions of the executor being turned into a failure result: the
    policy is checked in the same way, and a command that it rejects is
    not executed. *)
Theorem dispatch_tool_run_safe (param : string) (cmd : str) (w : world W) :
  param = "cmd" \/ param = "command" ->
  dispatch_tool O "run_safe" (mkdict [(param, VStr cmd)]) w
  = try_except (tool_run_safe O cmd)
      (fun e => ret (failure (txt "tool execution error: " ++ e))) w.
Proof.
  intros Hparam.
  assert (Hnorm : normalize_args "run_safe" (mkdict [(param, VStr cmd)]) w
                  = (Ret (mkdict [("cmd", VStr cmd)]), w))
    by (destruct Hparam as [-> | ->]; vm_compute; reflexivity).
  unfold dispatch_tool, try_except, dispatch_body. unfold bind at 1.
  rewrite Hnorm. eval_name_tests.
  unfold branch, call_tool. eval_name_tests.
  assert (H1 : existsb (fun p => negb (has_key p (mkdict [("cmd", VStr cmd)]))) ["cmd"]
               = false) by (vm_compute; reflexivity).
  assert (H2 : mkdict [("cmd", VStr cmd)] !! "cmd" = Some (VStr cmd))
    by (vm_compute; reflexivity).
  assert (H3 : (size (mkdict [("cmd", VStr cmd)]) =? 1)%nat = true)
    by (vm_compute; reflexivity).
  rewrite H1, H2, H3. reflexivity.
Qed.

(** X18.  The guard on insecure settings holds through the dispatcher,
    whether the file is given as [path] or as [file_path]: with
    [ALLOW_INSECURE] unset, the call is rejected and the world is left as
    it was. *)
Theorem dispatch_tool_insecure_blocked (param : string) (key value : str)
    (w : world W) :
  param = "path" \/ param = "file_path" ->
  key = txt "PermitRootLogin" \/ key = txt "PasswordAuthentication" ->
  lower value = txt "yes" ->
  ALLOW_INSECURE w = false ->
  dispatch_tool O "set_config_kv"
    (mkdict [(param, VStr SSHD_CONFIG); ("key", VStr key); ("value", VStr value)]) w
  = (Ret blocked, w).
Proof.
  intros Hparam Hkey Hvalue Hallow.
  set (na := mkdict [("path", VStr SSHD_CONFIG); ("key", VStr key);
                     ("value", VStr value)]).
  assert (Hnorm : normalize_args "set_config_kv"
                    (mkdict [(param, VStr SSHD_CONFIG); ("key", VStr key);
                             ("value", VStr value)]) w
                  = (Ret na, w))
    by (destruct Hparam as [-> | ->]; vm_compute; reflexivity).
  unfold dispatch_tool, try_except, dispatch_body. unfold bind at 1.
  rewrite Hnorm. eval_name_tests.
  unfold branch, call_tool. eval_name_tests.
  assert (H1 : existsb (fun p => negb (has_key p na)) ["path"; "key"; "value"] = false)
    by (vm_compute; reflexivity).
  assert (H2 : na !! "path" = Some (VStr SSHD_CONFIG)) by (vm_compute; reflexivity).
  assert (H3 : na !! "key" = Some (VStr key)) by (vm_compute; reflexivity).
  assert (H4 : na !! "value" = Some (VStr value)) by (vm_compute; reflexivity).
  assert (H5 : (size na =? 3)%nat = true) by (vm_compute; reflexivity).
  rewrite H1, H2, H3, H4, H5.
  unfold tool_set_config_kv, bind, get_allow_insecure. rewrite Hallow, Hvalue.
  assert (Hk : str_eqb key (txt "PermitRootLogin")
               || str_eqb key (txt "PasswordAuthentication") = true)
    by (destruct Hkey as [-> | ->]; reflexivity).
  rewrite Hk. reflexivity.
Qed.

End Dispatch.

Lemma normalize_args_keeps_witness :
  let args := mkdict [("service_name", vtxt "ssh"); ("action", vtxt "stop")] in
  let na := mkdict [("name", vtxt "ssh"); ("action", vtxt "stop")] in
  ~ In "action" ALIASES /\
  args !! "action" = Some (vtxt "stop") /\
  normalize_args "restart_service" args (fresh_world false)
  = (Ret na, fresh_world false) /\
  na !! "action" = Some (vtxt "stop").
Proof.
  cbn zeta.
  assert (H1 : ~ In "action" ALIASES)
    by (intros H; cbn in H; intuition discriminate).
  assert (H2 : mkdict [("service_name", vtxt "ssh"); ("action", vtxt "stop")]
               !! "action" = Some (vtxt "stop")) by (vm_compute; reflexivity).
  assert (H3 : normalize_args "restart_service"
                 (mkdict [("service_name", vtxt "ssh"); ("action", vtxt "stop")])
                 (fresh_world false)
               = (Ret (mkdict [("name", vtxt "ssh"); ("action", vtxt "stop")]),
                  fresh_world false)) by (vm_compute; reflexivity).
  split; [exact H1|]. split; [exact H2|]. split; [exact H3|].
  exact (normalize_args_keeps "restart_service" "action" _ _ _ _ _ H1 H2 H3).
Defined.

Lemma dispatch_tool_run_safe_witness :
  ("command" = "cmd" \/ "command" = "command") /\
  dispatch_tool quiet_outside "run_safe" (mkdict [("command", VStr (txt "pwd"))])
    (fresh_world false)
  = try_except (tool_run_safe quiet_outside (txt "pwd"))
      (fun e => ret (failure (txt "tool execution error: " ++ e)))
      (fresh_world false).
Proof.
  split; [now right|].
  exact (dispatch_tool_run_safe quiet_outside "command" (txt "pwd")
           (fresh_world false) (or_intror eq_refl)).
Defined.

Lemma dispatch_tool_insecure_blocked_witness :
  lower (txt "YES") = txt "yes" /\
  ALLOW_INSECURE (fresh_world false) = false /\
  dispatch_tool quiet_outside "set_config_kv"
    (mkdict [("file_path", VStr SSHD_CONFIG); ("key", VStr (txt "PermitRootLogin"));
             ("value", VStr (txt "YES"))]) (fresh_world false)
  = (Ret blocked, fresh_world false).
Proof.
  split; [reflexivity|]. split; [reflexivity|].
  exact (dispatch_tool_insecure_blocked quiet_outside "file_path"
           (txt "PermitRootLogin") (txt "YES") (fresh_world false)
           (or_intror eq_refl) (or_introl eq_refl) eq_refl eq_refl).
Defined.

End DispatcherMoreFacts.

(* ================================================================== *)
(** * Further facts about the retry loop and the verifier *)
(* ================================================================== *)

Module RetryLoopFacts.

Section Loop.

Context {W Plan Execution Verification : Type}.
Variable A : agents W Plan Execution Verification.

Lemma run_attempt_number (goal : str) (n : Z)
    (prev : option (attempt Plan Execution Verification)) (w w' : world W)
    (a : attempt Plan Execution Verification) :
  run_attempt A goal n prev w = (Ret a, w') -> attempt_number a = n.
Proof.
  unfold run_attempt, bind, ret.
  destruct (planner_agent A goal prev w) as [[p|e] w1]; [|discriminate].
  destruct (executor_agent A p w1) as [[x|e] w2]; [|discriminate].
  destruct (verifier_agent A goal x w2) as [[v|e] w3]; [|discriminate].
  now intros [= <- _].
Qed.

(** What the loop has done when it returns. *)
Lemma retry_loop_returns (goal : str) (max_retries : Z) (fuel : nat) :
  forall (n : Z) (acc : list (attempt Plan Execution Verification))
         (prev : option (attempt Plan Execution Verification)) (w w' : world W)
         (r : report Plan Execution Verification
              + list (attempt Plan Execution Verification)),
    retry_loop A goal max_retries fuel n acc prev w = (Ret r, w') ->
    exists l,
      map attempt_number l
      = map (fun i => n + Z.of_nat i) (List.seq 0 (List.length l)) /\
      match r with
      | inl rep =>
          exists earlier a,
            l = earlier ++ [a] /\ (List.length l <= fuel)%nat /\
            Forall (fun b => verified A (a_verification b) = false) earlier /\
            verified A (a_verification a) = true /\
            rep = Report goal true (acc ++ l) (attempt_number a)
                    (a_plan a) (a_execution a) (a_verification a)
      | inr all =>
          all = acc ++ l /\ List.length l = fuel /\
          Forall (fun b => verified A (a_verification b) = false) l
      end.
Proof.
  induction fuel as [|fuel IH]; intros n acc prev w w' r.
  - cbn [retry_loop]. intros [= <- <-]. exists [].
    split; [reflexivity|]. rewrite app_nil_r. now repeat split.
  - cbn [retry_loop]. unfold bind at 1.
    destruct (run_attempt A goal n prev w) as [[a|e] w1] eqn:Erun; [|discriminate].
    pose proof (run_attempt_number goal n prev w w1 a Erun) as Hn.
    destruct (verified A (a_verification a)) eqn:Ev.
    + intros [= <- <-]. exists [a]. split.
      * cbn. rewrite Hn. f_equal. lia.
      * exists [], a. repeat split; [cbn; lia | constructor | exact Ev |].
        now rewrite Hn.
    + intros Hrest. apply IH in Hrest as (l & Hnum & Hr).
      exists (a :: l). split.
      * cbn [map List.length List.seq]. rewrite Hn, Z.add_0_r. f_equal.
        rewrite Hnum, <- seq_shift, map_map.
        apply map_ext. intros i. lia.
      * destruct r as [rep | all].
        -- destruct Hr as (earlier & b & -> & Hlen & Hall & Hb & ->).
           exists (a :: earlier), b.
           repeat split; [cbn in *; lia | now constructor | exact Hb |].
           now rewrite <- app_assoc.
        -- destruct Hr as (-> & Hlen & Hall).
           repeat split; [now rewrite <- app_assoc | cbn; lia | now constructor].
Qed.

(** X19.  What every report of [multi_agent_system] looks like, whatever the
    agents do.  It records at least one attempt and at most [max_retries],
    numbered from 1 in order; every attempt but the last failed its
    verification; [success] is the verdict on the last attempt, whose plan,
    execution and verification are the ones reported; [final_attempt] is
    the number of attempts made; and a failure is reported only after
    [max_retries] attempts. *)
Theorem multi_agent_system_report (goal : str) (allow_insecure : bool)
    (max_retries : Z) (w w' : world W)
    (rep : report Plan Execution Verification) :
  multi_agent_system A goal allow_insecure max_retries w = (Ret rep, w') ->
  exists earlier last,
    attempts rep = earlier ++ [last] /\
    Z.of_nat (List.length (attempts rep)) <= max_retries /\
    map attempt_number (attempts rep)
    = map Z.of_nat (List.seq 1 (List.length (attempts rep))) /\
    Forall (fun a => verified A (a_verification a) = false) earlier /\
    success rep = verified A (a_verification last) /\
    plan rep = a_plan last /\ execution rep = a_execution last /\
    verification rep = a_verification last /\
    final_attempt rep = Z.of_nat (List.length (attempts rep)) /\
    (success rep = false ->
     Z.of_nat (List.length (attempts rep)) = max_retries) /\
    MultiAgent.goal rep = goal.
Proof.
  unfold multi_agent_system, set_allow_insecure. unfold bind at 1.
  unfold bind at 1.
  destruct (ensure_up A _) as [[[]|e] w1]; [|discriminate].
  unfold bind at 1.
  destruct (retry_loop A goal max_retries (Z.to_nat max_retries) 1 [] None w1)
    as [[r|e] w2] eqn:Eloop; [|discriminate].
  apply retry_loop_returns in Eloop as (l & Hnum & Hr).
  assert (Hnum' : map attempt_number l = map Z.of_nat (List.seq 1 (List.length l))).
  { rewrite Hnum, <- seq_shift, map_map. apply map_ext. intros i. lia. }
  destruct r as [rep0 | all].
  - destruct Hr as (earlier & a & -> & Hlen & Hall & Ha & ->).
    intros [= <- <-]. exists earlier, a. cbn [attempts success plan execution
      verification final_attempt MultiAgent.goal app].
    assert (Hlast : attempt_number a = Z.of_nat (List.length (earlier ++ [a]))).
    { rewrite length_app in *. cbn [List.length] in *.
      rewrite map_app in Hnum'. cbn [map] in Hnum'.
      replace (List.length earlier + 1)%nat with (S (List.length earlier)) in * by lia.
      rewrite seq_S, map_app in Hnum'. cbn [map] in Hnum'.
      apply app_inj_tail in Hnum' as [_ Hn]. rewrite Hn. lia. }
    assert (Hpos : (1 <= List.length (earlier ++ [a]))%nat)
      by (rewrite length_app; cbn; lia).
    repeat split; try assumption; try reflexivity; try lia;
      try (now rewrite Ha).
  - destruct Hr as (-> & Hlen & Hall). cbn [app].
    destruct l as [|a0 l0] using rev_ind.
    + cbn. discriminate.
    + clear IHl0. rewrite map_app. cbn [map]. rewrite last_snoc.
      intros [= <- <-]. exists l0, a0.
      cbn [attempts success plan execution verification final_attempt
           MultiAgent.goal].
      apply Forall_app in Hall as [Hall Hlast]. inversion Hlast; subst.
      rewrite length_app in *. cbn [List.length] in *.
      repeat split; try assumption; try reflexivity; try lia.
      congruence.
Qed.

(** X20.  With [max_retries] zero or negative no attempt is made: once
    [ensure_up] has returned, [multi_agent_system] raises the [IndexError]
    of the empty list of attempts, and no agent is consulted. *)
Theorem multi_agent_system_no_retries (goal : str) (allow_insecure : bool)
    (max_retries : Z) (w w1 : world W) :
  max_retries <= 0 ->
  ensure_up A (World (env w) (trace w) allow_insecure) = (Ret tt, w1) ->
  multi_agent_system A goal allow_insecure max_retries w
  = (Raise (txt "list index out of range"), w1).
Proof.
  intros Hmax Hup. unfold multi_agent_system, set_allow_insecure.
  unfold bind at 1. unfold bind at 1. rewrite Hup.
  replace (Z.to_nat max_retries) with O by lia. reflexivity.
Qed.

End Loop.

Lemma multi_agent_system_report_witness :
  exists earlier last,
    let rep := Report (txt "harden ssh") true
                 [Attempt 1 tt tt false; Attempt 2 tt tt true] 2 tt tt true in
    attempts rep = earlier ++ [last] /\
    Z.of_nat (List.length (attempts rep)) <= 3 /\
    map attempt_number (attempts rep)
    = map Z.of_nat (List.seq 1 (List.length (attempts rep))) /\
    Forall (fun a => verified (stub_agents 2) (a_verification a) = false) earlier /\
    success rep = verified (stub_agents 2) (a_verification last) /\
    plan rep = a_plan last /\ execution rep = a_execution last /\
    verification rep = a_verification last /\
    final_attempt rep = Z.of_nat (List.length (attempts rep)) /\
    (success rep = false ->
     Z.of_nat (List.length (attempts rep)) = 3) /\
    MultiAgent.goal rep = txt "harden ssh".
Proof.
  apply (multi_agent_system_report (stub_agents 2) (txt "harden ssh") false 3
           (World O [] false) (World 2%nat [] false)).
  reflexivity.
Defined.

Lemma multi_agent_system_no_retries_witness :
  multi_agent_system (stub_agents 1) (txt "harden ssh") true (-1) (World O [] false)
  = (Raise (txt "list index out of range"), World O [] true).
Proof.
  apply (multi_agent_system_no_retries (stub_agents 1) (txt "harden ssh") true (-1)
           (World O [] false) (World O [] true)); [lia | reflexivity].
Defined.

End RetryLoopFacts.

Module VerifierFacts.

Lemma lower_app (a b : str) : lower (a ++ b) = lower a ++ lower b.
Proof. apply map_app. Qed.

Lemma startswith_app (p s : str) : startswith p (p ++ s) = true.
Proof. apply startswith_spec. now exists s. Qed.

Lemma contains_app (needle pre post : str) :
  contains needle (pre ++ needle ++ post) = true.
Proof.
  induction pre as [|c pre IH].
  - cbn [app]. destruct needle as [|n needle]; [now destruct post|].
    cbn [contains app]. change (n :: needle ++ post) with ((n :: needle) ++ post).
    now rewrite startswith_app.
  - cbn [app contains]. rewrite IH. apply orb_true_r.
Qed.

(** X21.  A failure keyword settles the verdict: a conclusion in which one
    of the failure keywords occurs, in any letter case and at any place,
    is not a success, whatever else it says. *)
Theorem verdict_failure_keyword (pre word post : str) :
  In (lower word) failure_keywords ->
  verdict (pre ++ word ++ post) = false.
Proof.
  intros Hin. unfold verdict.
  assert (H : existsb (fun kw => contains kw (lower (pre ++ word ++ post)))
                failure_keywords = true).
  { apply existsb_exists. exists (lower word). split; [exact Hin|].
    rewrite !lower_app. apply contains_app. }
  rewrite H. apply andb_false_r.
Qed.

Lemma verdict_failure_keyword_witness :
  In (lower (txt "Fail")) failure_keywords /\
  verdict (txt "Goal achieved: no check " ++ txt "Fail" ++ txt "ed, all verified") = false.
Proof.
  assert (H : In (lower (txt "Fail")) failure_keywords) by (now left).
  split; [exact H|].
  exact (verdict_failure_keyword (txt "Goal achieved: no check ") (txt "Fail")
           (txt "ed, all verified") H).
Defined.

(** X22.  A reply without content is taken for a success.  When the model
    ends the verification with no text, [None] or the empty string, the
    conclusion is [Verification incomplete], which holds the success
    keyword [complete] and no failure keyword: the verifier reports
    [success] true and no failure analysis, for any transcript and any
    checks made. *)
Theorem final_verification_no_content {FailedStep Check : Type}
    (failed : list FailedStep) (results : list Check) :
  final_verification None failed results
  = VerifierResult true (txt "Verification incomplete") results None /\
  final_verification (Some []) failed results
  = VerifierResult true (txt "Verification incomplete") results None.
Proof. split; reflexivity. Qed.

End VerifierFacts.

(* ================================================================== *)
(** * Further facts about the connection pool *)
(* ================================================================== *)

Module PoolMoreFacts.

(** What the loop over the idle list leaves behind. *)
Lemma pop_alive_split (alive : conn -> bool) (stack : list conn) :
  match pop_alive alive stack with
  | (Some c, rest) =>
      exists dead, stack = dead ++ c :: rest /\ alive c = true /\
                   Forall (fun d => alive d = false) dead
  | (None, rest) => rest = [] /\ Forall (fun d => alive d = false) stack
  end.
Proof.
  induction stack as [|c stack IH]; simpl.
  - split; [reflexivity | constructor].
  - destruct (alive c) eqn:Ec.
    + exists []. repeat split; [exact Ec | constructor].
    + destruct (pop_alive alive stack) as [[d|] rest].
      * destruct IH as (dead & -> & Hd & Hdead).
        exists (c :: dead). repeat split; [exact Hd | now constructor].
      * destruct IH as [-> Hdead]. split; [reflexivity | now constructor].
Qed.

Lemma get_connection_max (alive : conn -> bool) (created : exc conn)
    (config : SSHConfig) (p : SSHConnectionPool) :
  max_connections_per_host (snd (get_connection alive created config p))
  = max_connections_per_host p.
Proof.
  unfold get_connection.
  destruct (pop_alive alive (rev (idle p (_get_pool_key config)))) as [[c|] rest];
    [reflexivity|].
  cbn [max_connections_per_host set_idle].
  destruct (_ <? _); [destruct created|]; reflexivity.
Qed.

Lemma get_connection_other (alive : conn -> bool) (created : exc conn)
    (config : SSHConfig) (p : SSHConnectionPool) (key : str) :
  key <> _get_pool_key config ->
  idle (snd (get_connection alive created config p)) key = idle p key /\
  active (snd (get_connection alive created config p)) key = active p key.
Proof.
  intros Hne. unfold get_connection.
  destruct (pop_alive alive (rev (idle p (_get_pool_key config)))) as [[c|] rest].
  - cbn [snd]. rewrite idle_set_active, idle_set_idle_ne, active_set_active_ne,
      active_set_idle by congruence. now split.
  - destruct (_ <? _); [destruct created|]; cbn [snd];
      rewrite ?idle_set_active, ?idle_set_idle_ne, ?active_set_active_ne,
        ?active_set_idle by congruence; now split.
Qed.

Lemma return_connection_other (alive : conn -> bool) (config : SSHConfig)
    (c : conn) (p : SSHConnectionPool) (key : str) :
  key <> _get_pool_key config ->
  idle (return_connection alive config c p) key = idle p key /\
  active (return_connection alive config c p) key = active p key.
Proof.
  intros Hne. unfold return_connection.
  destruct (alive c);
    rewrite ?idle_set_active, ?idle_set_idle_ne, ?active_set_active_ne,
      ?active_set_idle by congruence; now split.
Qed.

Lemma return_connection_active (alive : conn -> bool) (config : SSHConfig)
    (c : conn) (p : SSHConnectionPool) :
  active (return_connection alive config c p) (_get_pool_key config)
  = Z.max 0 (active p (_get_pool_key config) - 1).
Proof.
  unfold return_connection.
  destruct (alive c); rewrite active_set_active, ?active_set_idle; reflexivity.
Qed.

(** X23.  A live connection that is given back is the next one handed out
    for its endpoint: no new connection is opened, whatever opening one
    would have done, and the idle list is as it was before the
    connection was given back. *)
Theorem pool_reuses_returned_connection (alive alive' : conn -> bool)
    (created : exc conn) (config : SSHConfig) (c : conn)
    (p : SSHConnectionPool) :
  alive c = true -> alive' c = true ->
  let r := get_connection alive' created config
             (return_connection alive config c p) in
  fst r = Ret c /\
  idle (snd r) (_get_pool_key config) = idle p (_get_pool_key config).
Proof.
  intros Hc Hc' r. subst r. unfold return_connection, get_connection.
  rewrite Hc. set (key := _get_pool_key config).
  rewrite idle_set_active, idle_set_idle, rev_app_distr. cbn [rev app pop_alive].
  rewrite Hc'. cbn [fst snd].
  rewrite idle_set_active, idle_set_idle, rev_involutive. now split.
Qed.

Lemma pool_reuses_returned_connection_witness :
  always_alive 7%nat = true /\
  let r := get_connection always_alive (Raise (txt "unreachable")) example_config
             (return_connection always_alive example_config 7%nat (new_pool 5)) in
  fst r = Ret 7%nat /\
  idle (snd r) (_get_pool_key example_config)
  = idle (new_pool 5) (_get_pool_key example_config).
Proof.
  split; [reflexivity|].
  apply (pool_reuses_returned_connection always_alive always_alive
           (Raise (txt "unreachable")) example_config 7%nat (new_pool 5));
    reflexivity.
Defined.

(** X24.  Endpoints do not interfere: calls on other endpoints leave the
    idle list and the active count of an endpoint as they were. *)
Theorem pool_endpoints_independent (ops : list op) (p : SSHConnectionPool)
    (key : str) :
  Forall (fun o => op_key o <> key) ops ->
  idle (run_ops ops p) key = idle p key /\
  active (run_ops ops p) key = active p key.
Proof.
  intros Hops. revert p. induction Hops as [|o ops Ho _ IH]; intros p.
  - now split.
  - unfold run_ops in *. cbn [fold_left].
    destruct (IH (apply_op o p)) as [-> ->].
    destruct o as [alive created config | alive config c]; cbn [apply_op op_key] in *.
    + apply get_connection_other. congruence.
    + apply return_connection_other. congruence.
Qed.

Lemma pool_endpoints_independent_witness :
  let other := {| host := txt "10.0.0.6"; port := 22; username := txt "root" |} in
  let ops := [Acquire always_alive (Ret 1%nat) other;
              Release always_alive other 1%nat] in
  Forall (fun o => op_key o <> _get_pool_key example_config) ops /\
  idle (run_ops ops (new_pool 5)) (_get_pool_key example_config)
  = idle (new_pool 5) (_get_pool_key example_config) /\
  active (run_ops ops (new_pool 5)) (_get_pool_key example_config)
  = active (new_pool 5) (_get_pool_key example_config).
Proof.
  cbn zeta.
  assert (H : Forall (fun o => op_key o <> _get_pool_key example_config)
                [Acquire always_alive (Ret 1%nat)
                   {| host := txt "10.0.0.6"; port := 22; username := txt "root" |};
                 Release always_alive
                   {| host := txt "10.0.0.6"; port := 22; username := txt "root" |}
                   1%nat]).
  { repeat constructor; intros E; vm_compute in E; discriminate E. }
  split; [exact H|].
  exact (pool_endpoints_independent _ (new_pool 5) (_get_pool_key example_config) H).
Defined.

(** X25.  What a successful [get_connection] hands out: either the last
    live connection of the idle list, the dead ones above it being
    dropped and the ones below it kept, or, when the idle list holds no
    live connection and the endpoint is below its bound, the newly opened
    connection, the idle list being left empty. *)
Theorem get_connection_live_or_new (alive : conn -> bool) (created : exc conn)
    (config : SSHConfig) (p : SSHConnectionPool) (c : conn) :
  let key := _get_pool_key config in
  let r := get_connection alive created config p in
  fst r = Ret c ->
  (exists dead, idle p key = idle (snd r) key ++ c :: dead /\
                alive c = true /\
                Forall (fun d => alive d = false) dead)
  \/ (created = Ret c /\ idle (snd r) key = [] /\
      Forall (fun d => alive d = false) (idle p key) /\
      active p key < max_connections_per_host p).
Proof.
  intros key r. subst r. unfold get_connection. fold key.
  pose proof (pop_alive_split alive (rev (idle p key))) as Hsplit.
  destruct (pop_alive alive (rev (idle p key))) as [[d|] rest].
  - cbn [fst snd]. intros [= ->]. left.
    destruct Hsplit as (dead & Hrev & Hc & Hdead).
    exists (rev dead). rewrite idle_set_active, idle_set_idle.
    split; [|split; [exact Hc | now apply List.Forall_rev]].
    rewrite <- (rev_involutive (idle p key)), Hrev, rev_app_distr.
    cbn [rev]. now rewrite <- app_assoc.
  - destruct Hsplit as [-> Hdead]. cbn [rev].
    rewrite active_set_idle. cbn [max_connections_per_host set_idle].
    destruct (active p key <? max_connections_per_host p) eqn:Elt.
    + destruct created as [n|e]; cbn [fst snd]; [|discriminate].
      intros [= ->]. right. rewrite idle_set_active, idle_set_idle.
      repeat split.
      * rewrite <- (rev_involutive (idle p key)). now apply List.Forall_rev.
      * now apply Z.ltb_lt.
    + cbn [fst]. discriminate.
Qed.

Lemma get_connection_live_or_new_witness :
  let key := _get_pool_key example_config in
  let r := get_connection always_alive (Ret 3%nat) example_config (new_pool 5) in
  fst r = Ret 3%nat /\
  ((exists dead, idle (new_pool 5) key = idle (snd r) key ++ 3%nat :: dead /\
                 always_alive 3%nat = true /\
                 Forall (fun d => always_alive d = false) dead)
   \/ (Ret 3%nat = Ret 3%nat /\ idle (snd r) key = [] /\
       Forall (fun d => always_alive d = false) (idle (new_pool 5) key) /\
       active (new_pool 5) key < max_connections_per_host (new_pool 5))).
Proof.
  assert (H : fst (get_connection always_alive (Ret 3%nat) example_config (new_pool 5))
              = Ret 3%nat) by reflexivity.
  split; [exact H|].
  exact (get_connection_live_or_new always_alive (Ret 3%nat) example_config
           (new_pool 5) 3%nat H).
Defined.

(** X26.  [get_connection] counts exactly the connections it hands out: the
    active count of the endpoint grows by one when a connection is
    returned to the caller and is unchanged when the call raises, be it
    for an exhausted pool or for a connection that could not be opened. *)
Theorem get_connection_counts (alive : conn -> bool) (created : exc conn)
    (config : SSHConfig) (p : SSHConnectionPool) :
  let key := _get_pool_key config in
  let r := get_connection alive created config p in
  active (snd r) key
  = match fst r with
    | Ret _ => active p key + 1
    | Raise _ => active p key
    end.
Proof.
  intros key r. subst r. unfold get_connection. fold key.
  destruct (pop_alive alive (rev (idle p key))) as [[d|] rest].
  - cbn [fst snd]. now rewrite active_set_active, active_set_idle.
  - rewrite active_set_idle. cbn [max_connections_per_host set_idle].
    destruct (active p key <? max_connections_per_host p).
    + destruct created; cbn [fst snd];
        now rewrite ?active_set_active, ?active_set_idle.
    + cbn [fst snd]. now rewrite active_set_idle.
Qed.

(** ** Closing the pool *)

Lemma close_all_spec (p : SSHConnectionPool) :
  max_connections_per_host (close_all p) = max_connections_per_host p /\
  forall key : str,
    match _pools p !! key with
    | Some _ => idle (close_all p) key = [] /\ active (close_all p) key = 0
    | None => idle (close_all p) key = idle p key /\
              active (close_all p) key = active p key
    end.
Proof.
  unfold close_all.
  apply (map_fold_weak_ind
           (fun q (m : gmap str (list conn)) =>
              max_connections_per_host q = max_connections_per_host p /\
              forall key : str,
                match m !! key with
                | Some _ => idle q key = [] /\ active q key = 0
                | None => idle q key = idle p key /\ active q key = active p key
                end)).
  - split; [reflexivity|]. intros key. rewrite lookup_empty. now split.
  - intros i x m q Hi [Hmax IH]. split; [exact Hmax|].
    intros key. destruct (decide (i = key)) as [->|Hne].
    + rewrite lookup_insert_eq.
      now rewrite idle_set_active, idle_set_idle, active_set_active.
    + rewrite lookup_insert_ne by exact Hne.
      rewrite idle_set_active, idle_set_idle_ne, active_set_active_ne,
        active_set_idle by congruence.
      apply IH.
Qed.

Lemma tracked_new_pool (m : Z) : tracked (new_pool m).
Proof. intros key H. exfalso. apply H. reflexivity. Qed.

Lemma tracked_get_connection (alive : conn -> bool) (created : exc conn)
    (config : SSHConfig) (p : SSHConnectionPool) :
  tracked p -> tracked (snd (get_connection alive created config p)).
Proof.
  intros Hp key. destruct (decide (key = _get_pool_key config)) as [->|Hne].
  - intros _. unfold get_connection.
    destruct (pop_alive alive (rev (idle p (_get_pool_key config)))) as [[c|] rest].
    + cbn. rewrite lookup_insert_eq. eauto.
    + cbn [max_connections_per_host set_idle].
      destruct (_ <? _); [destruct created|]; cbn; rewrite lookup_insert_eq; eauto.
  - intros Hact.
    destruct (get_connection_other alive created config p key Hne) as [_ Ha].
    rewrite Ha in Hact. specialize (Hp key Hact).
    unfold get_connection.
    destruct (pop_alive alive (rev (idle p (_get_pool_key config)))) as [[c|] rest].
    + cbn. now rewrite lookup_insert_ne by congruence.
    + cbn [max_connections_per_host set_idle].
      destruct (_ <? _); [destruct created|]; cbn;
        now rewrite lookup_insert_ne by congruence.
Qed.

Lemma tracked_return_connection (alive : conn -> bool) (config : SSHConfig)
    (c : conn) (p : SSHConnectionPool) :
  tracked p -> tracked (return_connection alive config c p).
Proof.
  intros Hp key. destruct (decide (key = _get_pool_key config)) as [->|Hne].
  - rewrite return_connection_active. intros Hact.
    assert (Ha : active p (_get_pool_key config) <> 0) by lia.
    specialize (Hp _ Ha). unfold return_connection.
    destruct (alive c); cbn; [rewrite lookup_insert_eq; eauto | exact Hp].
  - destruct (return_connection_other alive config c p key Hne) as [_ Ha].
    rewrite Ha. intros Hact. specialize (Hp key Hact).
    unfold return_connection.
    destruct (alive c); cbn; [now rewrite lookup_insert_ne by congruence | exact Hp].
Qed.

Lemma tracked_run_ops (ops : list op) (p : SSHConnectionPool) :
  tracked p -> tracked (run_ops ops p).
Proof.
  revert p. induction ops as [|o ops IH]; intros p Hp; [exact Hp|].
  unfold run_ops in *. cbn [fold_left]. apply IH.
  destruct o; cbn [apply_op];
    [now apply tracked_get_connection | now apply tracked_return_connection].
Qed.

Lemma run_ops_max (ops : list op) (p : SSHConnectionPool) :
  max_connections_per_host (run_ops ops p) = max_connections_per_host p.
Proof.
  revert p. induction ops as [|o ops IH]; intros p; [reflexivity|].
  unfold run_ops in *. cbn [fold_left]. rewrite IH.
  destruct o as [alive created config | alive config c]; cbn [apply_op].
  - apply get_connection_max.
  - unfold return_connection. now destruct (alive c).
Qed.

(** X27.  [close_all] empties a pool: after any sequence of calls on a new
    pool, with any answers of the outside world, closing leaves no idle
    connection and no active count for any endpoint, and keeps the
    bound. *)
Theorem close_all_resets (ops : list op) (m : Z) (key : str) :
  let p := close_all (run_ops ops (new_pool m)) in
  idle p key = [] /\ active p key = 0 /\ max_connections_per_host p = m.
Proof.
  intros p. subst p. set (q := run_ops ops (new_pool m)).
  assert (Hq : tracked q) by apply tracked_run_ops, tracked_new_pool.
  destruct (close_all_spec q) as [Hmax Hkeys]. specialize (Hkeys key).
  assert (Hm : max_connections_per_host q = m) by apply run_ops_max.
  rewrite Hmax, Hm.
  destruct (_pools q !! key) as [l|] eqn:El.
  - destruct Hkeys as [-> ->]. now repeat split.
  - destruct Hkeys as [-> ->].
    assert (Hidle : idle q key = []) by (unfold idle; now rewrite El).
    destruct (decide (active q key = 0)) as [H0|Hn0]; [now repeat split|].
    destruct (Hq key Hn0) as [l Hl]. congruence.
Qed.

(** X28.  [get_stats] lists every endpoint in use: after any sequence of
    calls on a new pool, an endpoint with a non-zero active count has an
    entry, and the entry reports that count and the length of the idle
    list. *)
Theorem get_stats_lists_active (ops : list op) (m : Z) (key : str) :
  let p := run_ops ops (new_pool m) in
  active p key <> 0 ->
  get_stats p !! key
  = Some {| st_pooled := Z.of_nat (List.length (idle p key));
            st_active := active p key;
            st_total := Z.of_nat (List.length (idle p key)) + active p key |}.
Proof.
  intros p Hact.
  assert (Hq : tracked p) by apply tracked_run_ops, tracked_new_pool.
  destruct (Hq key Hact) as [l Hl].
  unfold get_stats. rewrite map_lookup_imap, Hl. cbn.
  unfold idle. now rewrite Hl.
Qed.

Lemma get_stats_lists_active_witness :
  let p := run_ops [Acquire always_alive (Ret 1%nat) example_config] (new_pool 5) in
  let key := _get_pool_key example_config in
  active p key <> 0 /\
  get_stats p !! key
  = Some {| st_pooled := Z.of_nat (List.length (idle p key));
            st_active := active p key;
            st_total := Z.of_nat (List.length (idle p key)) + active p key |}.
Proof.
  assert (H : active (run_ops [Acquire always_alive (Ret 1%nat) example_config]
                        (new_pool 5)) (_get_pool_key example_config) <> 0)
    by (vm_compute; discriminate).
  split; [exact H|].
  exact (get_stats_lists_active [Acquire always_alive (Ret 1%nat) example_config]
           5 (_get_pool_key example_config) H).
Defined.

(** ** The manager's [with] statement *)

(** X29.  [get_client] gives back what it takes: around a body that leaves
    the pool alone, every active count is the same after the [with]
    statement as before it, whether a configuration was found or not,
    whether a connection was obtained or not, and whether the body
    returned or raised. *)
Theorem get_client_releases {A : Type} (parse_ssh_url : str -> SSHConfig)
    (_default_config config : option SSHConfig) (url : option str)
    (alive : conn -> bool) (created : exc conn) (alive_after : conn -> bool)
    (body : conn -> exc A) (p : SSHConnectionPool) (key : str) :
  (forall k : str, 0 <= active p k) ->
  active (snd (get_client parse_ssh_url _default_config config url alive created
                 alive_after (fun c q => (body c, q)) p)) key
  = active p key.
Proof.
  intros Hp. unfold get_client.
  destruct (chosen_config parse_ssh_url _default_config config url) as [cfg|];
    [|reflexivity].
  pose proof (get_connection_counts alive created cfg p) as Hcount.
  cbn zeta in Hcount.
  destruct (decide (key = _get_pool_key cfg)) as [->|Hne].
  - destruct (get_connection alive created cfg p) as [[c|e] p1]; cbn [fst snd] in *.
    + rewrite return_connection_active, Hcount. specialize (Hp (_get_pool_key cfg)). lia.
    + exact Hcount.
  - pose proof (get_connection_other alive created cfg p key Hne) as [_ Ha].
    destruct (get_connection alive created cfg p) as [[c|e] p1]; cbn [fst snd] in *.
    + destruct (return_connection_other alive_after cfg c p1 key Hne) as [_ Hr].
      now rewrite Hr.
    + exact Ha.
Qed.

Lemma get_client_releases_witness :
  (forall k : str, 0 <= active (new_pool 5) k) /\
  active (snd (get_client (fun _ => example_config) None (Some example_config) None
                 always_alive (Ret 1%nat) always_alive
                 (fun c q => (@Raise unit (txt "boom"), q)) (new_pool 5)))
         (_get_pool_key example_config)
  = active (new_pool 5) (_get_pool_key example_config).
Proof.
  assert (H : forall k : str, 0 <= active (new_pool 5) k).
  { intros k. unfold active, new_pool; cbn. rewrite lookup_empty. cbn. lia. }
  split; [exact H|].
  exact (get_client_releases (fun _ => example_config) None (Some example_config) None
           always_alive (Ret 1%nat) always_alive
           (fun _ => @Raise unit (txt "boom")) (new_pool 5)
           (_get_pool_key example_config) H).
Defined.

End PoolMoreFacts.
